(** * KSRS: the scheduling, matching and scoring core

    A shallow embedding of the three pure computations of the Korean
    spaced-repetition application:

    - the SM-2 scheduler, in its two incarnations: the library module
      [lib/srs/sm2.ts] ([calculateNextReview]) and the copy inlined in the
      review route [app/api/review/[deckId]/route.ts] ([calculateSM2]);
    - the text matcher [lib/fuzzy/match.ts];
    - the usefulness scorer [lib/usefulness/score.ts].

    Modelling conventions.  A JavaScript [number] is an exact rational
    ([Q]); binary64 rounding and the infinities are outside the model, and
    nothing is stated of a value where the rounding shows (as of the
    products 6 x 1.2 and 6 x 1.3 of the library scheduler).  NaN appears
    where the code can produce it from such numbers: in the scorer on all
    tags ([UsefulnessJS]) and as the Invalid Date of [JSDate.TimeClip].
    Counters that the code only ever increments from an integer
    ([repetitions], edit distances, indices) are [Z] or [nat].  A JavaScript
    string is the list of its UTF-16 code units.  An object used as a
    dictionary is a finite map of its own keys; the members it inherits
    from [Object.prototype] are added in [UsefulnessJS]. *)

From Stdlib Require Import ZArith QArith Qround Qminmax Lia Lqa.
From stdpp Require Import gmap strings pretty list.

(** ** JavaScript primitives used by the three modules *)

Module JS.
Local Open Scope Q_scope.

(** [Math.round]: the nearest integer, ties towards +infinity. *)
Definition Math_round (x : Q) : Q := inject_Z (Qfloor (x + (1 # 2))).

Definition Math_max (x y : Q) : Q := Qmax x y.
Definition Math_min (x y : Q) : Q := Qmin x y.

(** The integer part of a number, as taken by [Date.prototype.setTime]
    and [setDate] (truncation towards zero). *)
Definition truncate (x : Q) : Z :=
  if Qle_bool 0 x then Qfloor x else Qceiling x.

(** A [Date] that is valid is its time value, in milliseconds since the
    epoch. *)
Definition Date := Z.

(** A number that is a whole number. *)
Definition is_integer (x : Q) : Prop := exists z : Z, x == inject_Z z.

End JS.

(** ** Dates: time values, calendar fields and local time

    The abstract operations of ECMAScript on time values that
    [Date.prototype.getMinutes], [setMinutes], [getDate] and [setDate] are
    made of.  All of them work on whole numbers of milliseconds. *)

Module JSDate.
Import JS.
Local Open Scope Z_scope.

Definition msPerDay : Z := 86400000.
Definition msPerHour : Z := 3600000.
Definition msPerMinute : Z := 60000.
Definition msPerSecond : Z := 1000.

Definition Day (t : Z) : Z := t / msPerDay.
Definition TimeWithinDay (t : Z) : Z := t mod msPerDay.

Definition DaysInYear (y : Z) : Z :=
  if negb (y mod 4 =? 0) then 365
  else if negb (y mod 100 =? 0) then 366
  else if negb (y mod 400 =? 0) then 365
  else 366.

Definition DayFromYear (y : Z) : Z :=
  365 * (y - 1970) + (y - 1969) / 4 - (y - 1901) / 100 + (y - 1601) / 400.

Definition TimeFromYear (y : Z) : Z := msPerDay * DayFromYear y.

(** The largest year [y] with [TimeFromYear y] at most [t]: an estimate
    from the 146097 days of 400 years, moved by one year where it is
    off. *)
Definition YearFromTime (t : Z) : Z :=
  let day := Day t in
  let y := 1970 + (400 * day) / 146097 in
  if day <? DayFromYear y then y - 1
  else if DayFromYear (y + 1) <=? day then y + 1
  else y.

Definition InLeapYear (t : Z) : Z :=
  if DaysInYear (YearFromTime t) =? 365 then 0 else 1.

Definition DayWithinYear (t : Z) : Z := Day t - DayFromYear (YearFromTime t).

(** The day within the year on which month [m] (0 to 11) begins. *)
Definition monthStart (m leap : Z) : Z :=
  if m =? 0 then 0
  else if m =? 1 then 31
  else if m =? 2 then 59 + leap
  else if m =? 3 then 90 + leap
  else if m =? 4 then 120 + leap
  else if m =? 5 then 151 + leap
  else if m =? 6 then 181 + leap
  else if m =? 7 then 212 + leap
  else if m =? 8 then 243 + leap
  else if m =? 9 then 273 + leap
  else if m =? 10 then 304 + leap
  else 334 + leap.

Definition MonthFromTime (t : Z) : Z :=
  let day := DayWithinYear t in
  let leap := InLeapYear t in
  if day <? 31 then 0
  else if day <? 59 + leap then 1
  else if day <? 90 + leap then 2
  else if day <? 120 + leap then 3
  else if day <? 151 + leap then 4
  else if day <? 181 + leap then 5
  else if day <? 212 + leap then 6
  else if day <? 243 + leap then 7
  else if day <? 273 + leap then 8
  else if day <? 304 + leap then 9
  else if day <? 334 + leap then 10
  else 11.

Definition DateFromTime (t : Z) : Z :=
  DayWithinYear t - monthStart (MonthFromTime t) (InLeapYear t) + 1.

Definition HourFromTime (t : Z) : Z := (t / msPerHour) mod 24.
Definition MinFromTime (t : Z) : Z := (t / msPerMinute) mod 60.
Definition SecFromTime (t : Z) : Z := (t / msPerSecond) mod 60.
Definition msFromTime (t : Z) : Z := t mod msPerSecond.

Definition MakeTime (hour min sec ms : Z) : Z :=
  hour * msPerHour + min * msPerMinute + sec * msPerSecond + ms.

(** [MakeDay]: the day number of the first of month [month mod 12] of the
    year [year + floor (month / 12)], plus [date - 1]. *)
Definition MakeDay (year month date : Z) : Z :=
  let ym := year + month / 12 in
  let mn := month mod 12 in
  DayFromYear ym + monthStart mn (if DaysInYear ym =? 365 then 0 else 1) + date - 1.

Definition MakeDate (day time : Z) : Z := day * msPerDay + time.

(** [TimeClip]: a time value further than 8.64e15 ms from the epoch is not
    a time value; the date is then an Invalid Date, here [None]. *)
Definition TimeClip (time : Z) : option Date :=
  if Z.abs time <=? 8640000000000000 then Some time else None.

Section WithLocalTime.

(** The offset of the local time of the host from UTC, in milliseconds:
    [LocalTZA t true] for a UTC time value [t], [LocalTZA t false] for a
    local time value [t].  It is what the time zone of the host makes
    it. *)
Variable LocalTZA : Z -> bool -> Z.

Definition LocalTime (t : Z) : Z := t + LocalTZA t true.
Definition UTC (t : Z) : Z := t - LocalTZA t false.

(** [Date.prototype.getMinutes] and [getDate] of a valid date. *)
Definition getMinutes (this : Date) : Z := MinFromTime (LocalTime this).
Definition getDate (this : Date) : Z := DateFromTime (LocalTime this).

(** [Date.prototype.setMinutes (min)] on a valid date: the new time
    value. *)
Definition setMinutes (this : Date) (min : Z) : option Date :=
  let t := LocalTime this in
  let date :=
    MakeDate (Day t) (MakeTime (HourFromTime t) min (SecFromTime t) (msFromTime t)) in
  TimeClip (UTC date).

(** [Date.prototype.setDate (date)] on a valid date: [MakeDay] takes the
    integer part of [date]. *)
Definition setDate (this : Date) (date : Q) : option Date :=
  let t := LocalTime this in
  let newDate :=
    MakeDate (MakeDay (YearFromTime t) (MonthFromTime t) (truncate date))
             (TimeWithinDay t) in
  TimeClip (UTC newDate).

End WithLocalTime.

End JSDate.

(** ** Ratings: [type Rating = 1 | 2 | 3 | 4] *)

Inductive Rating : Type :=
| Again  (* 1 *)
| Hard   (* 2 *)
| Good   (* 3 *)
| Easy.  (* 4 *)

Definition Rating_code (r : Rating) : Z :=
  match r with Again => 1 | Hard => 2 | Good => 3 | Easy => 4 end.

(** ** The library scheduler, [lib/srs/sm2.ts]

    In the source tree the module follows the matcher's tests in
    [src/lib/fuzzy/match.test.ts] (lines 170 to 327), and its own test suite
    [sm2.test.ts] comes after it. *)

Module Sm2.
Import JS.
Local Open Scope Q_scope.

Record CardState : Type := mkCardState {
  easeFactor : Q;      (* default 2.5, min 1.3 *)
  intervalDays : Q;    (* days until next review *)
  repetitions : Z;     (* successful reviews in a row *)
  dueAt : Date
}.

Record ReviewResult : Type := mkReviewResult {
  newState : CardState;
  nextReviewDate : Date
}.

(** [getInitialState]; [clock] is the value of [new Date()]. *)
Definition getInitialState (clock : Date) : CardState :=
  {| easeFactor := 2.5; intervalDays := 0; repetitions := 0; dueAt := clock |}.

Definition calculateNewEaseFactor (current : Q) (rating : Rating) : Q :=
  let newEase :=
    match rating with
    | Again => current - 0.2
    | Hard => current - 0.15
    | Good => current
    | Easy => current + 0.15
    end in
  (* Minimum ease factor is 1.3 *)
  Math_max 1.3 newEase.

Definition calculateNextInterval (state : CardState) (rating : Rating) : Q :=
  match rating with
  | Again => 1 / (24 * 60)              (* 1 minute as fraction of day *)
  | _ =>
    if (repetitions state =? 0)%Z then
      (* First successful review *)
      match rating with
      | Easy => 4
      | _ => 1
      end
    else if (repetitions state =? 1)%Z then
      (* Second successful review *)
      match rating with
      | Easy => 6 * 1.3
      | Hard => 6 * 1.2
      | _ => 6
      end
    else
      (* Subsequent reviews *)
      match rating with
      | Hard => intervalDays state * 1.2
      | Good => intervalDays state * easeFactor state
      | Easy => intervalDays state * easeFactor state * 1.3
      | Again => intervalDays state
      end
  end.

(** [calculateNextReview(currentState, rating, reviewedAt?)]; [clock] is
    what [new Date()] returns when [reviewedAt] is not supplied. *)
Definition calculateNextReview (clock : Date) (currentState : CardState)
    (rating : Rating) (reviewedAt : option Date) : ReviewResult :=
  let now := match reviewedAt with Some d => d | None => clock end in
  let newEaseFactor := calculateNewEaseFactor (easeFactor currentState) rating in
  let newInterval := calculateNextInterval currentState rating in
  let newRepetitions :=
    match rating with
    | Again => 0%Z                                   (* reset to learning phase *)
    | _ => (repetitions currentState + 1)%Z
    end in
  (* the time value given to [setTime]: a valid date when
     [JSDate.TimeClip] keeps it *)
  let nextReviewDate :=
    truncate (inject_Z now + newInterval * 24 * 60 * 60 * 1000) in
  {| newState := {| easeFactor := newEaseFactor;
                    intervalDays := newInterval;
                    repetitions := newRepetitions;
                    dueAt := nextReviewDate |};
     nextReviewDate := nextReviewDate |}.


(** The state after a sequence of ratings, each reviewed at the clock. *)
Definition review_all (clock : Date) (state : CardState) (ratings : list Rating)
    : CardState :=
  foldl (fun state rating => newState (calculateNextReview clock state rating None))
        state ratings.

(** The interval that a review at time 0 gives, for stating examples. *)
Definition interval_after (state : CardState) (rating : Rating) : Q :=
  intervalDays (newState (calculateNextReview 0%Z state rating None)).

End Sm2.

(** ** The scheduler inlined in the review route,
       [app/api/review/[deckId]/route.ts]

    [calculateSM2] (lines 54 to 106) is what [POST] calls; the library
    scheduler is not imported. *)

Module ReviewRoute.
Import JS.
Local Open Scope Q_scope.

Record SM2Result : Type := mkSM2Result {
  easeFactor : Q;
  intervalDays : Q;
  repetitions : Z
}.

Definition calculateSM2 (rating : Rating)
    (easeFactor0 intervalDays0 : Q) (repetitions0 : Z) : SM2Result :=
  match rating with
  | Again =>
    (* Again - Reset card *)
    {| easeFactor := Math_max 1.3 (easeFactor0 - 0.2);
       intervalDays := 0;
       repetitions := 0 |}
  | Hard =>
    (* Hard - Slight decrease in ease, modest interval increase *)
    {| easeFactor := Math_max 1.3 (easeFactor0 - 0.15);
       intervalDays := Math_max 1 (Math_round (intervalDays0 * 1.2));
       repetitions := (repetitions0 + 1)%Z |}
  | Good =>
    (* Good - Standard SM-2 *)
    let newRepetitions := (repetitions0 + 1)%Z in
    {| easeFactor := easeFactor0;
       intervalDays :=
         if (newRepetitions =? 1)%Z then 1
         else if (newRepetitions =? 2)%Z then 6
         else Math_round (intervalDays0 * easeFactor0);
       repetitions := newRepetitions |}
  | Easy =>
    (* Easy - Increase ease factor, longer interval *)
    let newRepetitions := (repetitions0 + 1)%Z in
    {| easeFactor := easeFactor0 + 0.15;
       intervalDays :=
         if (newRepetitions =? 1)%Z then 4
         else if (newRepetitions =? 2)%Z then 10
         else Math_round (intervalDays0 * easeFactor0 * 1.3);
       repetitions := newRepetitions |}
  end.

(** The due date computed by [POST] from the scheduler's result, lines
    363 to 371: the minute or the day of the month of the local time of
    [now] moved on.  [None] is an Invalid Date. *)
Definition nextDueAt (LocalTZA : Z -> bool -> Z) (now : Date) (sm2Result : SM2Result)
    : option Date :=
  if Qeq_bool (intervalDays sm2Result) 0 then
    (* Due in 1 minute for Again cards *)
    JSDate.setMinutes LocalTZA now (JSDate.getMinutes LocalTZA now + 1)
  else
    JSDate.setDate LocalTZA now
      (inject_Z (JSDate.getDate LocalTZA now) + intervalDays sm2Result).

End ReviewRoute.

(** ** The text matcher, [lib/fuzzy/match.ts] *)

Module Fuzzy.
Local Open Scope N_scope.

(** A string is the list of its UTF-16 code units. *)
Abbreviation char := N (only parsing).
Abbreviation jsstring := (list N) (only parsing).

(** The code units of a literal written in UTF-8, for writing examples. *)
Definition utf16_of_code_point (cp : N) : list char :=
  if cp <? 0x10000 then [cp]
  else [0xD800 + N.shiftr (cp - 0x10000) 10;
        0xDC00 + N.land (cp - 0x10000) 0x3FF].

Fixpoint utf16_of_utf8 (bytes : list N) : jsstring :=
  let cont b := N.land b 0x3F in
  match bytes with
  | [] => []
  | b0 :: rest0 =>
    if b0 <? 0x80 then b0 :: utf16_of_utf8 rest0
    else match rest0 with
    | [] => [0xFFFD]
    | b1 :: rest1 =>
      if b0 <? 0xE0 then
        utf16_of_code_point (N.shiftl (N.land b0 0x1F) 6 + cont b1)
          ++ utf16_of_utf8 rest1
      else match rest1 with
      | [] => [0xFFFD]
      | b2 :: rest2 =>
        if b0 <? 0xF0 then
          utf16_of_code_point
            (N.shiftl (N.land b0 0x0F) 12 + N.shiftl (cont b1) 6 + cont b2)
            ++ utf16_of_utf8 rest2
        else match rest2 with
        | [] => [0xFFFD]
        | b3 :: rest3 =>
          utf16_of_code_point
            (N.shiftl (N.land b0 0x07) 18 + N.shiftl (cont b1) 12
             + N.shiftl (cont b2) 6 + cont b3)
            ++ utf16_of_utf8 rest3
        end
      end
    end
  end.

Definition js (literal : string) : jsstring :=
  utf16_of_utf8 (map Ascii.N_of_ascii (String.list_ascii_of_string literal)).

(** The class [\s] of a regular expression, which is also what [trim]
    strips: WhiteSpace and LineTerminator. *)
Definition isWhiteSpace (c : char) : bool :=
  ((0x09 <=? c) && (c <=? 0x0D)) || (c =? 0x20) || (c =? 0xA0)
  || (c =? 0x1680) || ((0x2000 <=? c) && (c <=? 0x200A))
  || (c =? 0x2028) || (c =? 0x2029) || (c =? 0x202F) || (c =? 0x205F)
  || (c =? 0x3000) || (c =? 0xFEFF).

(** The class of the second [replace]: full stop, comma, exclamation and
    question mark, tilde, ellipsis U+2026, the straight double and single
    quotes (each written twice), and the corner brackets U+300C-U+300F. *)
Definition punctuation : list char :=
  [0x2E; 0x2C; 0x21; 0x3F; 0x7E; 0x2026; 0x22; 0x22; 0x27; 0x27;
   0x300C; 0x300D; 0x300E; 0x300F].

(** The class of the third [replace], ASCII punctuation: full stop,
    comma, colon, semicolon, exclamation and question mark, both straight
    quotes, parentheses, square brackets and braces. *)
Definition asciiPunctuation : list char :=
  [0x2E; 0x2C; 0x3A; 0x3B; 0x21; 0x3F; 0x27; 0x22; 0x28; 0x29;
   0x5B; 0x5D; 0x7B; 0x7D].

Definition inClass (class : list char) (c : char) : bool :=
  existsb (N.eqb c) class.

(** [text.replace(/[class]/g, '')], for a predicate on code units. *)
Definition removeAll (matches : char -> bool) (text : jsstring) : jsstring :=
  List.filter (fun c => negb (matches c)) text.

Fixpoint trimStart (text : jsstring) : jsstring :=
  match text with
  | [] => []
  | c :: rest => if isWhiteSpace c then trimStart rest else text
  end.

Definition trimEnd (text : jsstring) : jsstring :=
  rev (trimStart (rev text)).

Definition trim (text : jsstring) : jsstring := trimEnd (trimStart text).

(** A code unit that one of the three [replace] calls removes. *)
Definition stripped (c : char) : bool :=
  isWhiteSpace c || inClass punctuation c || inClass asciiPunctuation c.

Section WithToLowerCase.

(** [String.prototype.toLowerCase], the Unicode lower-casing of the
    platform. *)
Variable toLowerCase : jsstring -> jsstring.

Definition normalizeKorean (text : jsstring) : jsstring :=
  trim
    (toLowerCase
      (removeAll (inClass asciiPunctuation)      (* Remove ASCII punctuation *)
        (removeAll (inClass punctuation)         (* Remove punctuation *)
          (removeAll isWhiteSpace text)))).      (* Remove all whitespace *)

End WithToLowerCase.

(** Lower-casing restricted to the letters A-Z, an instance used to run
    the code on examples. *)
Definition toLowerCaseASCII_unit (c : char) : char :=
  if (0x41 <=? c) && (c <=? 0x5A) then c + 0x20 else c.

Definition toLowerCaseASCII (text : jsstring) : jsstring :=
  map toLowerCaseASCII_unit text.

(** A string without any code unit that normalization removes. *)
Definition clean (text : jsstring) : Prop :=
  Forall (fun c => stripped c = false) text.

Local Close Scope N_scope.
Local Open Scope nat_scope.

(** *** Edit distance *)

(** [arr[i] = v]: overwrites inside the array, appends at its length
    (the code never writes further out). *)
Definition array_set {A : Type} (arr : list A) (i : nat) (v : A) : list A :=
  if i <? length arr then <[i := v]> arr else arr ++ [v].

(** [matrix[i][j]]; the code reads only cells it has written. *)
Definition cell (matrix : list (list nat)) (i j : nat) : nat :=
  nth j (nth i matrix []) 0.

(** [matrix[i][j] = v]. *)
Definition set_cell (matrix : list (list nat)) (i j v : nat) : list (list nat) :=
  <[i := array_set (nth i matrix []) j v]> matrix.

Definition min3 (x y z : nat) : nat := Nat.min (Nat.min x y) z.

(** The right-hand side of the assignment to [matrix[i][j]] in the
    double loop. *)
Definition next_cell (a b : jsstring) (matrix : list (list nat)) (i j : nat) : nat :=
  if bool_decide (b !! (i - 1) = a !! (j - 1)) then
    cell matrix (i - 1) (j - 1)
  else
    min3 (cell matrix (i - 1) (j - 1) + 1)   (* substitution *)
         (cell matrix i (j - 1) + 1)         (* insertion *)
         (cell matrix (i - 1) j + 1).        (* deletion *)

Definition init_rows (b : jsstring) : list (list nat) :=
  foldl (fun matrix i => array_set matrix i [i]) [] (seq 0 (S (length b))).

Definition init_first_row (a : jsstring) (matrix : list (list nat)) : list (list nat) :=
  foldl (fun matrix j => set_cell matrix 0 j j) matrix (seq 0 (S (length a))).

Definition fill_row (a b : jsstring) (matrix : list (list nat)) (i : nat) : list (list nat) :=
  foldl (fun matrix j => set_cell matrix i j (next_cell a b matrix i j))
        matrix (seq 1 (length a)).

Definition fill (a b : jsstring) (matrix : list (list nat)) : list (list nat) :=
  foldl (fill_row a b) matrix (seq 1 (length b)).

Definition levenshteinMatrix (a b : jsstring) : list (list nat) :=
  fill a b (init_first_row a (init_rows b)).

Definition levenshteinDistance (a b : jsstring) : nat :=
  cell (levenshteinMatrix a b) (length b) (length a).

(** What the cell [matrix[i][j]] is shown to satisfy: it is at most the
    longer of the two prefixes it compares, and it is 0 only when these
    prefixes (the first [i] units of [b], the first [j] of [a]) are
    equal. *)
Definition cell_ok (a b : jsstring) (i j v : nat) : Prop :=
  v <= Nat.max i j /\ (v = 0 -> take i b = take j a).

(** A row [i] whose first [k] cells are written and right. *)
Definition row_ok (a b : jsstring) (i : nat) (row : list nat) (k : nat) : Prop :=
  length row = k /\ forall j, j < k -> cell_ok a b i j (nth j row 0).

(** *** Similarity *)

Definition calculateSimilarity (a b : jsstring) : Q :=
  if bool_decide (a = b) then 1%Q
  else if (length a =? 0) || (length b =? 0) then 0%Q
  else
    let distance := levenshteinDistance a b in
    let maxLength := Nat.max (length a) (length b) in
    (1 - inject_Z (Z.of_nat distance) / inject_Z (Z.of_nat maxLength))%Q.

(** *** Differences *)

Inductive DifferenceType : Type := insert | delete | replace.

Record Difference : Type := mkDifference {
  type : DifferenceType;
  position : nat;
  expected : option char;
  actual : option char
}.

(** [s.indexOf(c, from)] for a one-character [c]; [None] stands for -1. *)
Fixpoint indexOf_from (s : jsstring) (c : char) (k : nat) : option nat :=
  match s with
  | [] => None
  | x :: rest => if N.eqb x c then Some k else indexOf_from rest c (S k)
  end.

Definition indexOf (s : jsstring) (c : char) (from : nat) : option nat :=
  indexOf_from (drop from s) c from.

(** One turn of the [while] loop of [findDifferences], before its safety
    valve: the new cursors and the new list. *)
Definition findDifferences_step (expected0 actual0 : jsstring)
    (i j : nat) (differences : list Difference)
    : nat * nat * list Difference :=
  match expected0 !! i, actual0 !! j with
  | None, _ =>
    (* Extra characters in actual *)
    (i, S j, differences ++ [mkDifference insert j None (actual0 !! j)])
  | Some e, None =>
    (* Missing characters in actual *)
    (S i, j, differences ++ [mkDifference delete i (Some e) None])
  | Some e, Some c =>
    if N.eqb e c then (S i, S j, differences)
    else
      (* Check if it's a replacement or insertion/deletion *)
      let lookAheadExpected := indexOf expected0 c i in
      let lookAheadActual := indexOf actual0 e j in
      if bool_decide (lookAheadActual = Some (j + 1)) then
        (i, S j, differences ++ [mkDifference insert j None (Some c)])
      else if bool_decide (lookAheadExpected = Some (i + 1)) then
        (S i, j, differences ++ [mkDifference delete i (Some e) None])
      else
        (S i, S j, differences ++ [mkDifference replace i (Some e) (Some c)])
  end.

(** The loop; every turn advances a cursor, so [fuel] turns with [fuel]
    at least the characters left in both strings run it to its end. *)
Fixpoint findDifferences_loop (fuel : nat) (expected0 actual0 : jsstring)
    (maxLen i j : nat) (differences : list Difference) : list Difference :=
  match fuel with
  | O => differences
  | S fuel' =>
    if (i <? length expected0) || (j <? length actual0) then
      let '(i', j', differences') :=
        findDifferences_step expected0 actual0 i j differences in
      (* Safety valve to prevent infinite loops *)
      if maxLen * 2 <? length differences' then differences'
      else findDifferences_loop fuel' expected0 actual0 maxLen i' j' differences'
    else differences
  end.

Definition findDifferences (expected0 actual0 : jsstring) : list Difference :=
  findDifferences_loop (length expected0 + length actual0) expected0 actual0
    (Nat.max (length expected0) (length actual0)) 0 0 [].

(** *** Matching *)

Record MatchResult : Type := mkMatchResult {
  isMatch : bool;
  similarity : Q;            (* 0-1, 1 = perfect match *)
  normalizedExpected : jsstring;
  normalizedActual : jsstring;
  differences : list Difference
}.

Definition fuzzyMatch (toLowerCase : jsstring -> jsstring)
    (expected0 actual0 : jsstring) : MatchResult :=
  let normalizedExpected := normalizeKorean toLowerCase expected0 in
  let normalizedActual := normalizeKorean toLowerCase actual0 in
  (* Exact match after normalization *)
  if bool_decide (normalizedExpected = normalizedActual) then
    {| isMatch := true;
       similarity := 1;
       normalizedExpected := normalizedExpected;
       normalizedActual := normalizedActual;
       differences := [] |}
  else
    (* Calculate similarity and differences *)
    let differences := findDifferences normalizedExpected normalizedActual in
    let similarity := calculateSimilarity normalizedExpected normalizedActual in
    (* Consider it a match if similarity is very high (typo tolerance) *)
    let isMatch := Qle_bool 0.95 similarity in
    {| isMatch := isMatch;
       similarity := similarity;
       normalizedExpected := normalizedExpected;
       normalizedActual := normalizedActual;
       differences := differences |}.

End Fuzzy.

(** ** The usefulness scorer, [lib/usefulness/score.ts] *)

Module Usefulness.
Import JS.
Local Open Scope string_scope.
Local Open Scope list_scope.
Local Open Scope Q_scope.

Record CardInput : Type := mkCardInput {
  korean : string;
  english : string;
  tags : list string;
  isPattern : option bool;      (* Grammar patterns score higher *)
  manualScore : option Q;       (* User override *)
  frequencyRank : option Q      (* 1-10000, lower is more common *)
}.

Inductive UserLevel : Type := beginner | intermediate | advanced.

Record ScoringConfig : Type := mkScoringConfig {
  tagWeights : gmap string Q;
  patternBonus : Q;             (* Points for grammar patterns *)
  frequencyWeight : Q;          (* How much frequency matters *)
  userLevel : option UserLevel
}.

(** [Partial<ScoringConfig>]: every field may be left out. *)
Record PartialScoringConfig : Type := mkPartialScoringConfig {
  tagWeights_opt : option (gmap string Q);
  patternBonus_opt : option Q;
  frequencyWeight_opt : option Q;
  userLevel_opt : option UserLevel
}.

Record ScoreResult : Type := mkScoreResult {
  score : Q;                    (* 0-100 *)
  reasons : list string
}.

Definition DEFAULT_CONFIG : ScoringConfig :=
  {| tagWeights :=
       list_to_map
         [("beginner", 10); ("essential", 10); ("travel", 8); ("food", 7);
          ("greeting", 9); ("pattern", 8); ("business", 6); ("formal", 5);
          ("slang", 3); ("rare", -5)];
     patternBonus := 15;
     frequencyWeight := 0.25;
     userLevel := None |}.

Definition BASE_SCORE : Q := 50.
Definition MAX_TAG_IMPACT : Q := 30.

(** [normalizeScore]: normalize score to 0-100 range. *)
Definition normalizeScore (raw : Q) : Q :=
  Math_max 0 (Math_min 100 (Math_round raw)).

(** [getFrequencyScore]; the optional [reason] is the second component. *)
Definition getFrequencyScore (rank : option Q) : Q * option string :=
  match rank with
  | None => (0, None)
  | Some rank =>
    if Qle_bool rank 1000 then
      (20, Some "high-frequency word (rank 1-1000)")
    else if Qle_bool rank 5000 then
      (10, Some "medium-frequency word (rank 1000-5000)")
    else
      (0, Some "low-frequency word (rank 5000+)")
  end.

(** The merge of the caller's configuration into the default one: the
    object spreads of [calculateUsefulness]. *)
Definition mergeConfig (config : option PartialScoringConfig) : ScoringConfig :=
  {| tagWeights :=
       default ∅ (config ≫= tagWeights_opt) ∪ tagWeights DEFAULT_CONFIG;
     patternBonus :=
       default (patternBonus DEFAULT_CONFIG) (config ≫= patternBonus_opt);
     frequencyWeight :=
       default (frequencyWeight DEFAULT_CONFIG) (config ≫= frequencyWeight_opt);
     userLevel :=
       match config ≫= userLevel_opt with
       | Some l => Some l
       | None => userLevel DEFAULT_CONFIG
       end |}.

Section WithNumberToString.

(** The conversion of a number to a string that a template literal
    applies. *)
Variable Number_toString : Q -> string.

(** One turn of the loop of [getTagScore], the tag being looked up among
    the own keys of the table ([UsefulnessJS] has the lookup through the
    prototype as well). *)
Definition getTagScore_step (weights : gmap string Q)
    (acc : Q * list string) (tag : string) : Q * list string :=
  let '(rawScore, reasons) := acc in
  match weights !! tag with
  | Some weight =>
    (rawScore + weight,
     if Qlt_le_dec 0 weight then
       reasons ++ ["+" +:+ Number_toString weight +:+ " for '" +:+ tag +:+ "' tag"]
     else if Qlt_le_dec weight 0 then
       reasons ++ [Number_toString weight +:+ " for '" +:+ tag +:+ "' tag"]
     else reasons)
  | None => acc
  end.

(** [getTagScore]: score contribution from tags. *)
Definition getTagScore (tags : list string) (weights : gmap string Q)
    : ScoreResult :=
  let '(rawScore, reasons) := foldl (getTagScore_step weights) (0, []) tags in
  (* Clamp tag impact to max range *)
  let clampedScore :=
    Math_max (- MAX_TAG_IMPACT) (Math_min MAX_TAG_IMPACT rawScore) in
  {| score := clampedScore;
     reasons :=
       if Qeq_bool rawScore clampedScore then reasons
       else reasons ++ ["tag score capped at ±" +:+ Number_toString MAX_TAG_IMPACT] |}.

(** [getPatternScore]: score contribution from pattern status. *)
Definition getPatternScore (isPattern : bool) (bonus : Q) : Q * option string :=
  if isPattern then
    (bonus, Some ("+" +:+ Number_toString bonus +:+ " grammar pattern bonus"))
  else (0, None).

(** [calculateUsefulness]: usefulness score for a flashcard. *)
Definition calculateUsefulness (card : CardInput)
    (config : option PartialScoringConfig) : ScoreResult :=
  match manualScore card with
  | Some manual =>
    (* Handle manual override *)
    {| score := normalizeScore manual;
       reasons := ["manual score override"] |}
  | None =>
    (* Merge config with defaults *)
    let finalConfig := mergeConfig config in
    let reasons := ["base score: " +:+ Number_toString BASE_SCORE] in
    let totalScore := BASE_SCORE in
    (* Add tag contributions *)
    let tagResult := getTagScore (tags card) (tagWeights finalConfig) in
    let totalScore := totalScore + score tagResult in
    let reasons := reasons ++ Usefulness.reasons tagResult in
    (* Add pattern bonus *)
    let patternResult :=
      getPatternScore (default false (isPattern card)) (patternBonus finalConfig) in
    let totalScore := totalScore + fst patternResult in
    let reasons :=
      match snd patternResult with
      | Some reason => reasons ++ [reason]
      | None => reasons
      end in
    (* Add frequency contribution *)
    let frequencyResult := getFrequencyScore (frequencyRank card) in
    let totalScore := totalScore + fst frequencyResult in
    let reasons :=
      match snd frequencyResult with
      | Some reason => reasons ++ [reason]
      | None => reasons
      end in
    {| score := normalizeScore totalScore;
       reasons := reasons |}
  end.

End WithNumberToString.

(** Decimal printing of whole numbers, the instance of [Number_toString]
    used to run the code on the whole-number weights of the examples. *)
Definition decimal (x : Q) : string := pretty (Qfloor x).

(** A card with only tags. *)
Definition card_with_tags (tags : list string) : CardInput :=
  mkCardInput "" "" tags None None None.

(** A tag to which the default configuration gives a positive weight. *)
Definition positive_tag (tag : string) : Prop :=
  exists weight, tagWeights DEFAULT_CONFIG !! tag = Some weight /\ 0 < weight.

(** The sum of the weights of the tags, the [rawScore] of [getTagScore]. *)
Definition rawTagScore (Number_toString : Q -> string)
    (tags : list string) (weights : gmap string Q) : Q :=
  fst (foldl (getTagScore_step Number_toString weights) (0, []) tags).

End Usefulness.

(** ** The rest of the library scheduler: the label of an interval *)

Module Sm2Display.
Import JS.
Local Open Scope string_scope.
Local Open Scope Q_scope.

Section WithNumberToString.

(** The conversion of a number to a string that a template literal
    applies; every number printed here comes out of [Math.round]. *)
Variable Number_toString : Q -> string.

(** [getIntervalDisplay] ([lib/srs/sm2.ts], in
    [src/lib/fuzzy/match.test.ts], lines 302 to 327). *)
Definition getIntervalDisplay (days : Q) : string :=
  if Qlt_le_dec days 1 then
    (* Less than 1 day: show minutes or hours *)
    let minutes := Math_round (days * 24 * 60) in
    if Qlt_le_dec minutes 60 then Number_toString minutes +:+ "m"
    else
      let hours := Math_round (days * 24) in
      Number_toString hours +:+ "h"
  else if Qlt_le_dec days 14 then
    (* Less than 14 days: show days *)
    Number_toString (Math_round days) +:+ "d"
  else if Qlt_le_dec days 60 then
    (* Less than 60 days: show weeks *)
    let weeks := Math_round (days / 7) in
    Number_toString weeks +:+ "w"
  else
    (* 60 days or more: show months *)
    let months := Math_round (days / 30) in
    Number_toString months +:+ "m".

End WithNumberToString.

End Sm2Display.

(** ** Sequences of reviews through the route *)

Module ReviewSession.
Import JS.

(** The stored triple after a sequence of ratings, each one sent to
    [POST]. *)
Definition review_all (start : ReviewRoute.SM2Result) (ratings : list Rating)
    : ReviewRoute.SM2Result :=
  foldl (fun stored rating =>
           ReviewRoute.calculateSM2 rating (ReviewRoute.easeFactor stored)
             (ReviewRoute.intervalDays stored) (ReviewRoute.repetitions stored))
        start ratings.

(** The progress record that [POST] creates for a card never reviewed. *)
Definition new_progress : ReviewRoute.SM2Result :=
  ReviewRoute.mkSM2Result 2.5 0 0.

(** The triples that the validation rules of [DB_SCHEMA.md] allow. *)
Definition valid (stored : ReviewRoute.SM2Result) : Prop :=
  (1.3 <= ReviewRoute.easeFactor stored)%Q
  /\ (0 <= ReviewRoute.intervalDays stored)%Q
  /\ (0 <= ReviewRoute.repetitions stored)%Z.

End ReviewSession.

(** ** The review pages: the interval previews and the check of a typed
       answer

    [app/review/.../page.tsx], the typing page and the recognition page,
    which follow the scorer in [src/lib/usefulness/score.ts] (lines 519 to
    1125 and 1126 to 1574). *)

Module ReviewPage.
Import JS.
Local Open Scope string_scope.
Local Open Scope list_scope.
Local Open Scope Q_scope.

(** The fields of [cardProgress] that the previews read. *)
Record CardProgress : Type := mkCardProgress {
  easeFactor : Q;
  intervalDays : Q;
  repetitions : Z
}.

(** [x || fallback] on numbers: 0 is the falsy number. *)
Definition or_else (x fallback : Q) : Q :=
  if Qeq_bool x 0 then fallback else x.

Record PreviewIntervals : Type := mkPreviewIntervals {
  againInterval : Q;
  hardInterval : Q;
  goodInterval : Q;
  easyInterval : Q
}.

(** The predicted intervals of both pages (typing page lines 700 to 735,
    recognition page lines 1228 to 1256). *)
Definition previewIntervals (cardProgress : option CardProgress) : PreviewIntervals :=
  let currentInterval := or_else (default 0 (intervalDays <$> cardProgress)) 0 in
  let easeFactor := or_else (default 0 (easeFactor <$> cardProgress)) 2.5 in
  let repetitions := default 0%Z (repetitions <$> cardProgress) in
  {| againInterval := 0;
     hardInterval := Math_max 1 (Math_round (currentInterval * 1.2));
     goodInterval :=
       if (repetitions =? 0)%Z then 1
       else if (repetitions =? 1)%Z then 6
       else Math_round (currentInterval * easeFactor);
     easyInterval :=
       if (repetitions =? 0)%Z then 4
       else if (repetitions =? 1)%Z then 10
       else Math_round (currentInterval * easeFactor * 1.3) |}.

Section WithNumberToString.

Variable Number_toString : Q -> string.

(** [formatInterval] of the pages. *)
Definition formatInterval (days : Q) : string :=
  if Qeq_bool days 0 then "< 1m"
  else if Qlt_le_dec days 1 then "< 10m"
  else if Qeq_bool days 1 then "1d"
  else if Qlt_le_dec days 30 then Number_toString days +:+ "d"
  else if Qlt_le_dec days 365 then Number_toString (Math_round (days / 30)) +:+ "mo"
  else Number_toString (Math_round (days / 365)) +:+ "y".

End WithNumberToString.

Local Open Scope N_scope.

(** The class of the page's second [replace]: exclamation and question
    mark, comma, full stop, and the ideographic full stop and comma U+3002
    and U+3001. *)
Definition punctuation : list N := [0x21; 0x3F; 0x2C; 0x2E; 0x3002; 0x3001].

(** The page's own [normalizeKorean] (lines 561 to 568): it trims before
    it lower-cases. *)
Definition normalizeKorean (toLowerCase : list N -> list N) (text : list N) : list N :=
  toLowerCase
    (Fuzzy.trim
      (Fuzzy.removeAll (Fuzzy.inClass punctuation)
        (Fuzzy.removeAll Fuzzy.isWhiteSpace text))).

Local Close Scope N_scope.
Local Open Scope Q_scope.

(** The page's own [calculateSimilarity] (lines 570 to 586), a percentage.
    Its [levenshteinDistance] (lines 588 to 614) is the library's, line for
    line. *)
Definition calculateSimilarity (toLowerCase : list N -> list N)
    (str1 str2 : list N) : Q :=
  let s1 := normalizeKorean toLowerCase str1 in
  let s2 := normalizeKorean toLowerCase str2 in
  if bool_decide (s1 = s2) then 100
  else
    let longer := if (length s2 <? length s1)%nat then s1 else s2 in
    let shorter := if (length s2 <? length s1)%nat then s2 else s1 in
    if (length longer =? 0)%nat then 100
    else
      (* Levenshtein distance *)
      let editDistance := Fuzzy.levenshteinDistance s1 s2 in
      let similarity :=
        (inject_Z (Z.of_nat (length longer)) - inject_Z (Z.of_nat editDistance))
        / inject_Z (Z.of_nat (length longer)) * 100 in
      Math_round similarity.

Inductive CharDiffType : Type := correct | wrong | missing | extra.

Record CharDiff : Type := mkCharDiff {
  char : list N;
  type : CharDiffType
}.

(** One turn of the loop of [generateCharDiff]. *)
Definition charDiff_at (user correct0 : list N) (i : nat) : list CharDiff :=
  match user !! i, correct0 !! i with
  | Some userChar, Some correctChar =>
    if N.eqb userChar correctChar then [mkCharDiff [userChar] correct]
    else [mkCharDiff [userChar; 0x2192%N; correctChar] wrong]
  | None, Some correctChar => [mkCharDiff [correctChar] missing]
  | Some userChar, None => [mkCharDiff [userChar] extra]
  | None, None => []
  end.

(** [generateCharDiff] (lines 616 to 641). *)
Definition generateCharDiff (toLowerCase : list N -> list N)
    (userAnswer correctAnswer : list N) : list CharDiff :=
  let user := normalizeKorean toLowerCase userAnswer in
  let correct0 := normalizeKorean toLowerCase correctAnswer in
  let maxLen := Nat.max (length user) (length correct0) in
  foldl (fun diffs i => diffs ++ charDiff_at user correct0 i) [] (seq 0 maxLen).

Record CheckResult : Type := mkCheckResult {
  similarity : Q;
  charDiff : list CharDiff;
  isCorrect : bool
}.

(** [handleCheck] of the typing page (lines 765 to 776): nothing happens
    on an answer of whitespace only. *)
Definition handleCheck (toLowerCase : list N -> list N)
    (userAnswer correctAnswer : list N) : option CheckResult :=
  if bool_decide (Fuzzy.trim userAnswer = []) then None
  else
    let sim := calculateSimilarity toLowerCase userAnswer correctAnswer in
    let diff := generateCharDiff toLowerCase userAnswer correctAnswer in
    (* 95% similarity threshold for correct *)
    Some {| similarity := sim; charDiff := diff; isCorrect := Qle_bool 95 sim |}.

End ReviewPage.

(** ** The rest of the matcher: the diff markup and the confusion tips *)

Module FuzzyFeedback.
Import Fuzzy.
Local Open Scope nat_scope.

(** [<span class="...">c</span>], with the class name given. *)
Definition span (class : string) (c : N) : list N :=
  js "<span class=" ++ [0x22%N] ++ js class ++ [0x22%N] ++ js ">" ++ [c] ++ js "</span>".

(** What the first loop of [generateDiffHtml] appends at position [i]. *)
Definition expected_piece (normalizedActual : list N) (i : nat) (c : N) : list N :=
  match normalizedActual !! i with
  | None => span "diff-delete" c
  | Some actualChar => if N.eqb c actualChar then [c] else span "diff-change" c
  end.

(** What the second loop appends at position [i]. *)
Definition actual_piece (normalizedExpected : list N) (i : nat) (c : N) : list N :=
  match normalizedExpected !! i with
  | None => span "diff-insert" c
  | Some expectedChar => if N.eqb c expectedChar then [c] else span "diff-wrong" c
  end.

Record DiffHtml : Type := mkDiffHtml {
  expectedHtml : list N;
  actualHtml : list N
}.

(** [generateDiffHtml] ([lib/fuzzy/match.ts], lines 188 to 237). *)
Definition generateDiffHtml (toLowerCase : list N -> list N)
    (expected0 actual0 : list N) : DiffHtml :=
  let result := fuzzyMatch toLowerCase expected0 actual0 in
  if isMatch result && Qeq_bool (similarity result) 1 then
    {| expectedHtml := expected0; actualHtml := actual0 |}
  else
    (* Simple character-by-character diff display *)
    let normalizedExpected := normalizedExpected result in
    let normalizedActual := normalizedActual result in
    {| expectedHtml :=
         foldl (fun html i =>
                  html ++ from_option (expected_piece normalizedActual i) []
                            (normalizedExpected !! i))
               [] (seq 0 (length normalizedExpected));
       actualHtml :=
         foldl (fun html i =>
                  html ++ from_option (actual_piece normalizedExpected i) []
                            (normalizedActual !! i))
               [] (seq 0 (length normalizedActual)) |}.

(** [COMMON_CONFUSIONS] (lines 242 to 251): the keys and the values are
    single compatibility jamo. *)
Definition COMMON_CONFUSIONS : gmap N N :=
  list_to_map
    [(0x3154, 0x3150); (0x3150, 0x3154);    (* e vs ae *)
     (0x3156, 0x3152); (0x3152, 0x3156);    (* ye vs yae *)
     (0x315A, 0x3159); (0x3159, 0x315A);    (* oe vs wae *)
     (0x315D, 0x315C); (0x315C, 0x315D)]%N. (* wo vs u *)

Definition confusion_message (act exp : N) : list N :=
  js "Common confusion: " ++ [act] ++ js " vs " ++ [exp]
  ++ js ". These vowels sound similar but are written differently.".

(** The test of the loop of [getConfusionTip] at position [i]. *)
Definition confusion_at (expected0 actual0 : list N) (i : nat) : option (list N) :=
  match expected0 !! i, actual0 !! i with
  | Some exp, Some act =>
    if negb (N.eqb exp act) && bool_decide (COMMON_CONFUSIONS !! exp = Some act)
    then Some (confusion_message act exp)
    else None
  | _, _ => None
  end.

(** The loop: the first position that passes the test. *)
Fixpoint first_confusion (expected0 actual0 : list N) (positions : list nat)
    : option (list N) :=
  match positions with
  | [] => None
  | i :: rest =>
    match confusion_at expected0 actual0 i with
    | Some tip => Some tip
    | None => first_confusion expected0 actual0 rest
    end
  end.

(** [getConfusionTip] (lines 256 to 267); [None] is [null]. *)
Definition getConfusionTip (expected0 actual0 : list N) : option (list N) :=
  first_confusion expected0 actual0
    (seq 0 (Nat.min (length expected0) (length actual0))).

(** The distance of the prefixes of lengths [i] of [b] and [j] of [a], by
    the recurrence that the matrix is filled with. *)
Fixpoint prefix_distance (a b : list N) (i : nat) : nat -> nat :=
  match i with
  | O => fun j => j
  | S i' =>
    fix row (j : nat) : nat :=
      match j with
      | O => S i'
      | S j' =>
        if bool_decide (b !! i' = a !! j') then prefix_distance a b i' j'
        else min3 (prefix_distance a b i' j' + 1) (row j' + 1)
                  (prefix_distance a b i' (S j') + 1)
      end
  end.

(** A row [i] whose first [k] cells hold the distances of the prefixes. *)
Definition row_exact (a b : list N) (i : nat) (row : list nat) (k : nat) : Prop :=
  length row = k /\ forall j, j < k -> nth j row 0 = prefix_distance a b i j.

(** A difference that says what the two strings hold at its position. *)
Definition difference_ok (expected0 actual0 : list N) (d : Difference) : Prop :=
  match type d with
  | insert =>
    position d < length actual0
    /\ expected d = None /\ actual d = actual0 !! position d
  | delete =>
    position d < length expected0
    /\ expected d = expected0 !! position d /\ actual d = None
  | replace =>
    position d < length expected0
    /\ expected d = expected0 !! position d
    /\ is_Some (actual d) /\ actual d <> expected d
  end.


(** The differences of one type in a list. *)
Definition count_of (t : DifferenceType) (ds : list Difference) : nat :=
  length (List.filter
            (fun d => match type d, t with
                      | insert, insert | delete, delete | replace, replace => true
                      | _, _ => false
                      end) ds).

End FuzzyFeedback.

(** ** Helpers for stating facts on the scorer *)

Module UsefulnessSpec.
Import JS Usefulness.
Local Open Scope Q_scope.

(** The sum of the configured weights of the tags, unknown tags counting
    for nothing. *)
Fixpoint weight_sum (weights : gmap string Q) (tags : list string) : Q :=
  match tags with
  | [] => 0
  | tag :: rest => default 0 (weights !! tag) + weight_sum weights rest
  end.

(** The card with other tags. *)
Definition with_tags (card : CardInput) (tags : list string) : CardInput :=
  mkCardInput (korean card) (english card) tags
    (isPattern card) (manualScore card) (frequencyRank card).

(** The card with the pattern flag set or cleared. *)
Definition with_pattern (card : CardInput) (flag : bool) : CardInput :=
  mkCardInput (korean card) (english card) (tags card)
    (Some flag) (manualScore card) (frequencyRank card).

End UsefulnessSpec.

(** ** The scorer with the property lookup of JavaScript

    [weights[tag]] on a plain object reads an own property and, where
    there is none, the member that the object inherits from
    [Object.prototype].  Such a member is a function (for [__proto__] the
    prototype object), so it passes the test against [undefined], and [+=]
    turns [rawScore] into a string; [Math.min] then gives NaN.  [Usefulness]
    above is the scorer where no tag names such a member; here are
    [getTagScore] and [calculateUsefulness] on all tags.  The table of
    weights is a plain object, as the spreads of [calculateUsefulness]
    build it. *)

Module UsefulnessJS.
Import JS Usefulness.
Local Open Scope string_scope.
Local Open Scope list_scope.
Local Open Scope Q_scope.

(** The names of the members of [Object.prototype]. *)
Definition Object_prototype : list string :=
  ["constructor"; "__defineGetter__"; "__defineSetter__"; "hasOwnProperty";
   "__lookupGetter__"; "__lookupSetter__"; "isPrototypeOf"; "propertyIsEnumerable";
   "toString"; "valueOf"; "__proto__"; "toLocaleString"].

(** What [weights[tag]] gives. *)
Inductive Property : Type :=
| own (weight : Q)      (* an own property of the table *)
| inherited             (* a member of [Object.prototype]: not a number *)
| undefined.

Definition get (weights : gmap string Q) (key : string) : Property :=
  match weights !! key with
  | Some weight => own weight
  | None => if bool_decide (key ∈ Object_prototype) then inherited else undefined
  end.

Definition is_undefined (p : Property) : bool :=
  match p with undefined => true | _ => false end.

Definition is_inherited (p : Property) : bool :=
  match p with inherited => true | _ => false end.

(** The variable [rawScore]: a number, or, once [+=] has met a function, a
    string that holds the text of the function and so reads as no
    number. *)
Inductive RawScore : Type :=
| a_number (q : Q)
| a_string.

(** A number that may be NaN. *)
Inductive Number : Type :=
| finite (q : Q)
| NaN.

Definition plus (x : Number) (y : Q) : Number :=
  match x with finite q => finite (q + y) | NaN => NaN end.

Record ScoreResult : Type := mkScoreResult {
  score : Number;
  reasons : list string
}.

Section WithNumberToString.

Variable Number_toString : Q -> string.

(** One turn of the loop of [getTagScore]. *)
Definition getTagScore_step (weights : gmap string Q)
    (acc : RawScore * list string) (tag : string) : RawScore * list string :=
  let '(rawScore, reasons) := acc in
  match get weights tag with
  | own weight =>
    (match rawScore with
     | a_number q => a_number (q + weight)
     | a_string => a_string
     end,
     if Qlt_le_dec 0 weight then
       reasons ++ ["+" +:+ Number_toString weight +:+ " for '" +:+ tag +:+ "' tag"]
     else if Qlt_le_dec weight 0 then
       reasons ++ [Number_toString weight +:+ " for '" +:+ tag +:+ "' tag"]
     else reasons)
  | inherited =>
    (* a function is neither above nor below 0 *)
    (a_string, reasons)
  | undefined => acc
  end.

(** [getTagScore]. *)
Definition getTagScore (tags : list string) (weights : gmap string Q)
    : ScoreResult :=
  let '(rawScore, reasons) := foldl (getTagScore_step weights) (a_number 0, []) tags in
  match rawScore with
  | a_number rawScore =>
    (* Clamp tag impact to max range *)
    let clampedScore :=
      Math_max (- MAX_TAG_IMPACT) (Math_min MAX_TAG_IMPACT rawScore) in
    {| score := finite clampedScore;
       reasons :=
         if Qeq_bool rawScore clampedScore then reasons
         else reasons ++ ["tag score capped at ±" +:+ Number_toString MAX_TAG_IMPACT] |}
  | a_string =>
    (* the clamped score is NaN, which the string differs from *)
    {| score := NaN;
       reasons := reasons ++ ["tag score capped at ±" +:+ Number_toString MAX_TAG_IMPACT] |}
  end.

(** [normalizeScore] on a number that may be NaN. *)
Definition normalizeScore (raw : Number) : Number :=
  match raw with
  | finite q => finite (Usefulness.normalizeScore q)
  | NaN => NaN
  end.

(** [calculateUsefulness]. *)
Definition calculateUsefulness (card : CardInput)
    (config : option PartialScoringConfig) : ScoreResult :=
  match manualScore card with
  | Some manual =>
    (* Handle manual override *)
    {| score := normalizeScore (finite manual);
       reasons := ["manual score override"] |}
  | None =>
    (* Merge config with defaults *)
    let finalConfig := mergeConfig config in
    let reasons := ["base score: " +:+ Number_toString BASE_SCORE] in
    let totalScore := finite BASE_SCORE in
    (* Add tag contributions *)
    let tagResult := getTagScore (tags card) (tagWeights finalConfig) in
    let totalScore :=
      match score tagResult with
      | finite tagScore => plus totalScore tagScore
      | NaN => NaN
      end in
    let reasons := reasons ++ UsefulnessJS.reasons tagResult in
    (* Add pattern bonus *)
    let patternResult :=
      getPatternScore Number_toString (default false (isPattern card))
        (patternBonus finalConfig) in
    let totalScore := plus totalScore (fst patternResult) in
    let reasons :=
      match snd patternResult with
      | Some reason => reasons ++ [reason]
      | None => reasons
      end in
    (* Add frequency contribution *)
    let frequencyResult := getFrequencyScore (frequencyRank card) in
    let totalScore := plus totalScore (fst frequencyResult) in
    let reasons :=
      match snd frequencyResult with
      | Some reason => reasons ++ [reason]
      | None => reasons
      end in
    {| score := normalizeScore totalScore;
       reasons := reasons |}
  end.

End WithNumberToString.

(** The result of [Usefulness] as a result with a number that may be
    NaN. *)
Definition of_finite (result : Usefulness.ScoreResult) : ScoreResult :=
  {| score := finite (Usefulness.score result);
     reasons := Usefulness.reasons result |}.

(** A whole number between two bounds. *)
Definition whole_between (lo hi : Z) (x : Number) : Prop :=
  exists (q : Q) (z : Z), x = finite q /\ q == inject_Z z /\ (lo <= z <= hi)%Z.

(** A number that is not NaN and has the value [v]. *)
Definition has_value (x : Number) (v : Q) : Prop :=
  exists q : Q, x = finite q /\ q == v.

End UsefulnessJS.

(** * Properties *)

Module SchedulerFacts.
Import JS.
Local Open Scope Q_scope.

(** *** Numbers *)

Lemma Math_round_is_integer (x : Q) : is_integer (Math_round x).
Proof. unfold Math_round. now exists (Qfloor (x + (1 # 2))). Qed.

Lemma Math_round_nonneg (x : Q) : 0 <= x -> 0 <= Math_round x.
Proof.
  intros Hx. unfold Math_round.
  change 0 with (inject_Z 0). rewrite <- Zle_Qle.
  change 0%Z with (Qfloor 0). apply Qfloor_resp_le. lra.
Qed.

Lemma Math_max_is_integer (x y : Q) :
  is_integer x -> is_integer y -> is_integer (Math_max x y).
Proof.
  intros [zx Hx] [zy Hy]. unfold Math_max.
  destruct (Q.max_spec x y) as [[_ E] | [_ E]];
    [exists zy | exists zx]; now rewrite E.
Qed.

Lemma Math_min_is_integer (x y : Q) :
  is_integer x -> is_integer y -> is_integer (Math_min x y).
Proof.
  intros [zx Hx] [zy Hy]. unfold Math_min.
  destruct (Q.min_spec x y) as [[_ E] | [_ E]];
    [exists zx | exists zy]; now rewrite E.
Qed.

Lemma inject_Z_is_integer (z : Z) : is_integer (inject_Z z).
Proof. now exists z. Qed.

(** *** The library scheduler on the assertions of its test suite *)

Example sm2_again_example :
  Sm2.interval_after (Sm2.mkCardState 2.5 15 5%Z 0%Z) Again == 1 / (24 * 60).
Proof. reflexivity. Qed.

Example sm2_next_review_date :
  Sm2.nextReviewDate
    (Sm2.calculateNextReview 0%Z (Sm2.mkCardState 2.5 0 0%Z 1735732800000%Z)
       Good (Some 1735732800000%Z))
  = 1735819200000%Z.
Proof. reflexivity. Qed.

Example sm2_again_due_in_one_minute :
  Sm2.nextReviewDate
    (Sm2.calculateNextReview 1735732800000%Z (Sm2.mkCardState 2.5 15 5%Z 0%Z)
       Again None)
  = (1735732800000 + 60000)%Z.
Proof. reflexivity. Qed.

(** The full review lifecycle of the test suite: Good, Good, Good, Easy,
    Hard, Again from the initial state. *)
Example sm2_lifecycle :
  let after ratings := Sm2.review_all 0%Z (Sm2.getInitialState 0%Z) ratings in
  (Sm2.intervalDays (after [Good]) == 1
   /\ Sm2.repetitions (after [Good]) = 1%Z)
  /\ (Sm2.intervalDays (after [Good; Good]) == 6
      /\ Sm2.repetitions (after [Good; Good]) = 2%Z)
  /\ (Sm2.intervalDays (after [Good; Good; Good]) == 15
      /\ Sm2.easeFactor (after [Good; Good; Good]) == 2.5)
  /\ (Sm2.intervalDays (after [Good; Good; Good; Easy]) == 48.75
      /\ Sm2.easeFactor (after [Good; Good; Good; Easy]) == 2.65)
  /\ (Sm2.intervalDays (after [Good; Good; Good; Easy; Hard]) == 58.5
      /\ Sm2.easeFactor (after [Good; Good; Good; Easy; Hard]) == 2.5)
  /\ (Sm2.intervalDays (after [Good; Good; Good; Easy; Hard; Again]) == 1 / (24 * 60)
      /\ Sm2.repetitions (after [Good; Good; Good; Easy; Hard; Again]) = 0%Z
      /\ Sm2.easeFactor (after [Good; Good; Good; Easy; Hard; Again]) == 2.3).
Proof. cbn zeta. repeat split. Qed.

(** *** The scheduler of the review route *)

(** What the route stores stays within the validation rules of the
    schema: interval and repetitions at least 0, ease factor at least
    1.3. *)
Lemma calculateSM2_preserves_validation
    (rating : Rating) (easeFactor0 intervalDays0 : Q) (repetitions0 : Z) :
  1.3 <= easeFactor0 -> 0 <= intervalDays0 -> (0 <= repetitions0)%Z ->
  let result := ReviewRoute.calculateSM2 rating easeFactor0 intervalDays0 repetitions0 in
  1.3 <= ReviewRoute.easeFactor result
  /\ 0 <= ReviewRoute.intervalDays result
  /\ (0 <= ReviewRoute.repetitions result)%Z.
Proof.
  intros He Hi Hr. cbn zeta.
  assert (H1 : 0 <= intervalDays0 * 1.2) by lra.
  assert (H2 : 0 <= intervalDays0 * easeFactor0) by nra.
  assert (H3 : 0 <= intervalDays0 * easeFactor0 * 1.3) by nra.
  apply Math_round_nonneg in H1, H2, H3.
  destruct rating; cbn [ReviewRoute.calculateSM2 ReviewRoute.easeFactor
                        ReviewRoute.intervalDays ReviewRoute.repetitions];
    (split; [| split]);
    try lia; try lra; try apply Q.le_max_l;
    try (unfold Math_max; eapply Qle_trans; [| apply Q.le_max_r]; exact H1);
    destruct (repetitions0 + 1 =? 1)%Z; try lra;
    destruct (repetitions0 + 1 =? 2)%Z; try lra; assumption.
Qed.

(** *** Claims on the scheduler

    The repository holds two schedulers: [calculateNextReview] of the
    library [lib/srs/sm2.ts], with its test suite, and [calculateSM2], the
    copy inlined in the review route, which is what [POST] runs.  A claim on
    the scheduler is stated for both. *)

Lemma Math_round_compat (x y : Q) : x == y -> Math_round x = Math_round y.
Proof. intros H. unfold Math_round. now rewrite H. Qed.

(** C1, as amended.  On Again, whatever the prior state, the library
    scheduler returns repetitions 0 and an interval of exactly 1/1440 of a
    day; the scheduler of the review route returns repetitions 0 and
    interval 0. *)
Theorem again_resets_to_one_minute :
  forall (clock : Date) (state : Sm2.CardState) (reviewedAt : option Date),
    let next := Sm2.newState (Sm2.calculateNextReview clock state Again reviewedAt) in
    let result :=
      ReviewRoute.calculateSM2 Again (Sm2.easeFactor state)
        (Sm2.intervalDays state) (Sm2.repetitions state) in
    (Sm2.repetitions next = 0%Z /\ Sm2.intervalDays next == 1 # 1440)
    /\ (ReviewRoute.repetitions result = 0%Z
        /\ ReviewRoute.intervalDays result == 0).
Proof. intros clock state reviewedAt. cbn. repeat split. Qed.

(** C1 as stated fails in the review route: the interval returned on
    Again is 0, not 1/1440. *)
Lemma calculateSM2_again_interval :
  ReviewRoute.repetitions (ReviewRoute.calculateSM2 Again 2.5 15 5%Z) = 0%Z
  /\ ReviewRoute.intervalDays (ReviewRoute.calculateSM2 Again 2.5 15 5%Z) == 0
  /\ ~ ReviewRoute.intervalDays (ReviewRoute.calculateSM2 Again 2.5 15 5%Z) == 1 # 1440.
Proof. repeat split. discriminate. Qed.

(** C2, as amended.  In the library scheduler a first successful review
    (repetitions 0) gives interval 1 for Good and Hard and 4 for Easy, and
    a second one (repetitions 1) gives 6 for Good.  In the review route
    Good gives 1 then 6 and Easy gives 4 then 10, and Hard always gives the
    stored interval times 1.2, rounded, and at least 1: 1 for a new card.
    Nothing is said of the library's second Hard and Easy, the products of
    6 with 1.2 and 1.3, which binary floating point does not make 7.2 and
    7.8. *)
Theorem first_and_second_review_intervals :
  forall (clock : Date) (state : Sm2.CardState) (reviewedAt : option Date),
    let lib rating :=
      Sm2.intervalDays
        (Sm2.newState (Sm2.calculateNextReview clock state rating reviewedAt)) in
    let route rating :=
      ReviewRoute.intervalDays
        (ReviewRoute.calculateSM2 rating (Sm2.easeFactor state)
           (Sm2.intervalDays state) (Sm2.repetitions state)) in
    (Sm2.repetitions state = 0%Z ->
       (lib Good == 1 /\ lib Hard == 1 /\ lib Easy == 4)
       /\ (route Good == 1 /\ route Easy == 4
           /\ (Sm2.intervalDays state == 0 -> route Hard == 1)))
    /\ (Sm2.repetitions state = 1%Z -> Sm2.easeFactor state == 2.5 ->
       lib Good == 6 /\ (route Good == 6 /\ route Easy == 10))
    /\ route Hard == Math_max 1 (Math_round (Sm2.intervalDays state * 1.2)).
Proof.
  intros clock state reviewedAt. cbn zeta.
  unfold Sm2.calculateNextReview, Sm2.calculateNextInterval.
  cbn [Sm2.newState Sm2.intervalDays ReviewRoute.calculateSM2 ReviewRoute.intervalDays].
  split; [| split].
  - intros ->. cbn. repeat split.
    intros H0. now rewrite (Math_round_compat _ (0 * 1.2)) by now rewrite H0.
  - intros -> _. cbn. repeat split.
  - reflexivity.
Qed.

Lemma first_and_second_review_intervals_witness :
  (Sm2.interval_after (Sm2.mkCardState 2.5 0 0%Z 0%Z) Good == 1
   /\ Sm2.interval_after (Sm2.mkCardState 2.5 0 0%Z 0%Z) Hard == 1
   /\ Sm2.interval_after (Sm2.mkCardState 2.5 0 0%Z 0%Z) Easy == 4)
  /\ Sm2.interval_after (Sm2.mkCardState 2.5 1 1%Z 0%Z) Good == 6
  /\ ReviewRoute.intervalDays (ReviewRoute.calculateSM2 Easy 2.5 1 1%Z) == 10.
Proof.
  pose proof (first_and_second_review_intervals 0%Z
                (Sm2.mkCardState 2.5 0 0%Z 0%Z) None) as (H0 & _ & _).
  pose proof (first_and_second_review_intervals 0%Z
                (Sm2.mkCardState 2.5 1 1%Z 0%Z) None) as (_ & H1 & _).
  cbn zeta in H0, H1.
  destruct (H0 eq_refl) as (Hlib0 & _).
  destruct (H1 eq_refl) as (HG & _ & HrouteE); [reflexivity |].
  split; [exact Hlib0 | split; [exact HG | exact HrouteE]].
Defined.

(** C2 as stated fails in the review route: on a second successful review
    of a card with ease 2.5 and interval 1, Hard gives 1 and Easy gives 10,
    not 7.2 and 7.8. *)
Lemma calculateSM2_second_review :
  ReviewRoute.intervalDays (ReviewRoute.calculateSM2 Hard 2.5 1 1%Z) == 1
  /\ ~ ReviewRoute.intervalDays (ReviewRoute.calculateSM2 Hard 2.5 1 1%Z) == 7.2
  /\ ReviewRoute.intervalDays (ReviewRoute.calculateSM2 Easy 2.5 1 1%Z) == 10
  /\ ~ ReviewRoute.intervalDays (ReviewRoute.calculateSM2 Easy 2.5 1 1%Z) == 7.8.
Proof. repeat split; discriminate. Qed.

(** C3, as amended.  For an established card (repetitions at least 2)
    with interval 15 and ease 2.5, the library scheduler returns
    15 x 2.5 = 37.5 for Good, 18 for Hard and 48.75 for Easy; the review
    route returns these rounded to whole days: 38, 18 and 49. *)
Theorem established_card_intervals :
  forall (clock : Date) (state : Sm2.CardState) (reviewedAt : option Date),
    (2 <= Sm2.repetitions state)%Z ->
    Sm2.intervalDays state == 15 ->
    Sm2.easeFactor state == 2.5 ->
    let lib rating :=
      Sm2.intervalDays
        (Sm2.newState (Sm2.calculateNextReview clock state rating reviewedAt)) in
    let route rating :=
      ReviewRoute.intervalDays
        (ReviewRoute.calculateSM2 rating (Sm2.easeFactor state)
           (Sm2.intervalDays state) (Sm2.repetitions state)) in
    (lib Good == 15 * 2.5 /\ lib Good == 37.5 /\ lib Hard == 18 /\ lib Easy == 48.75)
    /\ (route Good == 38 /\ route Hard == 18 /\ route Easy == 49).
Proof.
  intros clock state reviewedAt Hreps Hint Hease. cbn zeta.
  unfold Sm2.calculateNextReview, Sm2.calculateNextInterval.
  cbn [Sm2.newState Sm2.intervalDays ReviewRoute.calculateSM2 ReviewRoute.intervalDays].
  destruct (Z.eqb_spec (Sm2.repetitions state) 0) as [E | _]; [lia |].
  destruct (Z.eqb_spec (Sm2.repetitions state) 1) as [E | _]; [lia |].
  destruct (Z.eqb_spec (Sm2.repetitions state + 1) 1) as [E | _]; [lia |].
  destruct (Z.eqb_spec (Sm2.repetitions state + 1) 2) as [E | _]; [lia |].
  split.
  - rewrite Hint, Hease. repeat split.
  - rewrite (Math_round_compat (Sm2.intervalDays state * Sm2.easeFactor state) (15 * 2.5))
      by now rewrite Hint, Hease.
    rewrite (Math_round_compat (Sm2.intervalDays state * 1.2) (15 * 1.2))
      by now rewrite Hint.
    rewrite (Math_round_compat (Sm2.intervalDays state * Sm2.easeFactor state * 1.3)
               (15 * 2.5 * 1.3))
      by now rewrite Hint, Hease.
    repeat split.
Qed.

Lemma established_card_intervals_witness :
  (Sm2.interval_after (Sm2.mkCardState 2.5 15 3%Z 0%Z) Good == 37.5
   /\ Sm2.interval_after (Sm2.mkCardState 2.5 15 3%Z 0%Z) Hard == 18
   /\ Sm2.interval_after (Sm2.mkCardState 2.5 15 3%Z 0%Z) Easy == 48.75)
  /\ (ReviewRoute.intervalDays (ReviewRoute.calculateSM2 Good 2.5 15 3%Z) == 38
   /\ ReviewRoute.intervalDays (ReviewRoute.calculateSM2 Hard 2.5 15 3%Z) == 18
   /\ ReviewRoute.intervalDays (ReviewRoute.calculateSM2 Easy 2.5 15 3%Z) == 49).
Proof.
  destruct (established_card_intervals 0%Z (Sm2.mkCardState 2.5 15 3%Z 0%Z) None)
    as ((_ & HG & HH & HE) & Hroute).
  - simpl. lia.
  - reflexivity.
  - reflexivity.
  - split; [| exact Hroute]. split; [exact HG | split; [exact HH | exact HE]].
Defined.

(** C3 as stated fails in the review route: Good gives 38 and Easy 49,
    not 37.5 and 48.75. *)
Lemma calculateSM2_established_card :
  ReviewRoute.intervalDays (ReviewRoute.calculateSM2 Good 2.5 15 3%Z) == 38
  /\ ~ ReviewRoute.intervalDays (ReviewRoute.calculateSM2 Good 2.5 15 3%Z) == 37.5
  /\ ReviewRoute.intervalDays (ReviewRoute.calculateSM2 Easy 2.5 15 3%Z) == 49
  /\ ~ ReviewRoute.intervalDays (ReviewRoute.calculateSM2 Easy 2.5 15 3%Z) == 48.75.
Proof. repeat split; discriminate. Qed.

(** C4.  From an ease factor of at least 1.3, every rating leaves the
    ease factor at 1.3 or more, in the library scheduler and in the review
    route alike; there is no ceiling: Easy adds 0.15 to any such ease. *)
Theorem ease_factor_floor :
  forall (clock : Date) (state : Sm2.CardState) (rating : Rating)
         (reviewedAt : option Date),
    1.3 <= Sm2.easeFactor state ->
    let lib rating :=
      Sm2.easeFactor
        (Sm2.newState (Sm2.calculateNextReview clock state rating reviewedAt)) in
    let route rating :=
      ReviewRoute.easeFactor
        (ReviewRoute.calculateSM2 rating (Sm2.easeFactor state)
           (Sm2.intervalDays state) (Sm2.repetitions state)) in
    1.3 <= lib rating /\ 1.3 <= route rating
    /\ lib Easy == Sm2.easeFactor state + 0.15
    /\ route Easy == Sm2.easeFactor state + 0.15.
Proof.
  intros clock state rating reviewedAt Hease. cbn zeta.
  unfold Sm2.calculateNextReview, Sm2.calculateNewEaseFactor, Math_max.
  cbn [Sm2.newState Sm2.easeFactor].
  split; [| split; [| split]].
  - apply Q.le_max_l.
  - destruct rating; cbn [ReviewRoute.calculateSM2 ReviewRoute.easeFactor];
      unfold Math_max; try apply Q.le_max_l; lra.
  - apply Q.max_r. lra.
  - reflexivity.
Qed.

Lemma ease_factor_floor_witness :
  1.3 <= Sm2.easeFactor
           (Sm2.newState (Sm2.calculateNextReview 0%Z
              (Sm2.mkCardState 1.4 10 5%Z 0%Z) Again None))
  /\ 1.3 <= ReviewRoute.easeFactor (ReviewRoute.calculateSM2 Again 1.4 10 5%Z).
Proof.
  pose proof (ease_factor_floor 0%Z (Sm2.mkCardState 1.4 10 5%Z 0%Z) Again None) as H.
  cbn zeta in H. split; apply H; unfold Qle; simpl; lia.
Defined.

(** The ease factors of the test suite: 2.5 becomes 2.3, 2.35, 2.5 and
    2.65, and 1.4 is held at 1.3 on Again. *)
Example calculateNewEaseFactor_tests :
  Sm2.calculateNewEaseFactor 2.5 Again == 2.3
  /\ Sm2.calculateNewEaseFactor 2.5 Hard == 2.35
  /\ Sm2.calculateNewEaseFactor 2.5 Good == 2.5
  /\ Sm2.calculateNewEaseFactor 2.5 Easy == 2.65
  /\ Sm2.calculateNewEaseFactor 1.4 Again == 1.3
  /\ Sm2.calculateNewEaseFactor 1.3 Easy == 1.45.
Proof. repeat split. Qed.

(** C10.  For the scheduler of the review route ([calculateSM2]), every
    stored state (interval and ease factor not negative, as [POST] creates
    them and the scheduler keeps them) and every rating give an interval
    that is a whole number of days and is at least 0; the repetitions
    returned are at least 0 whenever the repetitions given are. *)
Theorem calculateSM2_interval_whole_days :
  forall (rating : Rating) (easeFactor0 intervalDays0 : Q) (repetitions0 : Z),
    0 <= intervalDays0 ->
    0 <= easeFactor0 ->
    let result := ReviewRoute.calculateSM2 rating easeFactor0 intervalDays0 repetitions0 in
    is_integer (ReviewRoute.intervalDays result)
    /\ 0 <= ReviewRoute.intervalDays result
    /\ ((0 <= repetitions0)%Z -> (0 <= ReviewRoute.repetitions result)%Z).
Proof.
  intros rating e i r Hi He. cbn zeta.
  assert (Hprod : 0 <= i * e) by nra.
  destruct rating; cbn [ReviewRoute.calculateSM2 ReviewRoute.intervalDays
                        ReviewRoute.repetitions].
  - repeat split; [apply (inject_Z_is_integer 0) | lra | lia].
  - repeat split.
    + apply Math_max_is_integer; [apply (inject_Z_is_integer 1) | apply Math_round_is_integer].
    + unfold Math_max. pose proof (Q.le_max_l 1 (Math_round (i * 1.2))). lra.
    + lia.
  - repeat split.
    + destruct (r + 1 =? 1)%Z; [apply (inject_Z_is_integer 1) |].
      destruct (r + 1 =? 2)%Z; [apply (inject_Z_is_integer 6) |].
      apply Math_round_is_integer.
    + destruct (r + 1 =? 1)%Z; [lra |].
      destruct (r + 1 =? 2)%Z; [lra |].
      now apply Math_round_nonneg.
    + lia.
  - repeat split.
    + destruct (r + 1 =? 1)%Z; [apply (inject_Z_is_integer 4) |].
      destruct (r + 1 =? 2)%Z; [apply (inject_Z_is_integer 10) |].
      apply Math_round_is_integer.
    + destruct (r + 1 =? 1)%Z; [lra |].
      destruct (r + 1 =? 2)%Z; [lra |].
      apply Math_round_nonneg. nra.
    + lia.
Qed.

Lemma calculateSM2_interval_whole_days_witness :
  is_integer (ReviewRoute.intervalDays (ReviewRoute.calculateSM2 Easy 2.5 15 3%Z))
  /\ 0 <= ReviewRoute.intervalDays (ReviewRoute.calculateSM2 Easy 2.5 15 3%Z)
  /\ (0 <= ReviewRoute.repetitions (ReviewRoute.calculateSM2 Easy 2.5 15 3%Z))%Z.
Proof.
  pose proof (calculateSM2_interval_whole_days Easy 2.5 15 3%Z) as H.
  cbn zeta in H.
  destruct H as (Hint & Hpos & Hreps).
  - unfold Qle; simpl; lia.
  - unfold Qle; simpl; lia.
  - repeat split; [exact Hint | exact Hpos | apply Hreps; lia].
Defined.

End SchedulerFacts.

Module FuzzyFacts.
Import Fuzzy.

(** *** The matcher on the assertions of its test suite *)

Example levenshteinDistance_tests :
  levenshteinDistance (js "안녕") (js "안녕") = 0
  /\ levenshteinDistance (js "안녕") (js "안녕요") = 1
  /\ levenshteinDistance (js "안녕하세요") (js "안녕하세") = 1
  /\ levenshteinDistance (js "감사") (js "감자") = 1
  /\ levenshteinDistance (js "kitten") (js "sitting") = 3.
Proof. repeat split. Qed.

Example calculateSimilarity_tests :
  calculateSimilarity (js "안녕하세요") (js "안녕하세요") == 1
  /\ calculateSimilarity [] (js "안녕") == 0
  /\ calculateSimilarity (js "안녕") [] == 0
  /\ calculateSimilarity (js "감사합니다") (js "감사함니다") == 0.8.
Proof. repeat split. Qed.

(** *** The matrix of [levenshteinDistance] *)

Lemma foldl_seq_invariant {S : Type} (f : S -> nat -> S) (I : nat -> S -> Prop)
    (len start : nat) (s : S) :
  I start s ->
  (forall k s, start <= k < start + len -> I k s -> I (Datatypes.S k) (f s k)) ->
  I (start + len) (foldl f s (seq start len)).
Proof.
  revert start s. induction len as [| len IH]; intros start s H0 Hstep.
  - now rewrite Nat.add_0_r.
  - cbn [seq foldl]. replace (start + Datatypes.S len) with (Datatypes.S start + len) by lia.
    apply IH.
    + apply Hstep; [lia | exact H0].
    + intros k s' Hk. apply Hstep. lia.
Qed.

Lemma init_rows_spec (b : jsstring) :
  init_rows b = map (fun i => [i]) (seq 0 (S (length b))).
Proof.
  unfold init_rows.
  apply (foldl_seq_invariant (fun matrix i => array_set matrix i [i])
           (fun k m => m = map (fun i => [i]) (seq 0 k)) (S (length b)) 0 []).
  - reflexivity.
  - intros k m _ ->. unfold array_set.
    rewrite length_map, length_seq, Nat.ltb_irrefl.
    now rewrite seq_S, map_app.
Qed.

Lemma set_cell_middle (done pending : list (list nat)) (cur : list nat) (j v : nat) :
  set_cell (done ++ cur :: pending) (length done) j v
  = done ++ array_set cur j v :: pending.
Proof.
  unfold set_cell. rewrite nth_middle.
  rewrite insert_app_r_alt by lia. now rewrite Nat.sub_diag.
Qed.

Lemma cell_middle (done pending : list (list nat)) (cur : list nat) (j : nat) :
  cell (done ++ cur :: pending) (length done) j = nth j cur 0.
Proof. unfold cell. now rewrite nth_middle. Qed.

Lemma init_first_row_spec (a : jsstring) (pending : list (list nat)) :
  init_first_row a ([0] :: pending) = seq 0 (S (length a)) :: pending.
Proof.
  unfold init_first_row. cbn [seq foldl].
  change (set_cell ([0] :: pending) 0 0 0) with ([0] :: pending).
  apply (foldl_seq_invariant (fun matrix j => set_cell matrix 0 j j)
           (fun k m => m = seq 0 k :: pending) (length a) 1 ([0] :: pending)).
  - reflexivity.
  - intros k m _ ->.
    etrans; [exact (set_cell_middle [] pending (seq 0 k) k k) |].
    cbn [app]. unfold array_set. rewrite length_seq, Nat.ltb_irrefl.
    now rewrite seq_S.
Qed.

Lemma row_ok_first (a b : jsstring) : row_ok a b 0 (seq 0 (S (length a))) (S (length a)).
Proof.
  split; [apply length_seq |].
  intros j Hj. rewrite seq_nth by lia. cbn [Nat.add].
  split; [lia |]. now intros ->.
Qed.

Lemma row_ok_start (a b : jsstring) (i : nat) : 1 <= i -> row_ok a b i [i] 1.
Proof.
  intros Hi. split; [reflexivity |].
  intros j Hj. replace j with 0 by lia. cbn [nth].
  split; lia.
Qed.

Lemma next_cell_ok (a b : jsstring) (i j d l u : nat) :
  1 <= i <= length b -> 1 <= j <= length a ->
  cell_ok a b (i - 1) (j - 1) d ->
  cell_ok a b i j
    (if bool_decide (b !! (i - 1) = a !! (j - 1)) then d
     else min3 (d + 1) (l + 1) (u + 1)).
Proof.
  intros Hi Hj [Hle Hzero]. case_bool_decide as Hchar.
  - split; [lia |]. intros Hd.
    destruct (lookup_lt_is_Some_2 b (i - 1)) as [x Hx]; [lia |].
    destruct (lookup_lt_is_Some_2 a (j - 1)) as [y Hy]; [lia |].
    replace i with (S (i - 1)) by lia. replace j with (S (j - 1)) by lia.
    rewrite (take_S_r b (i - 1) x Hx), (take_S_r a (j - 1) y Hy).
    rewrite (Hzero Hd). congruence.
  - unfold min3. split; lia.
Qed.

Lemma fill_row_spec (a b : jsstring) (done pending : list (list nat)) (prev : list nat) :
  S (length done) <= length b ->
  row_ok a b (length done) prev (S (length a)) ->
  exists cur,
    fill_row a b (done ++ prev :: [S (length done)] :: pending) (S (length done))
    = done ++ prev :: cur :: pending
    /\ row_ok a b (S (length done)) cur (S (length a)).
Proof.
  intros Hi Hprev. unfold fill_row.
  set (i := S (length done)) in *.
  apply (foldl_seq_invariant
           (fun matrix j => set_cell matrix i j (next_cell a b matrix i j))
           (fun k m => exists cur, m = done ++ prev :: cur :: pending
                                   /\ row_ok a b i cur k)
           (length a) 1).
  - exists [i]. split; [reflexivity |]. apply row_ok_start. lia.
  - intros k m Hk (cur & -> & Hlen & Hcur).
    assert (Hi' : length (done ++ [prev]) = i) by (rewrite length_app; simpl; lia).
    assert (Hshape : done ++ prev :: cur :: pending
                     = (done ++ [prev]) ++ cur :: pending)
      by now rewrite <- app_assoc.
    exists (cur ++ [next_cell a b (done ++ prev :: cur :: pending) i k]).
    split.
    + rewrite Hshape at 1. rewrite <- Hi' at 1.
      rewrite set_cell_middle. unfold array_set.
      rewrite Hlen, Nat.ltb_irrefl. now rewrite <- app_assoc.
    + split; [rewrite length_app; simpl; lia |].
      intros j Hj. destruct (decide (j = k)) as [-> | Hne].
      * rewrite app_nth2 by lia. rewrite Hlen, Nat.sub_diag. cbn [nth].
        unfold next_cell.
        replace (cell (done ++ prev :: cur :: pending) (i - 1) (k - 1))
          with (nth (k - 1) prev 0).
        2:{ replace (i - 1) with (length done) by lia. now rewrite cell_middle. }
        apply next_cell_ok; [lia | lia |].
        replace (i - 1) with (length done) by lia.
        apply Hprev. lia.
      * rewrite app_nth1 by lia. apply Hcur. lia.
Qed.

Lemma levenshteinMatrix_spec (a b : jsstring) :
  exists done last,
    levenshteinMatrix a b = done ++ [last]
    /\ length done = length b
    /\ row_ok a b (length b) last (S (length a)).
Proof.
  unfold levenshteinMatrix, fill.
  rewrite init_rows_spec. cbn [seq map]. rewrite init_first_row_spec.
  pose proof (foldl_seq_invariant (fill_row a b)
    (fun k m => exists done prev,
       m = done ++ prev :: map (fun i => [i]) (seq k (S (length b) - k))
       /\ S (length done) = k
       /\ row_ok a b (length done) prev (S (length a)))
    (length b) 1) as H.
  destruct (H (seq 0 (S (length a)) :: map (fun i => [i]) (seq 1 (length b))))
    as (done & last & Hm & Hlen & Hrow).
  - exists [], (seq 0 (S (length a))). split; [| split].
    + cbn [app]. do 3 f_equal. lia.
    + reflexivity.
    + apply row_ok_first.
  - intros k m Hk (done & prev & -> & Hlen & Hprev).
    replace (S (length b) - k) with (S (length b - k)) by lia.
    cbn [seq map]. rewrite <- Hlen.
    destruct (fill_row_spec a b done
                (map (fun i => [i]) (seq (S (S (length done))) (length b - S (length done))))
                prev) as (cur & Hfill & Hcur); [lia | exact Hprev |].
    exists (done ++ [prev]), cur. split; [| split].
    + replace (length b - k) with (length b - S (length done)) by lia.
      rewrite Hfill. rewrite <- app_assoc. reflexivity.
    + rewrite length_app. simpl. lia.
    + replace (length (done ++ [prev])) with (S (length done))
        by (rewrite length_app; simpl; lia).
      exact Hcur.
  - exists done, last. split; [| split].
    + rewrite Hm. replace (S (length b) - (1 + length b)) with 0 by lia.
      reflexivity.
    + lia.
    + replace (length b) with (length done) by lia. exact Hrow.
Qed.

(** The distance is at most the longer length, and is 0 only between
    equal strings. *)
Lemma levenshteinDistance_bounds (a b : jsstring) :
  levenshteinDistance a b <= Nat.max (length a) (length b)
  /\ (levenshteinDistance a b = 0 -> a = b).
Proof.
  destruct (levenshteinMatrix_spec a b) as (done & last & Hm & Hlen & _ & Hrow).
  unfold levenshteinDistance. rewrite Hm.
  replace (cell (done ++ [last]) (length b) (length a))
    with (nth (length a) last 0)
    by (rewrite <- Hlen; now rewrite cell_middle).
  destruct (Hrow (length a)) as [Hle Hzero]; [lia |].
  split; [lia |].
  intros Hd. specialize (Hzero Hd).
  rewrite !take_ge in Hzero by lia. now symmetry.
Qed.

Example levenshteinDistance_empty :
  levenshteinDistance [] (js "안녕") = 2 /\ levenshteinDistance (js "안녕") [] = 2
  /\ levenshteinDistance [] [] = 0.
Proof. repeat split. Qed.

(** *** Similarity *)

Lemma similarity_ratio (d m : nat) :
  1 <= d <= m ->
  (0 <= 1 - inject_Z (Z.of_nat d) / inject_Z (Z.of_nat m) < 1)%Q.
Proof.
  intros Hdm.
  assert (HM : (0 < inject_Z (Z.of_nat m))%Q).
  { change 0%Q with (inject_Z 0). rewrite <- Zlt_Qlt. lia. }
  assert (HD : (0 < inject_Z (Z.of_nat d))%Q).
  { change 0%Q with (inject_Z 0). rewrite <- Zlt_Qlt. lia. }
  assert (HDM : (inject_Z (Z.of_nat d) <= inject_Z (Z.of_nat m))%Q).
  { rewrite <- Zle_Qle. lia. }
  assert (Hle : (inject_Z (Z.of_nat d) / inject_Z (Z.of_nat m) <= 1)%Q).
  { apply Qle_shift_div_r; [exact HM | lra]. }
  assert (Hlt : (0 < inject_Z (Z.of_nat d) / inject_Z (Z.of_nat m))%Q).
  { apply Qlt_shift_div_l; [exact HM | lra]. }
  split; lra.
Qed.

(** C8.  The similarity of two strings (normalized or not) is 0 when
    exactly one of them is empty, is 1 only when they are equal, and
    always lies between 0 and 1. *)
Theorem calculateSimilarity_range :
  forall a b : jsstring,
    ((a = [] /\ b <> []) \/ (a <> [] /\ b = []) -> calculateSimilarity a b == 0)
    /\ (calculateSimilarity a b == 1 -> a = b)
    /\ (0 <= calculateSimilarity a b <= 1)%Q.
Proof.
  intros a b. unfold calculateSimilarity.
  case_bool_decide as Hab.
  - subst b. split; [| split].
    + intros [[-> H] | [H ->]]; now destruct H.
    + reflexivity.
    + split; [discriminate | apply Qle_refl].
  - destruct ((length a =? 0) || (length b =? 0)) eqn:Hempty.
    + split; [| split].
      * reflexivity.
      * intros H. discriminate H.
      * split; [apply Qle_refl | discriminate].
    + apply orb_false_iff in Hempty as [Ha Hb].
      apply Nat.eqb_neq in Ha, Hb.
      destruct (levenshteinDistance_bounds a b) as [Hle Hzero].
      assert (Hd : 1 <= levenshteinDistance a b <= Nat.max (length a) (length b)).
      { split; [| exact Hle].
        destruct (levenshteinDistance a b); [now destruct Hab; apply Hzero | lia]. }
      pose proof (similarity_ratio _ _ Hd) as [Hlo Hhi].
      split; [| split].
      * intros [[-> _] | [_ ->]]; [now destruct Ha | now destruct Hb].
      * intros H. rewrite H in Hhi. now apply Qlt_irrefl in Hhi.
      * split; [exact Hlo | now apply Qlt_le_weak].
Qed.

Lemma calculateSimilarity_range_witness :
  calculateSimilarity [] (js "안녕") == 0
  /\ js "감사" = js "감사"
  /\ (0 <= calculateSimilarity (js "감사") (js "감자") <= 1)%Q.
Proof.
  split; [| split].
  - apply (calculateSimilarity_range [] (js "안녕")). left. split; [reflexivity | discriminate].
  - apply (calculateSimilarity_range (js "감사") (js "감사")). reflexivity.
  - apply (calculateSimilarity_range (js "감사") (js "감자")).
Defined.

(** *** Matching *)

(** C7.  Matching a string against itself gives similarity 1, a match,
    and no differences; the empty string included. *)
Theorem fuzzyMatch_same_string :
  forall (toLowerCase : jsstring -> jsstring) (x : jsstring),
    similarity (fuzzyMatch toLowerCase x x) == 1
    /\ isMatch (fuzzyMatch toLowerCase x x) = true
    /\ differences (fuzzyMatch toLowerCase x x) = [].
Proof.
  intros toLowerCase x. unfold fuzzyMatch.
  rewrite bool_decide_true by reflexivity. cbn.
  repeat split.
Qed.

Example fuzzyMatch_empty_string :
  fuzzyMatch toLowerCaseASCII [] []
  = mkMatchResult true 1 [] [] [].
Proof. reflexivity. Qed.

Example fuzzyMatch_whitespace :
  similarity (fuzzyMatch toLowerCaseASCII (js "안녕하세요") (js "안녕 하세요")) == 1.
Proof. reflexivity. Qed.

(** *** Normalization *)

Lemma removeAll_removes (matches : char -> bool) (text : jsstring) :
  Forall (fun c => matches c = false) (removeAll matches text).
Proof.
  unfold removeAll. induction text as [| c text IH]; cbn [List.filter].
  - constructor.
  - destruct (matches c) eqn:Hc; cbn [negb]; [exact IH | now constructor].
Qed.

Lemma removeAll_keeps (P : char -> Prop) (matches : char -> bool) (text : jsstring) :
  Forall P text -> Forall P (removeAll matches text).
Proof.
  unfold removeAll. induction 1 as [| c text Hc _ IH]; cbn [List.filter].
  - constructor.
  - destruct (matches c); cbn [negb]; [exact IH | now constructor].
Qed.

Lemma removeAll_nothing (matches : char -> bool) (text : jsstring) :
  Forall (fun c => matches c = false) text -> removeAll matches text = text.
Proof.
  unfold removeAll. induction 1 as [| c text Hc _ IH]; cbn [List.filter].
  - reflexivity.
  - rewrite Hc. cbn [negb]. now rewrite IH.
Qed.

Lemma stripped_false (c : char) :
  stripped c = false
  <-> isWhiteSpace c = false /\ inClass punctuation c = false
      /\ inClass asciiPunctuation c = false.
Proof. unfold stripped. rewrite !orb_false_iff. tauto. Qed.

Lemma clean_parts (text : jsstring) :
  clean text
  <-> Forall (fun c => isWhiteSpace c = false) text
      /\ Forall (fun c => inClass punctuation c = false) text
      /\ Forall (fun c => inClass asciiPunctuation c = false) text.
Proof.
  unfold clean. rewrite !Forall_forall. setoid_rewrite stripped_false.
  split.
  - intros H. repeat split; intros c Hc; now apply H.
  - intros (H1 & H2 & H3) c Hc. auto.
Qed.

Lemma strip_clean (text : jsstring) :
  clean (removeAll (inClass asciiPunctuation)
           (removeAll (inClass punctuation) (removeAll isWhiteSpace text))).
Proof.
  apply clean_parts. split; [| split].
  - do 2 apply removeAll_keeps. apply removeAll_removes.
  - apply removeAll_keeps. apply removeAll_removes.
  - apply removeAll_removes.
Qed.

Lemma strip_nothing (text : jsstring) :
  clean text ->
  removeAll (inClass asciiPunctuation)
    (removeAll (inClass punctuation) (removeAll isWhiteSpace text)) = text.
Proof.
  intros (H1 & H2 & H3)%clean_parts.
  rewrite (removeAll_nothing isWhiteSpace text H1).
  rewrite (removeAll_nothing (inClass punctuation) text H2).
  exact (removeAll_nothing (inClass asciiPunctuation) text H3).
Qed.

Lemma trimStart_nothing (text : jsstring) :
  Forall (fun c => isWhiteSpace c = false) text -> trimStart text = text.
Proof. destruct 1 as [| c text Hc _]; cbn [trimStart]; [| rewrite Hc]; reflexivity. Qed.

Lemma trim_nothing (text : jsstring) :
  Forall (fun c => isWhiteSpace c = false) text -> trim text = text.
Proof.
  intros H. unfold trim, trimEnd.
  rewrite (trimStart_nothing text H).
  rewrite trimStart_nothing by now apply Forall_rev.
  apply rev_involutive.
Qed.

Section NormalizeKorean.

Variable toLowerCase : jsstring -> jsstring.

(** Lower-casing a lower-cased string changes nothing. *)
Hypothesis toLowerCase_idempotent :
  forall text, toLowerCase (toLowerCase text) = toLowerCase text.

(** Lower-casing does not produce whitespace or punctuation out of
    other characters. *)
Hypothesis toLowerCase_clean :
  forall text, clean text -> clean (toLowerCase text).

Lemma normalizeKorean_unfold (text : jsstring) :
  normalizeKorean toLowerCase text
  = toLowerCase
      (removeAll (inClass asciiPunctuation)
        (removeAll (inClass punctuation) (removeAll isWhiteSpace text))).
Proof.
  unfold normalizeKorean. apply trim_nothing.
  apply clean_parts, toLowerCase_clean, strip_clean.
Qed.

(** C9.  Normalization is idempotent; its result holds no whitespace
    and none of the punctuation of the two classes, and is unchanged by
    lower-casing. *)
Theorem normalizeKorean_idempotent :
  forall x : jsstring,
    normalizeKorean toLowerCase (normalizeKorean toLowerCase x)
    = normalizeKorean toLowerCase x
    /\ clean (normalizeKorean toLowerCase x)
    /\ toLowerCase (normalizeKorean toLowerCase x) = normalizeKorean toLowerCase x.
Proof.
  intros x.
  assert (Hclean : clean (normalizeKorean toLowerCase x)).
  { rewrite normalizeKorean_unfold. apply toLowerCase_clean, strip_clean. }
  assert (Hlower : toLowerCase (normalizeKorean toLowerCase x)
                   = normalizeKorean toLowerCase x).
  { rewrite normalizeKorean_unfold. apply toLowerCase_idempotent. }
  split; [| split]; [| exact Hclean | exact Hlower].
  rewrite (normalizeKorean_unfold (normalizeKorean toLowerCase x)).
  rewrite (strip_nothing _ Hclean). exact Hlower.
Qed.

End NormalizeKorean.

Lemma toLowerCaseASCII_unit_idempotent (c : char) :
  toLowerCaseASCII_unit (toLowerCaseASCII_unit c) = toLowerCaseASCII_unit c.
Proof.
  destruct ((0x41 <=? c) && (c <=? 0x5A))%N eqn:E.
  - assert (Hc : toLowerCaseASCII_unit c = (c + 0x20)%N)
      by (unfold toLowerCaseASCII_unit; now rewrite E).
    rewrite Hc. unfold toLowerCaseASCII_unit.
    apply andb_true_iff in E as [E1%N.leb_le E2%N.leb_le].
    destruct (N.leb_spec 0x41 (c + 0x20)), (N.leb_spec (c + 0x20) 0x5A);
      cbn [andb]; try reflexivity; lia.
  - assert (Hc : toLowerCaseASCII_unit c = c)
      by (unfold toLowerCaseASCII_unit; now rewrite E).
    now rewrite !Hc.
Qed.

Lemma lower_case_letter_not_stripped (n : nat) :
  n < 26 -> stripped (N.of_nat n + 0x61)%N = false.
Proof. intros Hn. do 26 (destruct n as [| n]; [reflexivity |]). lia. Qed.

Lemma toLowerCaseASCII_unit_clean (c : char) :
  stripped c = false -> stripped (toLowerCaseASCII_unit c) = false.
Proof.
  intros Hc. unfold toLowerCaseASCII_unit.
  destruct (N.leb_spec 0x41 c), (N.leb_spec c 0x5A); cbn [andb]; try exact Hc.
  replace (c + 32)%N with (N.of_nat (N.to_nat (c - 0x41)) + 0x61)%N by lia.
  apply lower_case_letter_not_stripped. lia.
Qed.

Lemma toLowerCaseASCII_idempotent (text : jsstring) :
  toLowerCaseASCII (toLowerCaseASCII text) = toLowerCaseASCII text.
Proof.
  unfold toLowerCaseASCII. rewrite map_map. apply map_ext.
  apply toLowerCaseASCII_unit_idempotent.
Qed.

Lemma toLowerCaseASCII_clean (text : jsstring) :
  clean text -> clean (toLowerCaseASCII text).
Proof.
  unfold clean, toLowerCaseASCII. intros H. apply Forall_map.
  eapply Forall_impl; [exact H |]. apply toLowerCaseASCII_unit_clean.
Qed.

Lemma normalizeKorean_idempotent_witness :
  normalizeKorean toLowerCaseASCII
    (normalizeKorean toLowerCaseASCII (js "Hello, 안녕 하세요!"))
  = normalizeKorean toLowerCaseASCII (js "Hello, 안녕 하세요!").
Proof.
  apply (normalizeKorean_idempotent toLowerCaseASCII
           toLowerCaseASCII_idempotent toLowerCaseASCII_clean).
Defined.

(** Symbols outside the two classes stay: an emoji (a surrogate pair) and
    the em dash U+2014 are kept, where [match.test.ts] expects them gone. *)
Example normalizeKorean_keeps_other_symbols :
  normalizeKorean toLowerCaseASCII (js "안녕😀!") = js "안녕😀"
  /\ normalizeKorean toLowerCaseASCII (js "안녕—(테스트)") = js "안녕—테스트".
Proof. split; reflexivity. Qed.

Example normalizeKorean_tests :
  normalizeKorean toLowerCaseASCII (js "안녕 하세요") = js "안녕하세요"
  /\ normalizeKorean toLowerCaseASCII (js "네, 맞아요.") = js "네맞아요"
  /\ normalizeKorean toLowerCaseASCII (js "「안녕」") = js "안녕"
  /\ normalizeKorean toLowerCaseASCII (js "Hello안녕") = js "hello안녕"
  /\ normalizeKorean toLowerCaseASCII [] = [].
Proof. repeat split. Qed.

(** *** The loop of [findDifferences] runs to its end *)

Lemma findDifferences_step_progress (expected0 actual0 : jsstring)
    (i j : nat) (ds : list Difference) :
  i < length expected0 \/ j < length actual0 ->
  i <= length expected0 -> j <= length actual0 ->
  let '(i', j', _) := findDifferences_step expected0 actual0 i j ds in
  i' <= length expected0 /\ j' <= length actual0 /\ i + j < i' + j'.
Proof.
  intros Hcond Hi Hj. unfold findDifferences_step.
  destruct (expected0 !! i) as [e |] eqn:He.
  - apply lookup_lt_Some in He.
    destruct (actual0 !! j) as [c |] eqn:Hc.
    + apply lookup_lt_Some in Hc.
      destruct (N.eqb e c); [lia |].
      case_bool_decide; [lia |]. case_bool_decide; lia.
    + lia.
  - apply lookup_ge_None in He. lia.
Qed.

Lemma findDifferences_loop_fuel (expected0 actual0 : jsstring) (maxLen : nat) :
  forall (fuel1 fuel2 i j : nat) (ds : list Difference),
    i <= length expected0 -> j <= length actual0 ->
    (length expected0 - i) + (length actual0 - j) <= fuel1 ->
    (length expected0 - i) + (length actual0 - j) <= fuel2 ->
    findDifferences_loop fuel1 expected0 actual0 maxLen i j ds
    = findDifferences_loop fuel2 expected0 actual0 maxLen i j ds.
Proof.
  induction fuel1 as [| fuel1 IH]; intros fuel2 i j ds Hi Hj H1 H2.
  - destruct fuel2 as [| fuel2]; cbn [findDifferences_loop]; [reflexivity |].
    replace (i <? length expected0) with false by (symmetry; apply Nat.ltb_ge; lia).
    replace (j <? length actual0) with false by (symmetry; apply Nat.ltb_ge; lia).
    reflexivity.
  - cbn [findDifferences_loop].
    destruct ((i <? length expected0) || (j <? length actual0)) eqn:Hcond.
    + assert (Hlt : i < length expected0 \/ j < length actual0).
      { apply orb_true_iff in Hcond as [H%Nat.ltb_lt | H%Nat.ltb_lt]; auto. }
      destruct fuel2 as [| fuel2]; [lia |].
      cbn [findDifferences_loop]. rewrite Hcond.
      pose proof (findDifferences_step_progress expected0 actual0 i j ds Hlt Hi Hj) as Hp.
      destruct (findDifferences_step expected0 actual0 i j ds) as [[i' j'] ds'].
      destruct (maxLen * 2 <? length ds'); [reflexivity |].
      apply IH; lia.
    + destruct fuel2 as [| fuel2]; cbn [findDifferences_loop];
        [reflexivity | now rewrite Hcond].
Qed.

(** More turns than [findDifferences] allows for change nothing: the
    loop has left by itself. *)
Lemma findDifferences_fuel_enough (expected0 actual0 : jsstring) (extra : nat) :
  findDifferences_loop (length expected0 + length actual0 + extra)
    expected0 actual0 (Nat.max (length expected0) (length actual0)) 0 0 []
  = findDifferences expected0 actual0.
Proof. unfold findDifferences. apply findDifferences_loop_fuel; lia. Qed.

Example findDifferences_tests :
  findDifferences (js "안녕") (js "안녕") = []
  /\ findDifferences (js "안녕") (js "안녕요")
     = [mkDifference insert 2 None (Some 0xC694%N)]
  /\ findDifferences (js "안녕요") (js "안녕")
     = [mkDifference delete 2 (Some 0xC694%N) None]
  /\ findDifferences (js "감사") (js "감자")
     = [mkDifference replace 1 (Some 0xC0AC%N) (Some 0xC790%N)].
Proof. repeat split. Qed.

End FuzzyFacts.

Module UsefulnessFacts.
Import JS Usefulness.
Local Open Scope string_scope.
Local Open Scope list_scope.
Local Open Scope Q_scope.

(** *** The scorer on the assertions of its test suite *)

Example calculateUsefulness_tests :
  calculateUsefulness decimal (card_with_tags []) None
  = mkScoreResult 50 ["base score: 50"]
  /\ calculateUsefulness decimal (card_with_tags ["beginner"; "travel"]) None
     = mkScoreResult 68
         ["base score: 50"; "+10 for 'beginner' tag"; "+8 for 'travel' tag"]
  /\ calculateUsefulness decimal (card_with_tags ["rare"]) None
     = mkScoreResult 45 ["base score: 50"; "-5 for 'rare' tag"]
  /\ calculateUsefulness decimal (card_with_tags ["unknown-tag"; "another-unknown"]) None
     = mkScoreResult 50 ["base score: 50"]
  /\ calculateUsefulness decimal (mkCardInput "" "" [] (Some true) None None) None
     = mkScoreResult 65 ["base score: 50"; "+15 grammar pattern bonus"]
  /\ calculateUsefulness decimal (mkCardInput "" "" [] None None (Some 3000)) None
     = mkScoreResult 60 ["base score: 50"; "medium-frequency word (rank 1000-5000)"]
  /\ calculateUsefulness decimal (mkCardInput "" "" ["beginner"] None (Some 95) None) None
     = mkScoreResult 95 ["manual score override"].
Proof. repeat split. Qed.

Example calculateUsefulness_custom_config :
  calculateUsefulness decimal (card_with_tags ["medical"])
    (Some (mkPartialScoringConfig (Some {[ "medical" := 15 ]}) None None None))
  = mkScoreResult 65 ["base score: 50"; "+15 for 'medical' tag"]
  /\ calculateUsefulness decimal (mkCardInput "" "" [] (Some true) None None)
       (Some (mkPartialScoringConfig None (Some 25) None None))
     = mkScoreResult 75 ["base score: 50"; "+25 grammar pattern bonus"].
Proof. split; reflexivity. Qed.

Example calculateUsefulness_capped :
  calculateUsefulness decimal
    (card_with_tags ["beginner"; "essential"; "greeting"; "travel"; "food";
                     "pattern"; "business"]) None
  = mkScoreResult 80
      ["base score: 50"; "+10 for 'beginner' tag"; "+10 for 'essential' tag";
       "+9 for 'greeting' tag"; "+8 for 'travel' tag"; "+7 for 'food' tag";
       "+8 for 'pattern' tag"; "+6 for 'business' tag"; "tag score capped at ±30"].
Proof. reflexivity. Qed.

(** *** [normalizeScore] *)

Lemma Math_min_inject_Z (x y : Z) :
  Math_min (inject_Z x) (inject_Z y) == inject_Z (Z.min x y).
Proof.
  unfold Math_min. destruct (Z.le_ge_cases x y) as [H | H].
  - rewrite Z.min_l by exact H. apply Q.min_l. now rewrite <- Zle_Qle.
  - rewrite Z.min_r by exact H. apply Q.min_r. now rewrite <- Zle_Qle.
Qed.

Lemma Math_max_inject_Z (x y : Z) :
  Math_max (inject_Z x) (inject_Z y) == inject_Z (Z.max x y).
Proof.
  unfold Math_max. destruct (Z.le_ge_cases x y) as [H | H].
  - rewrite Z.max_r by exact H. apply Q.max_r. now rewrite <- Zle_Qle.
  - rewrite Z.max_l by exact H. apply Q.max_l. now rewrite <- Zle_Qle.
Qed.

Lemma normalizeScore_spec (raw : Q) :
  normalizeScore raw == inject_Z (Z.max 0 (Z.min 100 (Qfloor (raw + (1 # 2))))).
Proof.
  unfold normalizeScore, Math_round.
  rewrite <- Math_max_inject_Z, <- Math_min_inject_Z. reflexivity.
Qed.

Lemma normalizeScore_range (raw : Q) :
  exists z : Z, normalizeScore raw == inject_Z z /\ (0 <= z <= 100)%Z.
Proof.
  exists (Z.max 0 (Z.min 100 (Qfloor (raw + (1 # 2))))).
  split; [apply normalizeScore_spec | lia].
Qed.

Lemma normalizeScore_compat (x y : Q) : x == y -> normalizeScore x = normalizeScore y.
Proof.
  intros H. unfold normalizeScore, Math_round.
  now rewrite (Qfloor_comp (x + (1 # 2)) (y + (1 # 2))) by now rewrite H.
Qed.

Lemma normalizeScore_top (raw : Q) : 100 <= raw -> normalizeScore raw == 100.
Proof.
  intros H. rewrite normalizeScore_spec.
  assert (Hfloor : (100 <= Qfloor (raw + (1 # 2)))%Z).
  { change 100%Z with (Qfloor 100). apply Qfloor_resp_le. lra. }
  replace (Z.max 0 (Z.min 100 (Qfloor (raw + (1 # 2))))) with 100%Z by lia.
  reflexivity.
Qed.

(** *** Tags *)

Lemma default_weights_of_no_config :
  tagWeights (mergeConfig None) = tagWeights DEFAULT_CONFIG.
Proof. unfold mergeConfig. cbn [tagWeights mbind option_bind default]. apply (left_id_L ∅ (∪)). Qed.

Lemma default_weight_rare : tagWeights DEFAULT_CONFIG !! "rare" = Some (-5).
Proof. reflexivity. Qed.

Lemma default_positive_weight (tag : string) (weight : Q) :
  tagWeights DEFAULT_CONFIG !! tag = Some weight -> 0 < weight -> 3 <= weight.
Proof.
  unfold DEFAULT_CONFIG. cbn [tagWeights].
  intros H%elem_of_list_to_map_2 Hpos.
  repeat (apply elem_of_cons in H as [H | H];
          [injection H as _ ->; unfold Qle; simpl; lia |]).
  - exfalso. apply elem_of_cons in H as [H | H].
    + injection H as _ ->. revert Hpos. unfold Qlt. simpl. lia.
    + now apply elem_of_nil in H.
Qed.

Lemma getTagScore_score (Number_toString : Q -> string)
    (tags : list string) (weights : gmap string Q) :
  score (getTagScore Number_toString tags weights)
  = Math_max (- MAX_TAG_IMPACT)
      (Math_min MAX_TAG_IMPACT (rawTagScore Number_toString tags weights)).
Proof.
  unfold getTagScore, rawTagScore.
  now destruct (foldl (getTagScore_step Number_toString weights) (0, []) tags).
Qed.

Lemma getTagScore_step_known (Number_toString : Q -> string)
    (weights : gmap string Q) (acc : Q * list string) (tag : string) (weight : Q) :
  weights !! tag = Some weight ->
  fst (getTagScore_step Number_toString weights acc tag) = fst acc + weight.
Proof. intros H. unfold getTagScore_step. destruct acc. now rewrite H. Qed.

Lemma foldl_repeated_tag (Number_toString : Q -> string)
    (weights : gmap string Q) (tag : string) (weight : Q) (n : nat) :
  weights !! tag = Some weight ->
  forall acc,
    fst (foldl (getTagScore_step Number_toString weights) acc (replicate n tag))
    == fst acc + inject_Z (Z.of_nat n) * weight.
Proof.
  intros H. induction n as [| n IH]; intros acc.
  - cbn [replicate foldl]. change (inject_Z (Z.of_nat 0)) with 0. ring.
  - cbn [replicate foldl]. rewrite IH, (getTagScore_step_known _ _ _ _ _ H).
    rewrite Nat2Z.inj_succ. unfold Z.succ. rewrite inject_Z_plus.
    change (inject_Z 1) with 1. ring.
Qed.

Lemma foldl_positive_tags (Number_toString : Q -> string) (tags : list string) :
  Forall positive_tag tags ->
  forall acc,
    fst acc + 3 * inject_Z (Z.of_nat (length tags))
    <= fst (foldl (getTagScore_step Number_toString (tagWeights DEFAULT_CONFIG)) acc tags).
Proof.
  induction 1 as [| tag tags (weight & Hw & Hpos) _ IH]; intros acc.
  - cbn [foldl length]. change (inject_Z (Z.of_nat 0)) with 0. lra.
  - cbn [foldl length].
    eapply Qle_trans; [| apply IH].
    rewrite (getTagScore_step_known _ _ _ _ _ Hw).
    pose proof (default_positive_weight tag weight Hw Hpos) as H3.
    rewrite Nat2Z.inj_succ. unfold Z.succ. rewrite inject_Z_plus.
    change (inject_Z 1) with 1. lra.
Qed.

Lemma calculateUsefulness_score (Number_toString : Q -> string)
    (card : CardInput) (config : option PartialScoringConfig) :
  manualScore card = None ->
  score (calculateUsefulness Number_toString card config)
  = normalizeScore
      (BASE_SCORE
       + score (getTagScore Number_toString (tags card) (tagWeights (mergeConfig config)))
       + fst (getPatternScore Number_toString (default false (isPattern card))
                (patternBonus (mergeConfig config)))
       + fst (getFrequencyScore (frequencyRank card))).
Proof. intros H. unfold calculateUsefulness. now rewrite H. Qed.

(** *** The range of the score *)

(** Where every tag is looked up among the own keys of the table, the
    score is a whole number between 0 and 100 for every card and every
    configuration, partial or absent.  With the default configuration,
    seven or more [rare] tags without pattern or rank give exactly 20 (the
    tag sum is held at -30 under the base of 50), and seven or more
    positive tags with the pattern bonus and a high-frequency rank give
    100. *)
Lemma usefulness_score_range :
  forall Number_toString : Q -> string,
    (forall (card : CardInput) (config : option PartialScoringConfig),
       exists z : Z,
         score (calculateUsefulness Number_toString card config) == inject_Z z
         /\ (0 <= z <= 100)%Z)
    /\ (forall (card : CardInput) (n : nat),
          tags card = replicate n "rare" -> (7 <= n)%nat ->
          default false (isPattern card) = false ->
          manualScore card = None -> frequencyRank card = None ->
          score (calculateUsefulness Number_toString card None) == 20)
    /\ (forall (card : CardInput) (rank : Q),
          Forall positive_tag (tags card) -> (7 <= length (tags card))%nat ->
          isPattern card = Some true ->
          manualScore card = None ->
          frequencyRank card = Some rank -> rank <= 1000 ->
          score (calculateUsefulness Number_toString card None) == 100).
Proof.
  intros nts. split; [| split].
  - intros card config. unfold calculateUsefulness.
    destruct (manualScore card); cbn [score]; apply normalizeScore_range.
  - intros card n Htags Hn Hpattern Hmanual Hrank.
    rewrite (calculateUsefulness_score nts card None Hmanual).
    rewrite Hpattern, Hrank, getTagScore_score, Htags, default_weights_of_no_config.
    cbn [getPatternScore getFrequencyScore fst].
    unfold rawTagScore.
    pose proof (foldl_repeated_tag nts _ "rare" (-5) n default_weight_rare (0, [])) as Hraw.
    cbn [fst] in Hraw.
    set (raw := fst (foldl _ _ _)) in *. clearbody raw.
    assert (Hn' : 7 <= inject_Z (Z.of_nat n)).
    { change 7 with (inject_Z 7). rewrite <- Zle_Qle. lia. }
    assert (Hclamp : Math_max (- MAX_TAG_IMPACT) (Math_min MAX_TAG_IMPACT raw) == -30).
    { unfold Math_max, Math_min, MAX_TAG_IMPACT.
      rewrite (Q.min_r 30 raw) by lra. apply Q.max_l. lra. }
    rewrite (normalizeScore_compat _ 20); [reflexivity |].
    rewrite Hclamp. reflexivity.
  - intros card rank Htags Hlen Hpattern Hmanual Hrank Hhigh.
    rewrite (calculateUsefulness_score nts card None Hmanual).
    rewrite Hpattern, Hrank, getTagScore_score, default_weights_of_no_config.
    cbn [default from_option id getPatternScore getFrequencyScore fst].
    replace (Qle_bool rank 1000) with true by (symmetry; now apply Qle_bool_iff).
    cbn [fst]. apply normalizeScore_top.
    unfold rawTagScore.
    pose proof (foldl_positive_tags nts (tags card) Htags (0, [])) as Hraw.
    cbn [fst] in Hraw.
    set (raw := fst (foldl _ _ _)) in *. clearbody raw.
    assert (Hlen' : 7 <= inject_Z (Z.of_nat (length (tags card)))).
    { change 7 with (inject_Z 7). rewrite <- Zle_Qle. lia. }
    set (len := inject_Z (Z.of_nat (length (tags card)))) in *. clearbody len.
    assert (Hclamp : 21 <= Math_max (- MAX_TAG_IMPACT) (Math_min MAX_TAG_IMPACT raw)).
    { unfold Math_max, Math_min, MAX_TAG_IMPACT.
      eapply Qle_trans; [| apply Q.le_max_r].
      apply Q.min_glb; lra. }
    change (patternBonus (mergeConfig None)) with 15.
    unfold BASE_SCORE. lra.
Qed.

(** *** Claims on the scorer *)

(** C6, as amended.  When [manualScore] is present the scorer returns it
    rounded and clamped to the range 0 to 100 (150 gives 100), with exactly
    one reason, the string [manual score override]; tags, pattern,
    frequency and configuration play no part. *)
Theorem manual_override :
  forall (Number_toString : Q -> string) (card : CardInput)
         (config : option PartialScoringConfig) (manual : Q),
    manualScore card = Some manual ->
    calculateUsefulness Number_toString card config
    = {| score := normalizeScore manual; reasons := ["manual score override"] |}
    /\ score (calculateUsefulness Number_toString card config)
       == inject_Z (Z.max 0 (Z.min 100 (Qfloor (manual + (1 # 2)))))
    /\ (manual == 150 ->
        score (calculateUsefulness Number_toString card config) == 100)
    /\ length (reasons (calculateUsefulness Number_toString card config)) = 1%nat.
Proof.
  intros nts card config manual H. unfold calculateUsefulness. rewrite H.
  cbn [score reasons length]. split; [| split; [| split]].
  - reflexivity.
  - apply normalizeScore_spec.
  - intros H150. now rewrite (normalizeScore_compat manual 150 H150).
  - reflexivity.
Qed.

Lemma manual_override_witness :
  calculateUsefulness decimal
    (mkCardInput "" "" ["beginner"] (Some true) (Some 150) (Some 100)) None
  = {| score := normalizeScore 150; reasons := ["manual score override"] |}
  /\ score (calculateUsefulness decimal
              (mkCardInput "" "" ["beginner"] (Some true) (Some 150) (Some 100)) None)
     == 100.
Proof.
  pose proof (manual_override decimal
                (mkCardInput "" "" ["beginner"] (Some true) (Some 150) (Some 100))
                None 150 eq_refl) as (Heq & _ & H150 & _).
  split; [exact Heq | apply H150; reflexivity].
Defined.

(** C6 as stated fails on the text of the reason: it is not
    [manual override]. *)
Lemma manual_override_reason_text :
  reasons (calculateUsefulness decimal
             (mkCardInput "" "" [] None (Some 150) None) None)
  <> ["manual override"].
Proof. cbn. discriminate. Qed.

End UsefulnessFacts.

(** * Further properties *)

Module SchedulerMore.
Import JS.
Local Open Scope Q_scope.

(** *** Dates *)

Lemma truncate_inject_Z (z : Z) : truncate (inject_Z z) = z.
Proof. unfold truncate. destruct (Qle_bool 0 (inject_Z z)); [apply Qfloor_Z | apply Qceiling_Z]. Qed.

Lemma truncate_compat (x y : Q) : x == y -> truncate x = truncate y.
Proof.
  intros H. unfold truncate.
  replace (Qle_bool 0 y) with (Qle_bool 0 x).
  - destruct (Qle_bool 0 x); [now apply Qfloor_comp | now apply Qceiling_comp].
  - destruct (Qle_bool 0 x) eqn:Hx; symmetry.
    + apply Qle_bool_iff. apply Qle_bool_iff in Hx. now rewrite <- H.
    + destruct (Qle_bool 0 y) eqn:Hy; [| reflexivity].
      apply Qle_bool_iff in Hy. rewrite <- H in Hy. apply Qle_bool_iff in Hy. congruence.
Qed.

Lemma truncate_lower_bound (z : Z) (x : Q) : inject_Z z <= x -> (z <= truncate x)%Z.
Proof.
  intros H. unfold truncate.
  assert (Hfloor : (z <= Qfloor x)%Z).
  { rewrite <- (Qfloor_Z z). now apply Qfloor_resp_le. }
  destruct (Qle_bool 0 x); [exact Hfloor |].
  pose proof (Qle_floor_ceiling x) as Hfc. rewrite <- Zle_Qle in Hfc. lia.
Qed.

(** *** The library scheduler *)

Lemma calculateNextInterval_nonneg (state : Sm2.CardState) (rating : Rating) :
  0 <= Sm2.easeFactor state -> 0 <= Sm2.intervalDays state ->
  0 <= Sm2.calculateNextInterval state rating.
Proof.
  intros He Hi. unfold Sm2.calculateNextInterval.
  destruct rating; try (unfold Qle; simpl; lia);
    destruct (Sm2.repetitions state =? 0)%Z; try lra;
    destruct (Sm2.repetitions state =? 1)%Z; try lra; nra.
Qed.

(** X1.  The library scheduler keeps a card's state valid.  From a state
    with non-negative ease factor, interval and repetitions, every rating
    gives a state with ease factor at least 1.3 (also when the ease given
    was below it), non-negative interval and repetitions, and a due date,
    the same as the review date returned, that is not before the time of
    the review whenever [setTime] makes a valid date of it (a time value
    within 8.64e15 ms of the epoch). *)
Theorem calculateNextReview_keeps_state_valid :
  forall (clock : Date) (state : Sm2.CardState) (rating : Rating)
         (reviewedAt : option Date),
    0 <= Sm2.easeFactor state ->
    0 <= Sm2.intervalDays state ->
    (0 <= Sm2.repetitions state)%Z ->
    let result := Sm2.calculateNextReview clock state rating reviewedAt in
    let now := default clock reviewedAt in
    1.3 <= Sm2.easeFactor (Sm2.newState result)
    /\ 0 <= Sm2.intervalDays (Sm2.newState result)
    /\ (0 <= Sm2.repetitions (Sm2.newState result))%Z
    /\ Sm2.dueAt (Sm2.newState result) = Sm2.nextReviewDate result
    /\ (forall date : Date,
          JSDate.TimeClip (Sm2.nextReviewDate result) = Some date -> (now <= date)%Z).
Proof.
  intros clock state rating reviewedAt He Hi Hr. cbn zeta.
  pose proof (calculateNextInterval_nonneg state rating He Hi) as Hnext.
  unfold Sm2.calculateNextReview.
  cbn [Sm2.newState Sm2.easeFactor Sm2.intervalDays Sm2.repetitions Sm2.dueAt
       Sm2.nextReviewDate].
  split; [| split; [| split; [| split]]].
  - unfold Sm2.calculateNewEaseFactor, Math_max. apply Q.le_max_l.
  - exact Hnext.
  - destruct rating; lia.
  - reflexivity.
  - intros date Hdate. unfold JSDate.TimeClip in Hdate.
    destruct (Z.abs _ <=? 8640000000000000)%Z; [| discriminate].
    injection Hdate as <-.
    apply truncate_lower_bound.
    destruct reviewedAt as [d |]; cbn [default from_option id];
      set (x := Sm2.calculateNextInterval state rating) in *; clearbody x; lra.
Qed.

Lemma calculateNextReview_keeps_state_valid_witness :
  1.3 <= Sm2.easeFactor (Sm2.newState
           (Sm2.calculateNextReview 0%Z (Sm2.mkCardState 1 10 5%Z 0%Z) Good (Some 1000%Z)))
  /\ (1000 <= Sm2.nextReviewDate
        (Sm2.calculateNextReview 0%Z (Sm2.mkCardState 1 10 5%Z 0%Z) Good (Some 1000%Z)))%Z.
Proof.
  pose proof (calculateNextReview_keeps_state_valid 0%Z (Sm2.mkCardState 1 10 5%Z 0%Z)
                Good (Some 1000%Z)) as H.
  cbn zeta in H. destruct H as (He & _ & _ & _ & Hdue).
  - unfold Qle; simpl; lia.
  - unfold Qle; simpl; lia.
  - simpl; lia.
  - split; [exact He | apply Hdue; reflexivity].
Defined.




Lemma sm2_repetitions_without_again (clock : Date) (ratings : list Rating) :
  Forall (fun rating => rating <> Again) ratings ->
  forall state,
    Sm2.repetitions (Sm2.review_all clock state ratings)
    = (Sm2.repetitions state + Z.of_nat (length ratings))%Z.
Proof.
  unfold Sm2.review_all.
  induction 1 as [| rating ratings Hr _ IH]; intros state; cbn [foldl length].
  - lia.
  - rewrite IH. destruct rating; [now destruct Hr | | |];
      cbn [Sm2.calculateNextReview Sm2.newState Sm2.repetitions]; lia.
Qed.

Lemma route_repetitions_without_again (ratings : list Rating) :
  Forall (fun rating => rating <> Again) ratings ->
  forall stored,
    ReviewRoute.repetitions (ReviewSession.review_all stored ratings)
    = (ReviewRoute.repetitions stored + Z.of_nat (length ratings))%Z.
Proof.
  unfold ReviewSession.review_all.
  induction 1 as [| rating ratings Hr _ IH]; intros stored; cbn [foldl length].
  - lia.
  - rewrite IH. destruct rating; [now destruct Hr | | |];
      cbn [ReviewRoute.calculateSM2 ReviewRoute.repetitions]; lia.
Qed.

(** X4.  The repetitions count the ratings since the last Again, in both
    schedulers: after any ratings, an Again and then [n] ratings other than
    Again, the repetitions are [n]; without any Again they grow by the
    number of ratings. *)
Theorem repetitions_count_since_last_again :
  forall (clock : Date) (state : Sm2.CardState) (stored : ReviewRoute.SM2Result)
         (before after : list Rating),
    Forall (fun rating => rating <> Again) after ->
    (Sm2.repetitions (Sm2.review_all clock state (before ++ Again :: after))
     = Z.of_nat (length after)
     /\ ReviewRoute.repetitions
          (ReviewSession.review_all stored (before ++ Again :: after))
        = Z.of_nat (length after))
    /\ (Sm2.repetitions (Sm2.review_all clock state after)
        = (Sm2.repetitions state + Z.of_nat (length after))%Z
        /\ ReviewRoute.repetitions (ReviewSession.review_all stored after)
           = (ReviewRoute.repetitions stored + Z.of_nat (length after))%Z).
Proof.
  intros clock state stored before after Hafter.
  split; split.
  - unfold Sm2.review_all. rewrite foldl_app. cbn [foldl].
    etrans; [exact (sm2_repetitions_without_again clock after Hafter _) |].
    reflexivity.
  - unfold ReviewSession.review_all. rewrite foldl_app. cbn [foldl].
    etrans; [exact (route_repetitions_without_again after Hafter _) |].
    reflexivity.
  - now apply sm2_repetitions_without_again.
  - now apply route_repetitions_without_again.
Qed.

Lemma repetitions_count_since_last_again_witness :
  Sm2.repetitions
    (Sm2.review_all 0%Z (Sm2.getInitialState 0%Z) ([Good; Easy] ++ Again :: [Hard; Good]))
  = 2%Z
  /\ ReviewRoute.repetitions
       (ReviewSession.review_all ReviewSession.new_progress
          ([Good; Easy] ++ Again :: [Hard; Good]))
     = 2%Z.
Proof.
  apply (repetitions_count_since_last_again 0%Z (Sm2.getInitialState 0%Z)
           ReviewSession.new_progress [Good; Easy] [Hard; Good]).
  repeat constructor; discriminate.
Defined.

(** *** The label of an interval *)

Lemma Math_round_inject_Z (x : Q) (z : Z) : x == inject_Z z -> Math_round x = inject_Z z.
Proof.
  intros H. unfold Math_round. f_equal.
  rewrite (Qfloor_comp _ (inject_Z z + (1 # 2))) by now rewrite H.
  apply Z.le_antisymm.
  - assert (Hlt : inject_Z (Qfloor (inject_Z z + (1 # 2))) < inject_Z (z + 1)).
    { eapply Qle_lt_trans; [apply Qfloor_le |]. rewrite inject_Z_plus.
      change (inject_Z 1) with 1. lra. }
    rewrite <- Zlt_Qlt in Hlt. lia.
  - rewrite <- (Qfloor_Z z) at 1. apply Qfloor_resp_le. lra.
Qed.

Lemma Math_round_bounds (x : Q) (lo hi : Z) :
  inject_Z lo <= x -> x < inject_Z hi ->
  exists z : Z, Math_round x = inject_Z z /\ (lo <= z <= hi)%Z.
Proof.
  intros Hlo Hhi. exists (Qfloor (x + (1 # 2))). split; [reflexivity |]. split.
  - rewrite <- (Qfloor_Z lo). apply Qfloor_resp_le. lra.
  - assert (H : inject_Z (Qfloor (x + (1 # 2))) < inject_Z (hi + 1)).
    { eapply Qle_lt_trans; [apply Qfloor_le |]. rewrite inject_Z_plus.
      change (inject_Z 1) with 1. lra. }
    rewrite <- Zlt_Qlt in H. lia.
Qed.

Example getIntervalDisplay_tests :
  Sm2Display.getIntervalDisplay Usefulness.decimal (1 / (24 * 60)) = "1m"%string
  /\ Sm2Display.getIntervalDisplay Usefulness.decimal (30 / (24 * 60)) = "30m"%string
  /\ Sm2Display.getIntervalDisplay Usefulness.decimal (12 / 24) = "12h"%string
  /\ Sm2Display.getIntervalDisplay Usefulness.decimal 13 = "13d"%string
  /\ Sm2Display.getIntervalDisplay Usefulness.decimal 1.6 = "2d"%string
  /\ Sm2Display.getIntervalDisplay Usefulness.decimal 17.5 = "3w"%string
  /\ Sm2Display.getIntervalDisplay Usefulness.decimal 56 = "8w"%string
  /\ Sm2Display.getIntervalDisplay Usefulness.decimal 365 = "12m"%string
  /\ Sm2Display.getIntervalDisplay Usefulness.decimal 912.5 = "30m"%string.
Proof. repeat split. Qed.

(** X5.  The labels of minutes and of months cannot be told apart: for
    every [n] from 2 to 59, an interval of [n] minutes and an interval of
    [30 n] days get the same label, the number [n] followed by the letter
    m. *)
Theorem getIntervalDisplay_minutes_and_months_collide :
  forall (Number_toString : Q -> string) (n : Z),
    (2 <= n <= 59)%Z ->
    Sm2Display.getIntervalDisplay Number_toString (inject_Z n / (24 * 60))
    = (Number_toString (inject_Z n) +:+ "m")%string
    /\ Sm2Display.getIntervalDisplay Number_toString (30 * inject_Z n)
       = (Number_toString (inject_Z n) +:+ "m")%string.
Proof.
  intros nts n Hn.
  assert (H2 : 2 <= inject_Z n) by (change 2 with (inject_Z 2); rewrite <- Zle_Qle; lia).
  assert (H59 : inject_Z n <= 59) by (change 59 with (inject_Z 59); rewrite <- Zle_Qle; lia).
  unfold Sm2Display.getIntervalDisplay. split.
  - destruct (Qlt_le_dec (inject_Z n / (24 * 60)) 1) as [_ | Hge].
    + rewrite (Math_round_inject_Z (inject_Z n / (24 * 60) * 24 * 60) n) by field.
      destruct (Qlt_le_dec (inject_Z n) 60) as [_ | H60]; [reflexivity | lra].
    + exfalso. apply (Qle_not_lt _ _ Hge).
      apply Qlt_shift_div_r; [reflexivity | lra].
  - destruct (Qlt_le_dec (30 * inject_Z n) 1) as [Hlt | _]; [lra |].
    destruct (Qlt_le_dec (30 * inject_Z n) 14) as [Hlt | _]; [lra |].
    destruct (Qlt_le_dec (30 * inject_Z n) 60) as [Hlt | _]; [lra |].
    now rewrite (Math_round_inject_Z (30 * inject_Z n / 30) n) by field.
Qed.

Lemma getIntervalDisplay_minutes_and_months_collide_witness :
  Sm2Display.getIntervalDisplay Usefulness.decimal (inject_Z 30 / (24 * 60))
  = Sm2Display.getIntervalDisplay Usefulness.decimal (30 * inject_Z 30).
Proof.
  destruct (getIntervalDisplay_minutes_and_months_collide Usefulness.decimal 30)
    as [H1 H2]; [lia |].
  now rewrite H1, H2.
Defined.

(** X6.  Below one day the label is a number of minutes from 0 to 59 or a
    number of hours from 1 to 24: an interval just under a day is shown as
    24h, and one under half a minute as 0m. *)
Theorem getIntervalDisplay_below_one_day :
  forall (Number_toString : Q -> string) (days : Q),
    0 <= days -> days < 1 ->
    exists n : Z,
      (Sm2Display.getIntervalDisplay Number_toString days
       = (Number_toString (inject_Z n) +:+ "m")%string /\ (0 <= n <= 59)%Z)
      \/ (Sm2Display.getIntervalDisplay Number_toString days
          = (Number_toString (inject_Z n) +:+ "h")%string /\ (1 <= n <= 24)%Z).
Proof.
  intros nts days H0 H1. unfold Sm2Display.getIntervalDisplay.
  destruct (Qlt_le_dec days 1) as [_ | Hge]; [| lra].
  destruct (Qlt_le_dec (Math_round (days * 24 * 60)) 60) as [Hmin | Hmin].
  - destruct (Math_round_bounds (days * 24 * 60) 0 (24 * 60)) as (n & Hn & Hrange).
    + change (inject_Z 0) with 0. lra.
    + change (inject_Z (24 * 60)) with 1440. lra.
    + exists n. left. rewrite Hn in *. split; [reflexivity |].
      change 60 with (inject_Z 60) in Hmin. rewrite <- Zlt_Qlt in Hmin. lia.
  - assert (Hdays : 59 <= days * 24 * 60).
    { destruct (Qlt_le_dec (days * 24 * 60) 59) as [Hlt | Hle]; [| exact Hle].
      exfalso. destruct (Math_round_bounds (days * 24 * 60) 0 59) as (n & Hn & Hrange).
      - change (inject_Z 0) with 0. lra.
      - exact Hlt.
      - rewrite Hn in Hmin. change 60 with (inject_Z 60) in Hmin.
        rewrite <- Zle_Qle in Hmin. lia. }
    destruct (Math_round_bounds (days * 24) 0 24) as (n & Hn & Hrange).
    + change (inject_Z 0) with 0. lra.
    + change (inject_Z 24) with 24. lra.
    + exists n. right. rewrite Hn. split; [reflexivity |]. split; [| lia].
      assert (Hhalf : inject_Z 1 <= days * 24 + (1 # 2)) by (change (inject_Z 1) with 1; lra).
      apply Qfloor_resp_le in Hhalf. rewrite Qfloor_Z in Hhalf.
      apply (f_equal Qfloor) in Hn. unfold Math_round in Hn.
      rewrite !Qfloor_Z in Hn. lia.
Qed.

Lemma getIntervalDisplay_below_one_day_witness :
  exists n : Z,
    (Sm2Display.getIntervalDisplay Usefulness.decimal 0.9999
     = (Usefulness.decimal (inject_Z n) +:+ "m")%string /\ (0 <= n <= 59)%Z)
    \/ (Sm2Display.getIntervalDisplay Usefulness.decimal 0.9999
        = (Usefulness.decimal (inject_Z n) +:+ "h")%string /\ (1 <= n <= 24)%Z).
Proof.
  apply (getIntervalDisplay_below_one_day Usefulness.decimal 0.9999).
  - unfold Qle; simpl; lia.
  - reflexivity.
Defined.

Example getIntervalDisplay_just_under_a_day :
  Sm2Display.getIntervalDisplay Usefulness.decimal 0.9999 = "24h"%string.
Proof. reflexivity. Qed.

(** *** The review route over a card's life *)

Lemma calculateSM2_interval_is_integer
    (rating : Rating) (easeFactor0 intervalDays0 : Q) (repetitions0 : Z) :
  is_integer (ReviewRoute.intervalDays
                (ReviewRoute.calculateSM2 rating easeFactor0 intervalDays0 repetitions0)).
Proof.
  destruct rating; cbn [ReviewRoute.calculateSM2 ReviewRoute.intervalDays].
  - apply (SchedulerFacts.inject_Z_is_integer 0).
  - apply SchedulerFacts.Math_max_is_integer;
      [apply (SchedulerFacts.inject_Z_is_integer 1) | apply SchedulerFacts.Math_round_is_integer].
  - destruct (repetitions0 + 1 =? 1)%Z; [apply (SchedulerFacts.inject_Z_is_integer 1) |].
    destruct (repetitions0 + 1 =? 2)%Z; [apply (SchedulerFacts.inject_Z_is_integer 6) |].
    apply SchedulerFacts.Math_round_is_integer.
  - destruct (repetitions0 + 1 =? 1)%Z; [apply (SchedulerFacts.inject_Z_is_integer 4) |].
    destruct (repetitions0 + 1 =? 2)%Z; [apply (SchedulerFacts.inject_Z_is_integer 10) |].
    apply SchedulerFacts.Math_round_is_integer.
Qed.

Lemma review_all_snoc (stored : ReviewRoute.SM2Result) (ratings : list Rating)
    (rating : Rating) :
  ReviewSession.review_all stored (ratings ++ [rating])
  = ReviewRoute.calculateSM2 rating
      (ReviewRoute.easeFactor (ReviewSession.review_all stored ratings))
      (ReviewRoute.intervalDays (ReviewSession.review_all stored ratings))
      (ReviewRoute.repetitions (ReviewSession.review_all stored ratings)).
Proof. unfold ReviewSession.review_all. now rewrite foldl_app. Qed.

(** X7.  Whatever ratings a card receives from its creation on, what the
    review route stores stays within the validation rules of the schema
    (ease factor at least 1.3, interval and repetitions at least 0), and
    the interval is a whole number of days, as the Int column needs. *)
Theorem route_stores_valid_whole_days :
  forall ratings : list Rating,
    ReviewSession.valid (ReviewSession.review_all ReviewSession.new_progress ratings)
    /\ is_integer (ReviewRoute.intervalDays
                     (ReviewSession.review_all ReviewSession.new_progress ratings)).
Proof.
  induction ratings as [| rating ratings IH] using rev_ind.
  - split.
    + unfold ReviewSession.valid. cbn. repeat split; unfold Qle; simpl; lia.
    + apply (SchedulerFacts.inject_Z_is_integer 0).
  - rewrite review_all_snoc. destruct IH as [(He & Hi & Hr) _]. split.
    + exact (SchedulerFacts.calculateSM2_preserves_validation rating _ _ _ He Hi Hr).
    + apply calculateSM2_interval_is_integer.
Qed.

(** *** The due date of the route *)

Lemma MonthFromTime_range (t : Z) : (0 <= JSDate.MonthFromTime t <= 11)%Z.
Proof.
  unfold JSDate.MonthFromTime. cbn zeta.
  repeat (match goal with |- context [if ?b then _ else _] => destruct b end); lia.
Qed.

(** The year found is the largest one that begins at or before [t]. *)
Lemma YearFromTime_spec (t : Z) :
  (JSDate.TimeFromYear (JSDate.YearFromTime t) <= t
   < JSDate.TimeFromYear (JSDate.YearFromTime t + 1))%Z.
Proof.
  unfold JSDate.TimeFromYear, JSDate.YearFromTime, JSDate.Day, JSDate.msPerDay.
  cbn zeta.
  set (day := (t / 86400000)%Z).
  assert (Hday : (86400000 * day <= t < 86400000 * day + 86400000)%Z).
  { unfold day. Z.to_euclidean_division_equations. lia. }
  clearbody day.
  set (y := (1970 + 400 * day / 146097)%Z).
  assert (Hy : (146097 * (y - 1970) <= 400 * day < 146097 * (y - 1970) + 146097)%Z).
  { unfold y. Z.to_euclidean_division_equations. lia. }
  clearbody y.
  destruct (Z.ltb_spec day (JSDate.DayFromYear y)) as [H1 | H1].
  - replace (y - 1 + 1)%Z with y by lia.
    assert (JSDate.DayFromYear (y - 1) <= day)%Z; [| lia].
    unfold JSDate.DayFromYear in *. Z.to_euclidean_division_equations. lia.
  - destruct (Z.leb_spec (JSDate.DayFromYear (y + 1)) day) as [H2 | H2].
    + assert (day < JSDate.DayFromYear (y + 1 + 1))%Z; [| lia].
      unfold JSDate.DayFromYear in *. Z.to_euclidean_division_equations. lia.
    + lia.
Qed.

(** The calendar fields of some dates: 2024-03-31T01:00:00Z, the last
    second of 2024-02-29, the last second of 1969, 2100-03-01 (no leap
    year) and 1900-01-01. *)
Example calendar_fields :
  (JSDate.YearFromTime 1711846800000, JSDate.MonthFromTime 1711846800000,
   JSDate.DateFromTime 1711846800000, JSDate.HourFromTime 1711846800000)
  = (2024, 2, 31, 1)%Z
  /\ (JSDate.YearFromTime 1709251199000, JSDate.MonthFromTime 1709251199000,
      JSDate.DateFromTime 1709251199000, JSDate.MinFromTime 1709251199000)
     = (2024, 1, 29, 59)%Z
  /\ (JSDate.YearFromTime (-1000), JSDate.MonthFromTime (-1000),
      JSDate.DateFromTime (-1000), JSDate.SecFromTime (-1000))
     = (1969, 11, 31, 59)%Z
  /\ (JSDate.YearFromTime 4107542400000, JSDate.MonthFromTime 4107542400000,
      JSDate.DateFromTime 4107542400000) = (2100, 2, 1)%Z
  /\ (JSDate.YearFromTime (-2208988800000), JSDate.MonthFromTime (-2208988800000),
      JSDate.DateFromTime (-2208988800000)) = (1900, 0, 1)%Z
  /\ JSDate.MakeDay 2024 0 1 = 19723%Z
  /\ JSDate.MakeDay 2023 14 31 = JSDate.Day 1711846800000.
Proof. repeat split. Qed.

(** Moving the minute on by one moves the local time by 60000 ms. *)
Lemma setMinutes_next_minute (LocalTZA : Z -> bool -> Z) (this : Date) :
  JSDate.setMinutes LocalTZA this (JSDate.getMinutes LocalTZA this + 1)
  = JSDate.TimeClip
      (JSDate.UTC LocalTZA (JSDate.LocalTime LocalTZA this + 60000)).
Proof.
  unfold JSDate.setMinutes, JSDate.getMinutes. cbn zeta. do 2 f_equal.
  set (t := JSDate.LocalTime LocalTZA this). clearbody t.
  unfold JSDate.MakeDate, JSDate.MakeTime, JSDate.Day, JSDate.HourFromTime,
    JSDate.MinFromTime, JSDate.SecFromTime, JSDate.msFromTime,
    JSDate.msPerDay, JSDate.msPerHour, JSDate.msPerMinute, JSDate.msPerSecond.
  Z.to_euclidean_division_equations. lia.
Qed.

(** Moving the day of the month on by a whole number of days moves the
    local time by as many times 24 hours. *)
Lemma setDate_next_days (LocalTZA : Z -> bool -> Z) (this : Date) (days : Q) (n : Z) :
  days == inject_Z n ->
  JSDate.setDate LocalTZA this (inject_Z (JSDate.getDate LocalTZA this) + days)
  = JSDate.TimeClip
      (JSDate.UTC LocalTZA (JSDate.LocalTime LocalTZA this + n * JSDate.msPerDay)).
Proof.
  intros Hdays. unfold JSDate.setDate, JSDate.getDate. cbn zeta. do 2 f_equal.
  set (t := JSDate.LocalTime LocalTZA this). clearbody t.
  rewrite (truncate_compat _ (inject_Z (JSDate.DateFromTime t + n)))
    by (rewrite Hdays, inject_Z_plus; reflexivity).
  rewrite truncate_inject_Z.
  pose proof (MonthFromTime_range t) as Hmonth.
  unfold JSDate.MakeDate, JSDate.MakeDay. cbn zeta.
  replace (JSDate.MonthFromTime t / 12)%Z with 0%Z
    by (symmetry; apply Z.div_small; lia).
  rewrite Z.mod_small by lia. rewrite Z.add_0_r.
  unfold JSDate.DateFromTime, JSDate.DayWithinYear, JSDate.InLeapYear.
  set (start := JSDate.monthStart _ _). clearbody start.
  unfold JSDate.TimeWithinDay, JSDate.Day, JSDate.msPerDay.
  Z.to_euclidean_division_equations. lia.
Qed.

(** X8.  On a host whose local time keeps one offset from UTC, from a
    stored triple that is valid, the due date that the route computes,
    when it is a valid date, is at least one minute after the review: one
    minute exactly when the new interval is 0, one day or more
    otherwise. *)
Theorem route_due_date_ahead :
  forall (LocalTZA : Z -> bool -> Z) (offset : Z) (now due : Date)
         (rating : Rating) (stored : ReviewRoute.SM2Result),
    (forall (t : Z) (isUTC : bool), LocalTZA t isUTC = offset) ->
    ReviewSession.valid stored ->
    let result :=
      ReviewRoute.calculateSM2 rating (ReviewRoute.easeFactor stored)
        (ReviewRoute.intervalDays stored) (ReviewRoute.repetitions stored) in
    ReviewRoute.nextDueAt LocalTZA now result = Some due ->
    (now + 60000 <= due)%Z
    /\ (ReviewRoute.intervalDays result == 0 -> due = (now + 60000)%Z)
    /\ (~ ReviewRoute.intervalDays result == 0 -> (now + 86400000 <= due)%Z).
Proof.
  intros LocalTZA offset now due rating stored Hzone (He & Hi & Hr). cbn zeta.
  pose proof (SchedulerFacts.calculateSM2_preserves_validation rating _ _ _ He Hi Hr)
    as (_ & Hpos & _).
  destruct (calculateSM2_interval_is_integer rating (ReviewRoute.easeFactor stored)
              (ReviewRoute.intervalDays stored) (ReviewRoute.repetitions stored))
    as [z Hz].
  cbn zeta in Hpos.
  set (result := ReviewRoute.calculateSM2 _ _ _ _) in *. clearbody result.
  unfold ReviewRoute.nextDueAt.
  destruct (Qeq_bool (ReviewRoute.intervalDays result) 0) eqn:Hzero.
  - apply Qeq_bool_iff in Hzero. rewrite setMinutes_next_minute.
    unfold JSDate.UTC, JSDate.LocalTime, JSDate.TimeClip. rewrite !Hzone.
    destruct (Z.abs _ <=? 8640000000000000)%Z; [| discriminate].
    intros [= <-]. split; [lia | split; [intros _; lia |]].
    intros Hne. now destruct Hne.
  - assert (Hne : ~ ReviewRoute.intervalDays result == 0).
    { intros H. apply Qeq_bool_iff in H. congruence. }
    assert (Hz1 : (1 <= z)%Z).
    { rewrite Hz in Hpos, Hne. change 0 with (inject_Z 0) in Hpos, Hne.
      rewrite <- Zle_Qle in Hpos. rewrite inject_Z_injective in Hne. lia. }
    rewrite (setDate_next_days LocalTZA now _ z Hz).
    unfold JSDate.UTC, JSDate.LocalTime, JSDate.TimeClip, JSDate.msPerDay.
    rewrite !Hzone.
    destruct (Z.abs _ <=? 8640000000000000)%Z; [| discriminate].
    intros [= <-].
    split; [lia | split; [intros H; now destruct Hne | intros _; lia]].
Qed.

Lemma route_due_date_ahead_witness :
  ReviewRoute.nextDueAt (fun _ _ => 3600000%Z) 1000%Z
    (ReviewRoute.calculateSM2 Good 2.5 0 0%Z) = Some 86401000%Z
  /\ (1000 + 60000 <= 86401000)%Z.
Proof.
  assert (Hdue : ReviewRoute.nextDueAt (fun _ _ => 3600000%Z) 1000%Z
                   (ReviewRoute.calculateSM2 Good 2.5 0 0%Z) = Some 86401000%Z)
    by (vm_compute; reflexivity).
  split; [exact Hdue |].
  pose proof (route_due_date_ahead (fun _ _ => 3600000%Z) 3600000%Z 1000%Z
                86401000%Z Good ReviewSession.new_progress) as H.
  cbn zeta in H. apply H.
  - reflexivity.
  - unfold ReviewSession.valid. cbn. repeat split; unfold Qle; simpl; lia.
  - exact Hdue.
Defined.

(** Where the clocks go forward an hour in between (here at
    2024-03-31T01:00:00Z, from one hour ahead of UTC to two), the day that
    [setDate] adds is 23 hours long. *)
Example nextDueAt_across_a_clock_change :
  let LocalTZA (t : Z) (isUTC : bool) : Z :=
    if (t <? (if isUTC then 1711846800000 else 1711846800000 + 3600000))%Z
    then 3600000%Z else 7200000%Z in
  let now := (1711846800000 - 12 * 3600000)%Z in
  ReviewRoute.nextDueAt LocalTZA now (ReviewRoute.calculateSM2 Good 2.5 0 0%Z)
  = Some (now + 23 * 3600000)%Z.
Proof. vm_compute. reflexivity. Qed.

(** *** The previews of the review pages *)

(** X9.  The intervals that the review pages predict are the intervals
    that the route then stores: for a card with progress whose ease factor
    is not 0, each of the four previews is the interval of [calculateSM2]
    for that rating, and for a card without progress it is the interval
    for the progress that [POST] creates. *)
Theorem preview_is_what_the_route_stores :
  forall (progress : ReviewPage.CardProgress),
    ~ ReviewPage.easeFactor progress == 0 ->
    let preview := ReviewPage.previewIntervals (Some progress) in
    let fresh := ReviewPage.previewIntervals None in
    let stored rating :=
      ReviewRoute.intervalDays
        (ReviewRoute.calculateSM2 rating (ReviewPage.easeFactor progress)
           (ReviewPage.intervalDays progress) (ReviewPage.repetitions progress)) in
    let created rating :=
      ReviewRoute.intervalDays (ReviewRoute.calculateSM2 rating 2.5 0 0) in
    (ReviewPage.againInterval preview = stored Again
     /\ ReviewPage.hardInterval preview = stored Hard
     /\ ReviewPage.goodInterval preview = stored Good
     /\ ReviewPage.easyInterval preview = stored Easy)
    /\ (ReviewPage.againInterval fresh = created Again
        /\ ReviewPage.hardInterval fresh = created Hard
        /\ ReviewPage.goodInterval fresh = created Good
        /\ ReviewPage.easyInterval fresh = created Easy).
Proof.
  intros [e i r] He. cbn [ReviewPage.easeFactor ReviewPage.intervalDays
                          ReviewPage.repetitions] in *.
  cbn zeta. split; [| repeat split].
  unfold ReviewPage.previewIntervals.
  cbn [fmap option_fmap option_map default from_option id
       ReviewPage.easeFactor ReviewPage.intervalDays ReviewPage.repetitions
       ReviewPage.againInterval ReviewPage.hardInterval ReviewPage.goodInterval
       ReviewPage.easyInterval ReviewRoute.calculateSM2 ReviewRoute.intervalDays].
  assert (Hi : ReviewPage.or_else i 0 == i).
  { unfold ReviewPage.or_else. destruct (Qeq_bool i 0) eqn:E; [| reflexivity].
    apply Qeq_bool_iff in E. now symmetry. }
  assert (Hease : ReviewPage.or_else e 2.5 = e).
  { unfold ReviewPage.or_else. destruct (Qeq_bool e 0) eqn:E; [| reflexivity].
    apply Qeq_bool_iff in E. now destruct He. }
  rewrite Hease.
  rewrite (SchedulerFacts.Math_round_compat (ReviewPage.or_else i 0 * 1.2) (i * 1.2))
    by now rewrite Hi.
  rewrite (SchedulerFacts.Math_round_compat (ReviewPage.or_else i 0 * e) (i * e))
    by now rewrite Hi.
  rewrite (SchedulerFacts.Math_round_compat (ReviewPage.or_else i 0 * e * 1.3) (i * e * 1.3))
    by now rewrite Hi.
  replace (r + 1 =? 1)%Z with (r =? 0)%Z
    by (destruct (Z.eqb_spec r 0), (Z.eqb_spec (r + 1) 1); lia || reflexivity).
  replace (r + 1 =? 2)%Z with (r =? 1)%Z
    by (destruct (Z.eqb_spec r 1), (Z.eqb_spec (r + 1) 2); lia || reflexivity).
  repeat split.
Qed.

Lemma preview_is_what_the_route_stores_witness :
  ReviewPage.easyInterval
    (ReviewPage.previewIntervals (Some (ReviewPage.mkCardProgress 2.5 15 3%Z)))
  = ReviewRoute.intervalDays (ReviewRoute.calculateSM2 Easy 2.5 15 3%Z).
Proof.
  apply (preview_is_what_the_route_stores (ReviewPage.mkCardProgress 2.5 15 3%Z)).
  cbn. discriminate.
Defined.

(** With a stored ease factor of 0 the page computes with 2.5 and the
    route with 0, and the previews part from what is stored. *)
Example preview_with_ease_zero :
  ReviewPage.goodInterval
    (ReviewPage.previewIntervals (Some (ReviewPage.mkCardProgress 0 10 3%Z))) == 25
  /\ ReviewRoute.intervalDays (ReviewRoute.calculateSM2 Good 0 10 3%Z) == 0.
Proof. split; reflexivity. Qed.

End SchedulerMore.

Module FuzzyMore.
Import Fuzzy FuzzyFeedback.

(** *** The matrix holds the distances of the prefixes *)

Lemma prefix_distance_succ (a b : list N) (i j : nat) :
  prefix_distance a b (S i) (S j)
  = if bool_decide (b !! i = a !! j) then prefix_distance a b i j
    else min3 (prefix_distance a b i j + 1) (prefix_distance a b (S i) j + 1)
              (prefix_distance a b i (S j) + 1).
Proof. reflexivity. Qed.

Lemma prefix_distance_zero_r (a b : list N) (i : nat) : prefix_distance a b i 0 = i.
Proof. now destruct i. Qed.

Lemma row_exact_first (a b : list N) :
  row_exact a b 0 (seq 0 (S (length a))) (S (length a)).
Proof.
  split; [apply length_seq |]. intros j Hj. now rewrite seq_nth by lia.
Qed.

Lemma fill_row_exact (a b : list N) (done pending : list (list nat)) (prev : list nat) :
  S (length done) <= length b ->
  row_exact a b (length done) prev (S (length a)) ->
  exists cur,
    fill_row a b (done ++ prev :: [S (length done)] :: pending) (S (length done))
    = done ++ prev :: cur :: pending
    /\ row_exact a b (S (length done)) cur (S (length a)).
Proof.
  intros Hi [Hprevlen Hprev]. unfold fill_row.
  set (i := length done) in *.
  apply (FuzzyFacts.foldl_seq_invariant
           (fun matrix j => set_cell matrix (S i) j (next_cell a b matrix (S i) j))
           (fun k m => exists cur, m = done ++ prev :: cur :: pending
                                   /\ row_exact a b (S i) cur k)
           (length a) 1).
  - exists [S i]. split; [reflexivity |]. split; [reflexivity |].
    intros j Hj. replace j with 0 by lia. reflexivity.
  - intros k m Hk (cur & -> & Hlen & Hcur).
    assert (Hi' : length (done ++ [prev]) = S i) by (rewrite length_app; simpl; lia).
    assert (Hshape : done ++ prev :: cur :: pending = (done ++ [prev]) ++ cur :: pending)
      by now rewrite <- app_assoc.
    exists (cur ++ [next_cell a b (done ++ prev :: cur :: pending) (S i) k]).
    split.
    + rewrite Hshape at 1. rewrite <- Hi' at 1.
      rewrite FuzzyFacts.set_cell_middle. unfold array_set.
      rewrite Hlen, Nat.ltb_irrefl. now rewrite <- app_assoc.
    + split; [rewrite length_app; simpl; lia |].
      intros j Hj. destruct (decide (j = k)) as [-> | Hne].
      * rewrite app_nth2 by lia. rewrite Hlen, Nat.sub_diag. cbn [nth].
        destruct k as [| k']; [lia |].
        rewrite prefix_distance_succ. unfold next_cell.
        replace (S i - 1) with i by lia. replace (S k' - 1) with k' by lia.
        assert (Hup : forall j', j' <= length a ->
                   cell (done ++ prev :: cur :: pending) i j' = prefix_distance a b i j').
        { intros j' Hj'. unfold i. rewrite FuzzyFacts.cell_middle. apply Hprev. lia. }
        assert (Hleft : cell (done ++ prev :: cur :: pending) (S i) k'
                        = prefix_distance a b (S i) k').
        { pose proof (FuzzyFacts.cell_middle (done ++ [prev]) pending cur k') as Hc.
          rewrite Hi', <- Hshape in Hc. rewrite Hc. apply Hcur. lia. }
        rewrite !Hup by lia. rewrite Hleft. reflexivity.
      * rewrite app_nth1 by lia. apply Hcur. lia.
Qed.

Lemma levenshteinDistance_exact (a b : list N) :
  levenshteinDistance a b = prefix_distance a b (length b) (length a).
Proof.
  unfold levenshteinDistance, levenshteinMatrix, fill.
  rewrite FuzzyFacts.init_rows_spec. cbn [seq map]. rewrite FuzzyFacts.init_first_row_spec.
  pose proof (FuzzyFacts.foldl_seq_invariant (fill_row a b)
    (fun k m => exists done prev,
       m = done ++ prev :: map (fun i => [i]) (seq k (S (length b) - k))
       /\ S (length done) = k
       /\ row_exact a b (length done) prev (S (length a)))
    (length b) 1) as H.
  destruct (H (seq 0 (S (length a)) :: map (fun i => [i]) (seq 1 (length b))))
    as (done & last & Hm & Hlen & Hrow); clear H.
  - exists [], (seq 0 (S (length a))). split; [| split].
    + cbn [app]. do 3 f_equal. lia.
    + reflexivity.
    + apply row_exact_first.
  - intros k m Hk (done & prev & -> & Hlen & Hprev).
    replace (S (length b) - k) with (S (length b - k)) by lia.
    cbn [seq map]. rewrite <- Hlen.
    destruct (fill_row_exact a b done
                (map (fun i => [i]) (seq (S (S (length done))) (length b - S (length done))))
                prev) as (cur & Hfill & Hcur); [lia | exact Hprev |].
    exists (done ++ [prev]), cur. split; [| split].
    + replace (length b - k) with (length b - S (length done)) by lia.
      rewrite Hfill. rewrite <- app_assoc. reflexivity.
    + rewrite length_app. simpl. lia.
    + replace (length (done ++ [prev])) with (S (length done))
        by (rewrite length_app; simpl; lia).
      exact Hcur.
  - rewrite Hm. replace (S (length b) - (1 + length b)) with 0 by lia.
    cbn [seq map].
    replace (length b) with (length done) at 1 by lia.
    rewrite FuzzyFacts.cell_middle.
    replace (length b) with (length done) by lia.
    apply Hrow. lia.
Qed.

Lemma prefix_distance_sym (a b : list N) :
  forall i j, prefix_distance a b i j = prefix_distance b a j i.
Proof.
  induction i as [| i IHi]; intros j.
  - cbn [prefix_distance]. now rewrite prefix_distance_zero_r.
  - induction j as [| j IHj].
    + now rewrite prefix_distance_zero_r.
    + rewrite !prefix_distance_succ.
      rewrite (IHi j), (IHi (S j)), IHj.
      repeat case_bool_decide; try congruence; unfold min3; lia.
Qed.

Lemma prefix_distance_diag (a : list N) : forall i, prefix_distance a a i i = 0.
Proof.
  induction i as [| i IH]; [reflexivity |].
  rewrite prefix_distance_succ. now rewrite bool_decide_true by reflexivity.
Qed.

Lemma prefix_distance_lower (a b : list N) :
  forall i j, i - j <= prefix_distance a b i j /\ j - i <= prefix_distance a b i j.
Proof.
  induction i as [| i IHi]; intros j.
  - cbn [prefix_distance]. lia.
  - induction j as [| j IHj].
    + rewrite prefix_distance_zero_r. lia.
    + rewrite prefix_distance_succ.
      pose proof (IHi j). pose proof (IHi (S j)).
      case_bool_decide; unfold min3; lia.
Qed.

(** *** Edit distance *)

(** X10.  The edit distance is symmetric. *)
Theorem levenshteinDistance_symmetric :
  forall a b : list N, levenshteinDistance a b = levenshteinDistance b a.
Proof.
  intros a b. rewrite (levenshteinDistance_exact a b), (levenshteinDistance_exact b a).
  apply prefix_distance_sym.
Qed.

(** X11.  The edit distance is 0 exactly between equal strings. *)
Theorem levenshteinDistance_zero_iff_equal :
  forall a b : list N, levenshteinDistance a b = 0 <-> a = b.
Proof.
  intros a b. split.
  - apply FuzzyFacts.levenshteinDistance_bounds.
  - intros ->. rewrite levenshteinDistance_exact. apply prefix_distance_diag.
Qed.

(** X12.  The edit distance lies between the difference of the two lengths
    and the longer length; against the empty string it is the length of the
    other string. *)
Theorem levenshteinDistance_between_lengths :
  forall a b : list N,
    length a - length b <= levenshteinDistance a b
    /\ length b - length a <= levenshteinDistance a b
    /\ levenshteinDistance a b <= Nat.max (length a) (length b)
    /\ levenshteinDistance [] b = length b
    /\ levenshteinDistance a [] = length a.
Proof.
  intros a b.
  pose proof (prefix_distance_lower a b (length b) (length a)) as [H1 H2].
  rewrite <- levenshteinDistance_exact in H1, H2.
  pose proof (FuzzyFacts.levenshteinDistance_bounds a b) as [H3 _].
  repeat split; try assumption.
  - rewrite levenshteinDistance_exact. apply prefix_distance_zero_r.
  - rewrite levenshteinDistance_exact. reflexivity.
Qed.

(** X13.  The similarity does not depend on which string is the expected
    one. *)
Theorem calculateSimilarity_symmetric :
  forall a b : list N, calculateSimilarity a b = calculateSimilarity b a.
Proof.
  intros a b. unfold calculateSimilarity.
  rewrite (levenshteinDistance_exact a b), (levenshteinDistance_exact b a).
  rewrite (prefix_distance_sym a b), (Nat.max_comm (length a) (length b)).
  rewrite (orb_comm (length a =? 0) (length b =? 0)).
  repeat case_bool_decide; try congruence; reflexivity.
Qed.


(** *** The differences *)

Lemma findDifferences_step_spec (e a : list N) (i j : nat) (ds : list Difference) :
  i < length e \/ j < length a ->
  i <= length e -> j <= length a ->
  (exists c, e !! i = Some c /\ a !! j = Some c
             /\ findDifferences_step e a i j ds = (S i, S j, ds))
  \/ (exists d i' j',
        findDifferences_step e a i j ds = (i', j', ds ++ [d])
        /\ e !! i <> a !! j
        /\ difference_ok e a d
        /\ i' <= length e /\ j' <= length a
        /\ ((type d = insert /\ i' = i /\ j' = S j)
            \/ (type d = delete /\ i' = S i /\ j' = j)
            \/ (type d = replace /\ i' = S i /\ j' = S j))).
Proof.
  intros Hcond Hi Hj. unfold findDifferences_step.
  destruct (e !! i) as [x |] eqn:He.
  - pose proof (lookup_lt_Some _ _ _ He) as Hlt.
    destruct (a !! j) as [c |] eqn:Hc.
    + pose proof (lookup_lt_Some _ _ _ Hc) as Hlt'.
      destruct (N.eqb x c) eqn:Hxc.
      * apply N.eqb_eq in Hxc as ->. left. eauto.
      * apply N.eqb_neq in Hxc. right.
        case_bool_decide; [| case_bool_decide].
        -- eexists _, _, _. split; [reflexivity |].
           split; [congruence |]. split; [| split; [lia | split; [lia |]]].
           ++ unfold difference_ok. cbn. rewrite Hc. auto.
           ++ left. auto.
        -- eexists _, _, _. split; [reflexivity |].
           split; [congruence |]. split; [| split; [lia | split; [lia |]]].
           ++ unfold difference_ok. cbn. rewrite He. auto.
           ++ right. left. auto.
        -- eexists _, _, _. split; [reflexivity |].
           split; [congruence |]. split; [| split; [lia | split; [lia |]]].
           ++ unfold difference_ok. cbn. rewrite He.
              split; [lia |]. split; [reflexivity |]. split; [eauto | congruence].
           ++ right. right. auto.
    + pose proof (lookup_ge_None_1 _ _ Hc) as Hge. right.
      eexists _, _, _. split; [reflexivity |].
      split; [congruence |]. split; [| split; [lia | split; [lia |]]].
      * unfold difference_ok. cbn. rewrite He. auto.
      * right. left. auto.
  - pose proof (lookup_ge_None_1 _ _ He) as Hge. right.
    assert (Hlt : j < length a) by lia.
    destruct (lookup_lt_is_Some_2 a j Hlt) as [c Hc].
    eexists _, _, _. split; [reflexivity |].
    split; [congruence |]. split; [| split; [lia | split; [lia |]]].
    + unfold difference_ok. cbn. auto.
    + left. auto.
Qed.

Lemma count_of_cons (t : DifferenceType) (d : Difference) (ds : list Difference) :
  count_of t (d :: ds)
  = (match type d, t with
     | insert, insert | delete, delete | replace, replace => 1
     | _, _ => 0
     end) + count_of t ds.
Proof.
  unfold count_of. cbn [List.filter].
  destruct (type d), t; reflexivity.
Qed.

(** The loop from cursors [i] and [j]: what it appends. *)
Lemma findDifferences_loop_spec (e a : list N) :
  forall (fuel i j : nat) (ds : list Difference),
    i <= length e -> j <= length a ->
    length ds <= i + j ->
    (length e - i) + (length a - j) <= fuel ->
    exists new,
      findDifferences_loop fuel e a (Nat.max (length e) (length a)) i j ds = ds ++ new
      /\ Forall (difference_ok e a) new
      /\ length new <= (length e - i) + (length a - j)
      /\ (length e - i) + count_of insert new = (length a - j) + count_of delete new
      /\ (new = [] <-> drop i e = drop j a).
Proof.
  induction fuel as [| fuel IH]; intros i j ds Hi Hj Hlen Hfuel.
  - exists []. cbn [findDifferences_loop]. rewrite app_nil_r.
    split; [reflexivity |]. split; [constructor |]. split; [simpl; lia |].
    split; [cbn; lia |].
    rewrite !drop_ge by lia. tauto.
  - cbn [findDifferences_loop].
    destruct ((i <? length e) || (j <? length a)) eqn:Hcond.
    + assert (Hlt : i < length e \/ j < length a).
      { apply orb_true_iff in Hcond as [H%Nat.ltb_lt | H%Nat.ltb_lt]; auto. }
      destruct (findDifferences_step_spec e a i j ds Hlt Hi Hj)
        as [(c & He & Ha & ->) | (d & i' & j' & -> & Hne & Hok & Hi' & Hj' & Hkind)].
      * pose proof (lookup_lt_Some _ _ _ He). pose proof (lookup_lt_Some _ _ _ Ha).
        replace (Nat.max (length e) (length a) * 2 <? length ds) with false
          by (symmetry; apply Nat.ltb_ge; lia).
        destruct (IH (S i) (S j) ds) as (new & Hrun & Hall & Hn & Hbal & Hnil); try lia.
        exists new. split; [exact Hrun |]. split; [exact Hall |].
        split; [lia |]. split; [lia |].
        rewrite (drop_S _ _ _ He), (drop_S _ _ _ Ha). rewrite Hnil.
        split; [congruence | now intros [= ->]].
      * assert (Hds' : length (ds ++ [d]) = S (length ds))
          by (rewrite length_app; simpl; lia).
        assert (Hsum : i + j < i' + j') by lia.
        replace (Nat.max (length e) (length a) * 2 <? length (ds ++ [d])) with false
          by (symmetry; apply Nat.ltb_ge; lia).
        destruct (IH i' j' (ds ++ [d])) as (new & Hrun & Hall & Hn & Hbal & Hnil);
          try lia.
        exists (d :: new). split; [rewrite Hrun; now rewrite <- app_assoc |].
        split; [now constructor |].
        split; [simpl; lia |].
        split.
        -- rewrite !count_of_cons.
           destruct Hkind as [(-> & -> & ->) | [(-> & -> & ->) | (-> & -> & ->)]]; lia.
        -- split; [discriminate |].
           intros Hdrop. exfalso. apply Hne.
           pose proof (f_equal (fun l : list N => l !! 0) Hdrop) as H0.
           cbn beta in H0. rewrite !lookup_drop, !Nat.add_0_r in H0. exact H0.
    + apply orb_false_iff in Hcond as [H1%Nat.ltb_ge H2%Nat.ltb_ge].
      exists []. rewrite app_nil_r.
      split; [reflexivity |]. split; [constructor |]. split; [simpl; lia |].
      split; [cbn; lia |].
      rewrite !drop_ge by lia. tauto.
Qed.

Lemma findDifferences_spec (e a : list N) :
  Forall (difference_ok e a) (findDifferences e a)
  /\ length (findDifferences e a) <= length e + length a
  /\ length e + count_of insert (findDifferences e a)
     = length a + count_of delete (findDifferences e a)
  /\ (findDifferences e a = [] <-> e = a).
Proof.
  unfold findDifferences.
  destruct (findDifferences_loop_spec e a (length e + length a) 0 0 [])
    as (new & -> & Hall & Hn & Hbal & Hnil); try (simpl; lia).
  cbn [app]. rewrite !Nat.sub_0_r in *. rewrite !drop_0 in Hnil. auto.
Qed.

(** X14.  [findDifferences] reports no difference exactly when the two
    strings are equal. *)
Theorem findDifferences_empty_iff_equal :
  forall e a : list N, findDifferences e a = [] <-> e = a.
Proof. intros e a. apply findDifferences_spec. Qed.

(** X15.  Every difference that [findDifferences] reports is true of the
    strings: an insert sits at a position of the actual string and carries
    its character, a delete sits at a position of the expected string and
    carries its character, and a replace carries the expected character at
    its position and an actual character different from it. *)
Theorem findDifferences_reports_are_true :
  forall e a : list N, Forall (difference_ok e a) (findDifferences e a).
Proof. intros e a. apply findDifferences_spec. Qed.

(** X16.  [findDifferences] reports at most one difference per character
    of the two strings, so never more than twice the longer length (the
    safety valve of the loop never breaks it), and the inserts and deletes
    account for the difference of the lengths. *)
Theorem findDifferences_counts :
  forall e a : list N,
    length (findDifferences e a) <= length e + length a
    /\ length (findDifferences e a) <= Nat.max (length e) (length a) * 2
    /\ length e + count_of insert (findDifferences e a)
       = length a + count_of delete (findDifferences e a).
Proof.
  intros e a. destruct (findDifferences_spec e a) as (_ & Hlen & Hbal & _).
  split; [exact Hlen |]. split; [lia | exact Hbal].
Qed.


(** *** Matching *)

Lemma tolerance_threshold (d m : nat) :
  0 < m ->
  Qle_bool 0.95 (1 - inject_Z (Z.of_nat d) / inject_Z (Z.of_nat m)) = true
  <-> 20 * d <= m.
Proof.
  intros Hm. rewrite Qle_bool_iff.
  assert (HM : (0 < inject_Z (Z.of_nat m))%Q).
  { change 0%Q with (inject_Z 0). rewrite <- Zlt_Qlt. lia. }
  assert (Hr : (inject_Z (Z.of_nat m)
                * (inject_Z (Z.of_nat d) / inject_Z (Z.of_nat m))
                == inject_Z (Z.of_nat d))%Q).
  { apply Qmult_div_r. lra. }
  assert (Hz : 20 * d <= m
               <-> (20 * inject_Z (Z.of_nat d) <= inject_Z (Z.of_nat m))%Q).
  { change 20%Q with (inject_Z 20). rewrite <- inject_Z_mult, <- Zle_Qle. lia. }
  rewrite Hz. clear Hz.
  set (D := inject_Z (Z.of_nat d)) in *. set (M := inject_Z (Z.of_nat m)) in *.
  set (r := (D / M)%Q) in *. clearbody D M r.
  split; intros H; nra.
Qed.

Lemma fuzzyMatch_fields (toLowerCase : list N -> list N) (e a : list N) :
  normalizedExpected (fuzzyMatch toLowerCase e a) = normalizeKorean toLowerCase e
  /\ normalizedActual (fuzzyMatch toLowerCase e a) = normalizeKorean toLowerCase a.
Proof. unfold fuzzyMatch. case_bool_decide; split; reflexivity. Qed.

Lemma fuzzyMatch_isMatch (toLowerCase : list N -> list N) (e a : list N) :
  isMatch (fuzzyMatch toLowerCase e a) = true
  <-> 20 * levenshteinDistance (normalizeKorean toLowerCase e)
                               (normalizeKorean toLowerCase a)
      <= Nat.max (length (normalizeKorean toLowerCase e))
                 (length (normalizeKorean toLowerCase a)).
Proof.
  unfold fuzzyMatch.
  set (ne := normalizeKorean toLowerCase e). set (na := normalizeKorean toLowerCase a).
  case_bool_decide as Heq; cbn [isMatch].
  - rewrite Heq, levenshteinDistance_exact, prefix_distance_diag. split; [lia | reflexivity].
  - unfold calculateSimilarity. rewrite bool_decide_false by exact Heq.
    pose proof (prefix_distance_lower ne na (length na) (length ne)) as [H1 H2].
    rewrite <- levenshteinDistance_exact in H1, H2.
    destruct ((length ne =? 0) || (length na =? 0)) eqn:Hempty.
    + split; [discriminate |]. intros H. exfalso. apply Heq.
      assert (length ne = 0 /\ length na = 0) as [Hne Hna].
      { apply orb_true_iff in Hempty as [H0%Nat.eqb_eq | H0%Nat.eqb_eq]; lia. }
      apply length_zero_iff_nil in Hne, Hna. congruence.
    + apply orb_false_iff in Hempty as [Hne%Nat.eqb_neq Hna%Nat.eqb_neq].
      apply tolerance_threshold. lia.
Qed.

(** X17.  [fuzzyMatch] accepts an answer exactly when, after normalizing,
    the edit distance is at most a twentieth of the longer length; so when
    both normalized strings are shorter than 20 characters it accepts
    nothing but an exact match. *)
Theorem fuzzyMatch_tolerance :
  forall (toLowerCase : list N -> list N) (e a : list N),
    let ne := normalizeKorean toLowerCase e in
    let na := normalizeKorean toLowerCase a in
    (isMatch (fuzzyMatch toLowerCase e a) = true
     <-> 20 * levenshteinDistance ne na <= Nat.max (length ne) (length na))
    /\ (Nat.max (length ne) (length na) < 20 ->
        (isMatch (fuzzyMatch toLowerCase e a) = true <-> ne = na)).
Proof.
  intros toLowerCase e a ne na.
  split; [apply fuzzyMatch_isMatch |].
  intros Hshort. unfold ne, na in *. rewrite fuzzyMatch_isMatch.
  split.
  - intros H. apply FuzzyFacts.levenshteinDistance_bounds. lia.
  - intros ->. rewrite levenshteinDistance_exact, prefix_distance_diag. lia.
Qed.

Lemma fuzzyMatch_tolerance_witness :
  Nat.max (length (normalizeKorean toLowerCaseASCII (js "Hello World")))
          (length (normalizeKorean toLowerCaseASCII (js "helo world"))) < 20
  /\ (isMatch (fuzzyMatch toLowerCaseASCII (js "Hello World") (js "helo world")) = true
      <-> normalizeKorean toLowerCaseASCII (js "Hello World")
          = normalizeKorean toLowerCaseASCII (js "helo world")).
Proof.
  split; [vm_compute; lia |].
  apply (fuzzyMatch_tolerance toLowerCaseASCII (js "Hello World") (js "helo world")).
  vm_compute. lia.
Defined.

(** X18.  In the result of [fuzzyMatch] the similarity is 1 exactly when
    the normalized strings are equal, and that is exactly when the list of
    differences is empty; an answer accepted by tolerance alone has a
    similarity below 1 and at least one difference. *)
Theorem fuzzyMatch_exact :
  forall (toLowerCase : list N -> list N) (e a : list N),
    let r := fuzzyMatch toLowerCase e a in
    ((similarity r == 1)%Q <-> normalizedExpected r = normalizedActual r)
    /\ (differences r = [] <-> normalizedExpected r = normalizedActual r)
    /\ (similarity r <= 1)%Q.
Proof.
  intros toLowerCase e a r.
  destruct (fuzzyMatch_fields toLowerCase e a) as [He Ha].
  fold r in He, Ha. rewrite He, Ha.
  unfold r, fuzzyMatch.
  set (ne := normalizeKorean toLowerCase e). set (na := normalizeKorean toLowerCase a).
  case_bool_decide as Heq; cbn [similarity differences].
  - split; [| split]; [split; [intros _; exact Heq | reflexivity]
                      | split; [intros _; exact Heq | reflexivity] | lra].
  - assert (Hlt : (calculateSimilarity ne na < 1)%Q).
    { unfold calculateSimilarity. rewrite bool_decide_false by exact Heq.
      destruct ((length ne =? 0) || (length na =? 0)); [lra |].
      pose proof (FuzzyFacts.levenshteinDistance_bounds ne na) as [Hle Hz].
      apply FuzzyFacts.similarity_ratio.
      destruct (levenshteinDistance ne na); [now exfalso; apply Heq, Hz | lia]. }
    split; [| split].
    + split; [intros H; lra | intros H; contradiction].
    + apply findDifferences_spec.
    + lra.
Qed.


(** *** The diff markup *)

Lemma span_length (class : string) (c : N) : 2 <= length (span class c).
Proof. unfold span. rewrite !length_app. cbn [length]. lia. Qed.

Lemma expected_piece_spec (t : list N) (i : nat) (c : N) :
  1 <= length (expected_piece t i c)
  /\ (expected_piece t i c = [c] <-> t !! i = Some c).
Proof.
  unfold expected_piece. destruct (t !! i) as [x |].
  - destruct (N.eqb c x) eqn:Hcx.
    + apply N.eqb_eq in Hcx as ->. cbn. split; [lia | tauto].
    + apply N.eqb_neq in Hcx. pose proof (span_length "diff-change" c) as Hs.
      split; [lia |]. split; [| congruence].
      intros H. rewrite H in Hs. cbn in Hs. lia.
  - pose proof (span_length "diff-delete" c) as Hs.
    split; [lia |]. split; [| discriminate].
    intros H. rewrite H in Hs. cbn in Hs. lia.
Qed.

Lemma actual_piece_spec (t : list N) (i : nat) (c : N) :
  1 <= length (actual_piece t i c)
  /\ (actual_piece t i c = [c] <-> t !! i = Some c).
Proof.
  unfold actual_piece. destruct (t !! i) as [x |].
  - destruct (N.eqb c x) eqn:Hcx.
    + apply N.eqb_eq in Hcx as ->. cbn. split; [lia | tauto].
    + apply N.eqb_neq in Hcx. pose proof (span_length "diff-wrong" c) as Hs.
      split; [lia |]. split; [| congruence].
      intros H. rewrite H in Hs. cbn in Hs. lia.
  - pose proof (span_length "diff-insert" c) as Hs.
    split; [lia |]. split; [| discriminate].
    intros H. rewrite H in Hs. cbn in Hs. lia.
Qed.

(** A loop that appends one piece per character leaves the string as it is
    exactly when every piece is the character itself. *)
Lemma markup_spec (s t : list N) (piece : nat -> N -> list N) :
  (forall i c, 1 <= length (piece i c) /\ (piece i c = [c] <-> t !! i = Some c)) ->
  forall n, n <= length s ->
    n <= length (foldl (fun html i => html ++ from_option (piece i) [] (s !! i))
                       [] (seq 0 n))
    /\ (foldl (fun html i => html ++ from_option (piece i) [] (s !! i)) [] (seq 0 n)
        = take n s
        <-> forall i, i < n -> t !! i = s !! i).
Proof.
  intros Hpiece. induction n as [| n IH]; intros Hn.
  - cbn. split; [lia |]. split; [intros _ i Hi; lia | reflexivity].
  - destruct IH as [IHlen IHeq]; [lia |].
    rewrite seq_S, foldl_app. cbn [foldl Nat.add].
    set (html := foldl (fun html i => html ++ from_option (piece i) [] (s !! i))
                       [] (seq 0 n)) in *.
    destruct (lookup_lt_is_Some_2 s n) as [c Hc]; [lia |].
    rewrite Hc. cbn [from_option]. rewrite (take_S_r _ _ _ Hc).
    destruct (Hpiece n c) as [Hplen Hpeq].
    split; [rewrite length_app; lia |].
    split.
    + intros H.
      assert (Hl : length (html ++ piece n c) = length (take n s ++ [c])) by now rewrite H.
      rewrite !length_app, length_take in Hl. cbn [length] in Hl.
      apply app_inj_2 in H as [H1 H2]; [| cbn [length]; lia].
      intros i Hi. destruct (decide (i = n)) as [-> | Hne].
      * rewrite Hc. now apply Hpeq.
      * apply IHeq; [exact H1 | lia].
    + intros H. f_equal.
      * apply IHeq. intros i Hi. apply H. lia.
      * apply Hpeq. rewrite <- Hc. apply H. lia.
Qed.

Lemma prefix_pointwise (s t : list N) :
  (forall i, i < length s -> t !! i = s !! i) <-> s `prefix_of` t.
Proof.
  split.
  - intros H. exists (drop (length s) t).
    rewrite <- (take_drop (length s) t) at 1. f_equal.
    apply list_eq. intros i. destruct (decide (i < length s)) as [Hi | Hi].
    + rewrite lookup_take_lt by exact Hi. now apply H.
    + rewrite lookup_take_ge by lia. symmetry. apply lookup_ge_None. lia.
  - intros [k ->] i Hi. now rewrite lookup_app_l.
Qed.

Lemma prefix_both_ways (s t : list N) : s `prefix_of` t -> t `prefix_of` s -> s = t.
Proof.
  intros [k ->] [k' H].
  assert (Hl : length s = length ((s ++ k) ++ k')) by now rewrite <- H.
  rewrite !length_app in Hl.
  assert (k = []) as -> by (apply length_zero_iff_nil; lia).
  now rewrite app_nil_r.
Qed.

Lemma fuzzyMatch_exact_similarity (toLowerCase : list N -> list N) (e a : list N) :
  (similarity (fuzzyMatch toLowerCase e a) == 1)%Q
  <-> normalizeKorean toLowerCase e = normalizeKorean toLowerCase a.
Proof.
  unfold fuzzyMatch.
  set (ne := normalizeKorean toLowerCase e). set (na := normalizeKorean toLowerCase a).
  case_bool_decide as Heq; cbn [similarity].
  - split; [intros _; exact Heq | reflexivity].
  - assert (Hlt : (calculateSimilarity ne na < 1)%Q).
    { unfold calculateSimilarity. rewrite bool_decide_false by exact Heq.
      destruct ((length ne =? 0) || (length na =? 0)); [lra |].
      pose proof (FuzzyFacts.levenshteinDistance_bounds ne na) as [Hle Hz].
      apply FuzzyFacts.similarity_ratio.
      destruct (levenshteinDistance ne na); [now exfalso; apply Heq, Hz | lia]. }
    split; [intros H; lra | intros H; contradiction].
Qed.

(** X19.  [generateDiffHtml] hands back the two raw strings exactly as
    given when they are equal after normalizing.  Otherwise it marks up the
    normalized strings, copying each character as it is: the expected
    side comes out unmarked only if the normalized expected string is a
    beginning of the normalized answer, the answer side only if the
    normalized answer is a beginning of the expected string, so at least
    one side carries a mark. *)
Theorem generateDiffHtml_marks_a_difference :
  forall (toLowerCase : list N -> list N) (e a : list N),
    let ne := normalizeKorean toLowerCase e in
    let na := normalizeKorean toLowerCase a in
    let html := generateDiffHtml toLowerCase e a in
    (ne = na -> html = mkDiffHtml e a)
    /\ (ne <> na ->
        (expectedHtml html = ne <-> ne `prefix_of` na)
        /\ (actualHtml html = na <-> na `prefix_of` ne)
        /\ (expectedHtml html <> ne \/ actualHtml html <> na)).
Proof.
  intros toLowerCase e a ne na html.
  pose proof (fuzzyMatch_exact_similarity toLowerCase e a) as Hsim.
  destruct (fuzzyMatch_fields toLowerCase e a) as [He Ha].
  fold ne in He, Hsim. fold na in Ha, Hsim.
  unfold html, generateDiffHtml. rewrite He, Ha.
  split.
  - intros Heq.
    replace (isMatch (fuzzyMatch toLowerCase e a)
             && Qeq_bool (similarity (fuzzyMatch toLowerCase e a)) 1) with true;
      [reflexivity |].
    symmetry. apply andb_true_iff. split.
    + apply fuzzyMatch_isMatch. fold ne na.
      rewrite Heq, levenshteinDistance_exact, prefix_distance_diag. lia.
    + apply Qeq_bool_iff, Hsim, Heq.
  - intros Hne.
    replace (isMatch (fuzzyMatch toLowerCase e a)
             && Qeq_bool (similarity (fuzzyMatch toLowerCase e a)) 1) with false.
    2:{ symmetry. apply andb_false_iff. right.
        destruct (Qeq_bool (similarity (fuzzyMatch toLowerCase e a)) 1) eqn:Hq;
          [| reflexivity].
        exfalso. apply Hne, Hsim, Qeq_bool_iff, Hq. }
    cbn [expectedHtml actualHtml].
    destruct (markup_spec ne na (expected_piece na) (expected_piece_spec na)
                (length ne) (le_n _)) as [_ Hexp].
    destruct (markup_spec na ne (actual_piece ne) (actual_piece_spec ne)
                (length na) (le_n _)) as [_ Hact].
    rewrite firstn_all in Hexp, Hact.
    rewrite prefix_pointwise in Hexp, Hact.
    split; [exact Hexp |]. split; [exact Hact |].
    destruct (decide (ne `prefix_of` na)) as [Hp | Hp].
    + right. intros H. apply Hne, prefix_both_ways; [exact Hp | now apply Hact].
    + left. intros H. now apply Hp, Hexp.
Qed.

Lemma generateDiffHtml_marks_a_difference_witness :
  normalizeKorean toLowerCaseASCII (js "abc") <> normalizeKorean toLowerCaseASCII (js "abd")
  /\ (expectedHtml (generateDiffHtml toLowerCaseASCII (js "abc") (js "abd"))
      <> normalizeKorean toLowerCaseASCII (js "abc")
      \/ actualHtml (generateDiffHtml toLowerCaseASCII (js "abc") (js "abd"))
         <> normalizeKorean toLowerCaseASCII (js "abd")).
Proof.
  assert (H : normalizeKorean toLowerCaseASCII (js "abc")
              <> normalizeKorean toLowerCaseASCII (js "abd"))
    by (vm_compute; discriminate).
  split; [exact H |].
  apply (generateDiffHtml_marks_a_difference toLowerCaseASCII (js "abc") (js "abd")).
  exact H.
Defined.


(** *** The confusion tips *)

(** The table pairs its vowels in both directions, and never a vowel with
    itself; its keys lie between U+3150 and U+315D. *)
Lemma COMMON_CONFUSIONS_involution (x y : N) :
  COMMON_CONFUSIONS !! x = Some y ->
  COMMON_CONFUSIONS !! y = Some x /\ x <> y /\ (0x3150 <= x <= 0x315D)%N.
Proof.
  unfold COMMON_CONFUSIONS. cbn [list_to_map foldr uncurry fst snd].
  rewrite !lookup_insert, lookup_empty.
  repeat (case_decide; [subst x; intros [= <-]; vm_compute;
                        split; [reflexivity | split; [discriminate | split; discriminate]] |]).
  discriminate.
Qed.

Lemma confusion_at_None_sym (e a : list N) (i : nat) :
  confusion_at e a i = None -> confusion_at a e i = None.
Proof.
  unfold confusion_at.
  destruct (e !! i) as [x |], (a !! i) as [y |]; try reflexivity.
  destruct (negb (N.eqb y x) && bool_decide (COMMON_CONFUSIONS !! y = Some x)) eqn:H;
    [| reflexivity].
  apply andb_true_iff in H as [_ H%bool_decide_eq_true].
  destruct (COMMON_CONFUSIONS_involution y x H) as (Hxy & Hne & _).
  rewrite (bool_decide_true _ Hxy).
  replace (N.eqb x y) with false by (symmetry; apply N.eqb_neq; congruence).
  discriminate.
Qed.

Lemma first_confusion_None (e a : list N) (positions : list nat) :
  first_confusion e a positions = None
  <-> forall i, i ∈ positions -> confusion_at e a i = None.
Proof.
  induction positions as [| i rest IH]; cbn [first_confusion].
  - split; [intros _ i Hi; inversion Hi | reflexivity].
  - destruct (confusion_at e a i) eqn:Hi.
    + split; [discriminate |]. intros H.
      rewrite <- Hi. apply H. left.
    + rewrite IH. split.
      * intros H k Hk. apply elem_of_cons in Hk as [-> | Hk]; [exact Hi | now apply H].
      * intros H k Hk. apply H. now right.
Qed.

(** X20.  [getConfusionTip] gives a tip for an answer against an expected
    string exactly when it gives one with the two strings exchanged, and it
    gives none for a string against itself. *)
Theorem getConfusionTip_symmetric :
  forall e a : list N,
    (getConfusionTip e a = None <-> getConfusionTip a e = None)
    /\ getConfusionTip e e = None.
Proof.
  intros e a. unfold getConfusionTip. split.
  - rewrite (Nat.min_comm (length a) (length e)), !first_confusion_None.
    split; intros H i Hi; apply confusion_at_None_sym, H, Hi.
  - apply first_confusion_None. intros i _. unfold confusion_at.
    destruct (e !! i) as [x |]; [| reflexivity].
    now rewrite N.eqb_refl.
Qed.

(** X21.  A tip names a position where the two strings hold different
    vowels that the table pairs, both of them single compatibility jamo
    between U+3150 and U+315D.  So there is never a tip when the expected
    string or the answer holds none of these, as in a text made of composed
    syllables only. *)
Theorem getConfusionTip_needs_a_bare_vowel :
  forall e a : list N,
    (forall tip, getConfusionTip e a = Some tip ->
       exists i exp act,
         e !! i = Some exp /\ a !! i = Some act /\ exp <> act
         /\ COMMON_CONFUSIONS !! exp = Some act
         /\ (0x3150 <= exp <= 0x315D)%N /\ (0x3150 <= act <= 0x315D)%N
         /\ tip = confusion_message act exp)
    /\ (Forall (fun c => (c < 0x3150 \/ 0x315D < c)%N) e
        \/ Forall (fun c => (c < 0x3150 \/ 0x315D < c)%N) a ->
        getConfusionTip e a = None).
Proof.
  intros e a.
  assert (Hsound : forall positions tip,
            first_confusion e a positions = Some tip ->
            exists i exp act,
              e !! i = Some exp /\ a !! i = Some act /\ exp <> act
              /\ COMMON_CONFUSIONS !! exp = Some act
              /\ (0x3150 <= exp <= 0x315D)%N /\ (0x3150 <= act <= 0x315D)%N
              /\ tip = confusion_message act exp).
  { induction positions as [| i rest IH]; intros tip; cbn [first_confusion];
      [discriminate |].
    destruct (confusion_at e a i) as [t |] eqn:Hi; [| apply IH].
    intros [= <-]. unfold confusion_at in Hi.
    destruct (e !! i) as [x |] eqn:Hx; [| discriminate].
    destruct (a !! i) as [y |] eqn:Hy; [| discriminate].
    destruct (negb (N.eqb x y) && bool_decide (COMMON_CONFUSIONS !! x = Some y)) eqn:H;
      [| discriminate].
    apply andb_true_iff in H as [_ H%bool_decide_eq_true].
    injection Hi as <-.
    destruct (COMMON_CONFUSIONS_involution x y H) as (Hyx & Hne & Hrx).
    destruct (COMMON_CONFUSIONS_involution y x Hyx) as (_ & _ & Hry).
    exists i, x, y. repeat split; solve [assumption | apply Hrx | apply Hry]. }
  split; [intros tip; apply Hsound |].
  intros Hnone.
  destruct (getConfusionTip e a) as [tip |] eqn:Htip; [| reflexivity].
  exfalso. destruct (Hsound _ _ Htip) as (i & x & y & Hx & Hy & _ & _ & Hrx & Hry & _).
  destruct Hnone as [H | H]; rewrite Forall_lookup in H.
  - specialize (H i x Hx). cbn beta in H. lia.
  - specialize (H i y Hy). cbn beta in H. lia.
Qed.

Lemma getConfusionTip_needs_a_bare_vowel_witness :
  getConfusionTip [0xB124; 0xAC00]%N [0xB0B4; 0xAC00]%N = None.
Proof.
  apply (getConfusionTip_needs_a_bare_vowel [0xB124; 0xAC00]%N [0xB0B4; 0xAC00]%N).
  left. repeat constructor; right; reflexivity.
Defined.

End FuzzyMore.

Module ReviewPageFacts.
Import JS ReviewPage.
Local Open Scope Q_scope.

Lemma Math_round_threshold (n : Z) (x : Q) :
  inject_Z n <= Math_round x <-> inject_Z n - (1 # 2) <= x.
Proof.
  unfold Math_round. rewrite <- Zle_Qle. split.
  - intros H. rewrite Zle_Qle in H.
    pose proof (Qfloor_le (x + (1 # 2))). lra.
  - intros H. rewrite <- (Qfloor_Z n). apply Qfloor_resp_le. lra.
Qed.

(** The rounded percentage against a whole threshold. *)
Lemma percent_threshold (d l : nat) (n k : Z) :
  (0 < l)%nat -> (k = 201 - 2 * n)%Z ->
  inject_Z n
  <= Math_round ((inject_Z (Z.of_nat l) - inject_Z (Z.of_nat d))
                 / inject_Z (Z.of_nat l) * 100)
  <-> (200 * Z.of_nat d <= k * Z.of_nat l)%Z.
Proof.
  intros Hl ->. rewrite Math_round_threshold.
  assert (HL : 0 < inject_Z (Z.of_nat l)).
  { change 0 with (inject_Z 0). rewrite <- Zlt_Qlt. lia. }
  assert (Hr : inject_Z (Z.of_nat l)
               * ((inject_Z (Z.of_nat l) - inject_Z (Z.of_nat d)) / inject_Z (Z.of_nat l))
               == inject_Z (Z.of_nat l) - inject_Z (Z.of_nat d)).
  { apply Qmult_div_r. lra. }
  unfold Z.sub.
  rewrite Zle_Qle, !inject_Z_mult, inject_Z_plus, inject_Z_opp, inject_Z_mult.
  change (inject_Z 200) with 200. change (inject_Z 201) with 201.
  change (inject_Z 2) with 2.
  set (D := inject_Z (Z.of_nat d)) in *. set (L := inject_Z (Z.of_nat l)) in *.
  set (q := (L - D) / L) in *. set (N := inject_Z n). clearbody D L q N.
  assert (Hq : 200 * D == 200 * L - 200 * (L * q)) by (rewrite Hr; ring).
  split; intros H.
  - assert (0 <= L * (q * 100 - (N - (1 # 2)))) by (apply Qmult_le_0_compat; lra).
    nra.
  - destruct (Qlt_le_dec (q * 100) (N - (1 # 2))) as [Hlt | Hge]; [| exact Hge].
    assert (0 < L * ((N - (1 # 2)) - q * 100)) by (apply Qmult_lt_0_compat; lra).
    nra.
Qed.

Lemma page_similarity_unfold (toLowerCase : list N -> list N) (str1 str2 : list N) :
  normalizeKorean toLowerCase str1 <> normalizeKorean toLowerCase str2 ->
  let s1 := normalizeKorean toLowerCase str1 in
  let s2 := normalizeKorean toLowerCase str2 in
  let l := Nat.max (length s1) (length s2) in
  (0 < l)%nat
  /\ (1 <= Fuzzy.levenshteinDistance s1 s2 <= l)%nat
  /\ calculateSimilarity toLowerCase str1 str2
     = Math_round ((inject_Z (Z.of_nat l)
                    - inject_Z (Z.of_nat (Fuzzy.levenshteinDistance s1 s2)))
                   / inject_Z (Z.of_nat l) * 100).
Proof.
  intros Hne s1 s2 l. unfold calculateSimilarity. fold s1 s2.
  rewrite bool_decide_false by exact Hne.
  assert (Hlonger : length (if (length s2 <? length s1)%nat then s1 else s2) = l).
  { unfold l. destruct (length s2 <? length s1)%nat eqn:H.
    - apply Nat.ltb_lt in H. lia.
    - apply Nat.ltb_ge in H. lia. }
  rewrite !Hlonger.
  assert (Hl : (0 < l)%nat).
  { destruct (Nat.eq_dec l 0%nat) as [H0 | H0]; [| lia].
    exfalso. apply Hne. fold s1 s2.
    assert (H1 : length s1 = 0%nat) by (unfold l in H0; lia).
    assert (H2 : length s2 = 0%nat) by (unfold l in H0; lia).
    apply length_zero_iff_nil in H1, H2. congruence. }
  pose proof (FuzzyFacts.levenshteinDistance_bounds s1 s2) as [Hle Hz].
  split; [exact Hl |]. split.
  - fold l in Hle. split; [| exact Hle].
    destruct (Fuzzy.levenshteinDistance s1 s2); [now exfalso; apply Hne, Hz | lia].
  - replace (l =? 0)%nat with false by (symmetry; apply Nat.eqb_neq; lia).
    reflexivity.
Qed.

(** X22.  The similarity of the typing page is a whole percentage between
    0 and 100.  It is 100 not only for answers equal after normalizing but
    whenever the edit distance is at most a two-hundredth of the longer
    length. *)
Theorem page_similarity_percent :
  forall (toLowerCase : list N -> list N) (str1 str2 : list N),
    let s1 := normalizeKorean toLowerCase str1 in
    let s2 := normalizeKorean toLowerCase str2 in
    (exists z : Z, calculateSimilarity toLowerCase str1 str2 = inject_Z z
                   /\ (0 <= z <= 100)%Z)
    /\ (calculateSimilarity toLowerCase str1 str2 == 100
        <-> (200 * Fuzzy.levenshteinDistance s1 s2
             <= Nat.max (length s1) (length s2))%nat).
Proof.
  intros toLowerCase str1 str2 s1 s2.
  destruct (decide (s1 = s2)) as [Heq | Hne].
  - unfold calculateSimilarity. fold s1 s2. rewrite bool_decide_true by exact Heq.
    split; [exists 100%Z; split; [reflexivity | lia] |].
    rewrite Heq, FuzzyMore.levenshteinDistance_exact, FuzzyMore.prefix_distance_diag.
    split; [lia | reflexivity].
  - destruct (page_similarity_unfold toLowerCase str1 str2 Hne) as (Hl & Hd & ->).
    fold s1 s2 in Hl, Hd |- *.
    set (l := Nat.max (length s1) (length s2)) in *.
    set (d := Fuzzy.levenshteinDistance s1 s2) in *.
    pose proof (percent_threshold d l 0 201 Hl eq_refl) as H0.
    pose proof (percent_threshold d l 100 1 Hl eq_refl) as H100.
    pose proof (percent_threshold d l 101 (-1) Hl eq_refl) as H101.
    set (x := (inject_Z (Z.of_nat l) - inject_Z (Z.of_nat d))
              / inject_Z (Z.of_nat l) * 100) in *.
    assert (Hlo : inject_Z 0 <= Math_round x) by (apply H0; lia).
    assert (Hhi : ~ inject_Z 101 <= Math_round x) by (rewrite H101; lia).
    split.
    + exists (Qfloor (x + (1 # 2))). split; [reflexivity |].
      unfold Math_round in Hlo, Hhi. rewrite <- Zle_Qle in Hlo, Hhi. lia.
    + split.
      * intros H. assert (H' : inject_Z 100 <= Math_round x)
          by (rewrite H; apply Qle_refl).
        apply H100 in H'. lia.
      * intros H. assert (H' : inject_Z 100 <= Math_round x) by (apply H100; lia).
        unfold Math_round in *. rewrite <- Zle_Qle in H', Hhi.
        assert (Qfloor (x + (1 # 2)) = 100%Z) as -> by lia. reflexivity.
Qed.

(** X23.  [handleCheck] does nothing on an answer that is blank after
    trimming; otherwise it marks the answer correct exactly when 200 times
    the edit distance of the normalized strings is at most 11 times the
    longer length, that is from 94.5 percent on: the rounding lets through
    one wrong character in 19, which the 5 percent of [fuzzyMatch] does
    not. *)
Theorem handleCheck_threshold :
  forall (toLowerCase : list N -> list N) (userAnswer correctAnswer : list N),
    let s1 := normalizeKorean toLowerCase userAnswer in
    let s2 := normalizeKorean toLowerCase correctAnswer in
    (handleCheck toLowerCase userAnswer correctAnswer = None
     <-> Fuzzy.trim userAnswer = [])
    /\ (forall r, handleCheck toLowerCase userAnswer correctAnswer = Some r ->
          (isCorrect r = true
           <-> (200 * Fuzzy.levenshteinDistance s1 s2
                <= 11 * Nat.max (length s1) (length s2))%nat)).
Proof.
  intros toLowerCase userAnswer correctAnswer s1 s2. unfold handleCheck.
  case_bool_decide as Hblank.
  - split; [tauto | discriminate].
  - split; [split; [discriminate | contradiction] |].
    intros r [= <-]. cbn [isCorrect]. rewrite Qle_bool_iff.
    destruct (decide (s1 = s2)) as [Heq | Hne].
    + unfold calculateSimilarity. fold s1 s2. rewrite bool_decide_true by exact Heq.
      rewrite Heq, FuzzyMore.levenshteinDistance_exact, FuzzyMore.prefix_distance_diag.
      split; [lia | intros _; lra].
    + destruct (page_similarity_unfold toLowerCase userAnswer correctAnswer Hne)
        as (Hl & Hd & ->).
      fold s1 s2 in Hl, Hd |- *.
      change 95 with (inject_Z 95).
      rewrite (percent_threshold _ _ 95 11 Hl eq_refl). lia.
Qed.

Lemma handleCheck_threshold_witness :
  exists r,
    handleCheck Fuzzy.toLowerCaseASCII (Fuzzy.js "abcdefghijklmnopqrs")
                (Fuzzy.js "abcdefghijklmnopqrX") = Some r
    /\ isCorrect r = true
    /\ Fuzzy.isMatch (Fuzzy.fuzzyMatch Fuzzy.toLowerCaseASCII
                        (Fuzzy.js "abcdefghijklmnopqrX")
                        (Fuzzy.js "abcdefghijklmnopqrs")) = false.
Proof.
  destruct (handleCheck_threshold Fuzzy.toLowerCaseASCII
              (Fuzzy.js "abcdefghijklmnopqrs") (Fuzzy.js "abcdefghijklmnopqrX"))
    as [_ H].
  destruct (handleCheck Fuzzy.toLowerCaseASCII (Fuzzy.js "abcdefghijklmnopqrs")
              (Fuzzy.js "abcdefghijklmnopqrX")) as [r |] eqn:E;
    [| vm_compute in E; discriminate].
  exists r. split; [reflexivity |]. split; [| vm_compute; reflexivity].
  apply (H r eq_refl). vm_compute. lia.
Defined.


Lemma charDiff_loop_spec (user correct0 : list N) :
  forall n, (n <= Nat.max (length user) (length correct0))%nat ->
    let diffs := foldl (fun diffs i => diffs ++ charDiff_at user correct0 i)
                       [] (seq 0 n) in
    length diffs = n
    /\ (Forall (fun d => type d = correct) diffs
        <-> forall i, (i < n)%nat -> is_Some (user !! i) /\ user !! i = correct0 !! i).
Proof.
  induction n as [| n IH]; intros Hn.
  - cbn. split; [reflexivity |]. split; [intros _ i Hi; lia | constructor].
  - destruct IH as [IHlen IHall]; [lia |].
    cbn zeta. rewrite seq_S, foldl_app. cbn [foldl Nat.add].
    set (diffs := foldl (fun diffs i => diffs ++ charDiff_at user correct0 i)
                        [] (seq 0 n)) in *.
    assert (Hone : exists d, charDiff_at user correct0 n = [d]
                     /\ (type d = correct
                         <-> is_Some (user !! n) /\ user !! n = correct0 !! n)).
    { unfold charDiff_at.
      destruct (user !! n) as [x |] eqn:Hx, (correct0 !! n) as [y |] eqn:Hy.
      - destruct (N.eqb x y) eqn:Hxy.
        + apply N.eqb_eq in Hxy as ->. eexists. split; [reflexivity |]. cbn.
          split; [intros _; split; [eauto | reflexivity] | reflexivity].
        + apply N.eqb_neq in Hxy. eexists. split; [reflexivity |]. cbn.
          split; [discriminate | intros [_ H]; congruence].
      - eexists. split; [reflexivity |]. cbn.
        split; [discriminate | intros [_ H]; discriminate].
      - eexists. split; [reflexivity |]. cbn.
        split; [discriminate | intros [_ H]; discriminate].
      - apply lookup_ge_None in Hx, Hy. lia. }
    destruct Hone as (d & -> & Hd).
    split; [rewrite length_app; cbn [length]; lia |].
    rewrite Forall_app, Forall_singleton, IHall, Hd.
    split.
    + intros [H1 H2] i Hi. destruct (decide (i = n)) as [-> | Hne];
        [exact H2 | apply H1; lia].
    + intros H. split; [intros i Hi; apply H; lia | apply H; lia].
Qed.

(** X24.  [generateCharDiff] yields one entry per position up to the
    longer of the two normalized strings, and all entries are of type
    correct exactly when the normalized strings are equal. *)
Theorem generateCharDiff_entries :
  forall (toLowerCase : list N -> list N) (userAnswer correctAnswer : list N),
    let user := normalizeKorean toLowerCase userAnswer in
    let correct0 := normalizeKorean toLowerCase correctAnswer in
    length (generateCharDiff toLowerCase userAnswer correctAnswer)
    = Nat.max (length user) (length correct0)
    /\ (Forall (fun d => type d = correct)
               (generateCharDiff toLowerCase userAnswer correctAnswer)
        <-> user = correct0).
Proof.
  intros toLowerCase userAnswer correctAnswer user correct0.
  unfold generateCharDiff. fold user correct0.
  destruct (charDiff_loop_spec user correct0 _ (le_n _)) as [Hlen Hall].
  split; [exact Hlen |]. rewrite Hall. split.
  - intros H. apply list_eq. intros i.
    destruct (decide (i < Nat.max (length user) (length correct0))%nat) as [Hi | Hi].
    + now apply H.
    + rewrite !(proj2 (lookup_ge_None _ _)) by lia. reflexivity.
  - intros <- i Hi. split; [| reflexivity].
    apply lookup_lt_is_Some. lia.
Qed.

End ReviewPageFacts.

Module UsefulnessMore.
Import JS Usefulness UsefulnessSpec.
Local Open Scope string_scope.
Local Open Scope list_scope.
Local Open Scope Q_scope.

(** *** The tags *)

Lemma foldl_weight_sum (Number_toString : Q -> string) (weights : gmap string Q)
    (tags : list string) :
  forall acc,
    fst (foldl (getTagScore_step Number_toString weights) acc tags)
    == fst acc + weight_sum weights tags.
Proof.
  induction tags as [| tag tags IH]; intros acc; cbn [foldl weight_sum].
  - ring.
  - rewrite IH. unfold getTagScore_step. destruct acc as [rawScore reasons].
    destruct (weights !! tag) as [weight |]; cbn [fst default from_option id]; ring.
Qed.

Lemma rawTagScore_weight_sum (Number_toString : Q -> string)
    (tags : list string) (weights : gmap string Q) :
  rawTagScore Number_toString tags weights == weight_sum weights tags.
Proof.
  unfold rawTagScore. rewrite foldl_weight_sum. cbn [fst]. ring.
Qed.

Lemma clamp_compat (x y : Q) :
  x == y ->
  Math_max (- MAX_TAG_IMPACT) (Math_min MAX_TAG_IMPACT x)
  == Math_max (- MAX_TAG_IMPACT) (Math_min MAX_TAG_IMPACT y).
Proof.
  intros H. unfold Math_max, Math_min. now rewrite H.
Qed.

Lemma getTagScore_score_sum (Number_toString : Q -> string)
    (tags : list string) (weights : gmap string Q) :
  score (getTagScore Number_toString tags weights)
  == Math_max (- MAX_TAG_IMPACT) (Math_min MAX_TAG_IMPACT (weight_sum weights tags)).
Proof.
  rewrite UsefulnessFacts.getTagScore_score.
  apply clamp_compat, rawTagScore_weight_sum.
Qed.

Lemma clamp_cases (x : Q) :
  let c := Math_max (- MAX_TAG_IMPACT) (Math_min MAX_TAG_IMPACT x) in
  -30 <= c <= 30
  /\ (-30 <= x <= 30 -> c == x)
  /\ (30 <= x -> c == 30)
  /\ (x <= -30 -> c == -30).
Proof.
  cbn zeta. unfold Math_max, Math_min, MAX_TAG_IMPACT.
  destruct (Q.min_spec 30 x) as [[L1 E1] | [L1 E1]];
    destruct (Q.max_spec (- 30) (Qmin 30 x)) as [[L2 E2] | [L2 E2]];
    rewrite E2; rewrite ?E1 in *; repeat split; intros; lra.
Qed.

(** On the own keys of the table the tags contribute the sum of their
    weights, held within -30 and 30; when the sum lies outside, the last
    reason says that the tag score was capped. *)
Lemma getTagScore_own_keys :
  forall (Number_toString : Q -> string) (tags : list string) (weights : gmap string Q),
    let result := getTagScore Number_toString tags weights in
    let sum := weight_sum weights tags in
    -30 <= score result <= 30
    /\ (-30 <= sum <= 30 -> score result == sum)
    /\ (30 <= sum -> score result == 30)
    /\ (sum <= -30 -> score result == -30)
    /\ (sum < -30 \/ 30 < sum ->
        last (reasons result)
        = Some ("tag score capped at ±" +:+ Number_toString MAX_TAG_IMPACT)).
Proof.
  intros nts tags weights result sum.
  pose proof (getTagScore_score_sum nts tags weights) as Hs. fold result sum in Hs.
  destruct (clamp_cases sum) as (Hrange & Hin & Hhi & Hlo). cbn zeta in *.
  split; [rewrite Hs; exact Hrange |].
  split; [intros H; rewrite Hs; now apply Hin |].
  split; [intros H; rewrite Hs; now apply Hhi |].
  split; [intros H; rewrite Hs; now apply Hlo |].
  intros Hout. unfold result, getTagScore.
  pose proof (rawTagScore_weight_sum nts tags weights) as Hraw. fold sum in Hraw.
  unfold rawTagScore in Hraw.
  destruct (foldl (getTagScore_step nts weights) (0, []) tags) as [rawScore rs].
  cbn [fst] in Hraw. cbn [reasons].
  destruct (Qeq_bool rawScore
              (Math_max (- MAX_TAG_IMPACT) (Math_min MAX_TAG_IMPACT rawScore))) eqn:Hq.
  - exfalso. apply Qeq_bool_iff in Hq.
    rewrite (clamp_compat rawScore sum Hraw) in Hq. rewrite Hraw in Hq. lra.
  - apply last_snoc.
Qed.

Lemma weight_sum_Permutation (weights : gmap string Q) (tags tags' : list string) :
  tags ≡ₚ tags' -> weight_sum weights tags == weight_sum weights tags'.
Proof.
  induction 1 as [| tag tags tags' _ IH | x y tags | tags1 tags2 tags3 _ IH1 _ IH2];
    cbn [weight_sum].
  - reflexivity.
  - now rewrite IH.
  - ring.
  - now rewrite IH1.
Qed.

(** X26.  The order of the tags of a card does not change its score (the
    sums being exact). *)
Theorem tag_order_is_irrelevant :
  forall (Number_toString : Q -> string) (card : CardInput)
         (config : option PartialScoringConfig) (tags1 tags2 : list string),
    tags1 ≡ₚ tags2 ->
    score (calculateUsefulness Number_toString (with_tags card tags1) config)
    = score (calculateUsefulness Number_toString (with_tags card tags2) config).
Proof.
  intros nts card config tags1 tags2 Hperm.
  destruct (manualScore card) as [manual |] eqn:Hmanual.
  - unfold calculateUsefulness, with_tags. cbn [manualScore]. now rewrite Hmanual.
  - rewrite !UsefulnessFacts.calculateUsefulness_score by exact Hmanual.
    apply UsefulnessFacts.normalizeScore_compat.
    unfold with_tags. cbn [tags isPattern frequencyRank].
    rewrite !getTagScore_score_sum.
    rewrite (clamp_compat _ _ (weight_sum_Permutation _ _ _ Hperm)).
    reflexivity.
Qed.

Lemma tag_order_is_irrelevant_witness :
  score (calculateUsefulness decimal
           (with_tags (card_with_tags []) ["beginner"; "rare"; "travel"]) None)
  = score (calculateUsefulness decimal
             (with_tags (card_with_tags []) ["travel"; "beginner"; "rare"]) None).
Proof.
  apply (tag_order_is_irrelevant decimal (card_with_tags []) None
           ["beginner"; "rare"; "travel"] ["travel"; "beginner"; "rare"]).
  symmetry. exact (Permutation_cons_append ["beginner"; "rare"] "travel").
Defined.

(** *** The configuration *)

(** X28.  The [frequencyWeight] and the [userLevel] of a configuration are
    never read: whatever they are, the result is the same. *)
Theorem frequencyWeight_and_userLevel_are_not_read :
  forall (Number_toString : Q -> string) (card : CardInput)
         (weights : option (gmap string Q)) (bonus : option Q)
         (weight1 weight2 : option Q) (level1 level2 : option UserLevel),
    calculateUsefulness Number_toString card
      (Some (mkPartialScoringConfig weights bonus weight1 level1))
    = calculateUsefulness Number_toString card
        (Some (mkPartialScoringConfig weights bonus weight2 level2)).
Proof.
  intros nts card weights bonus weight1 weight2 level1 level2.
  unfold calculateUsefulness. destruct (manualScore card); reflexivity.
Qed.

(** *** The score *)

Lemma getFrequencyScore_nonneg (rank : option Q) : 0 <= fst (getFrequencyScore rank).
Proof.
  unfold getFrequencyScore. destruct rank as [rank |]; [| cbn; lra].
  destruct (Qle_bool rank 1000); [cbn; lra |].
  destruct (Qle_bool rank 5000); cbn; lra.
Qed.

(** On the own keys of the table, without a manual score and with a
    pattern bonus that is not negative, the score is a whole number from 20
    to 100: the tags can take at most 30 off the base of 50. *)
Lemma score_own_keys_at_least_twenty :
  forall (Number_toString : Q -> string) (card : CardInput)
         (config : option PartialScoringConfig),
    manualScore card = None ->
    0 <= patternBonus (mergeConfig config) ->
    exists z : Z,
      score (calculateUsefulness Number_toString card config) == inject_Z z
      /\ (20 <= z <= 100)%Z.
Proof.
  intros nts card config Hmanual Hbonus.
  rewrite UsefulnessFacts.calculateUsefulness_score by exact Hmanual.
  set (tag := score (getTagScore nts (tags card) (tagWeights (mergeConfig config)))).
  assert (Htag : -30 <= tag).
  { unfold tag. rewrite getTagScore_score_sum. apply clamp_cases. }
  set (pat := fst (getPatternScore nts (default false (isPattern card))
                     (patternBonus (mergeConfig config)))).
  assert (Hpat : 0 <= pat).
  { unfold pat, getPatternScore. destruct (default false (isPattern card)); cbn [fst]; lra. }
  pose proof (getFrequencyScore_nonneg (frequencyRank card)) as Hfreq.
  set (freq := fst (getFrequencyScore (frequencyRank card))) in *.
  unfold BASE_SCORE. clearbody tag pat freq.
  eexists. split; [apply UsefulnessFacts.normalizeScore_spec |].
  assert (Hfloor : (20 <= Qfloor (50 + tag + pat + freq + (1 # 2)))%Z).
  { change 20%Z with (Qfloor 20). apply Qfloor_resp_le. lra. }
  lia.
Qed.

Lemma normalizeScore_whole (z : Z) :
  (0 <= z <= 100)%Z -> normalizeScore (inject_Z z) == inject_Z z.
Proof.
  intros Hz. rewrite UsefulnessFacts.normalizeScore_spec.
  assert (Hfloor : Qfloor (inject_Z z + (1 # 2)) = z).
  { pose proof (SchedulerMore.Math_round_inject_Z (inject_Z z) z (Qeq_refl _)) as H.
    apply (f_equal Qfloor) in H. unfold Math_round in H. now rewrite !Qfloor_Z in H. }
  rewrite Hfloor. replace (Z.max 0 (Z.min 100 z)) with z by lia. reflexivity.
Qed.

(** X30.  [normalizeScore] leaves a whole number from 0 to 100 as it is,
    so normalizing twice is normalizing once, and it keeps the order of
    raw scores. *)
Theorem normalizeScore_idempotent_and_monotone :
  (forall z : Z, (0 <= z <= 100)%Z -> normalizeScore (inject_Z z) == inject_Z z)
  /\ (forall raw : Q, normalizeScore (normalizeScore raw) == normalizeScore raw)
  /\ (forall raw1 raw2 : Q, raw1 <= raw2 -> normalizeScore raw1 <= normalizeScore raw2).
Proof.
  split; [exact normalizeScore_whole |]. split.
  - intros raw. destruct (UsefulnessFacts.normalizeScore_range raw) as (z & Hz & Hrange).
    rewrite (UsefulnessFacts.normalizeScore_compat _ _ Hz), Hz.
    now apply normalizeScore_whole.
  - intros raw1 raw2 Hle. rewrite !UsefulnessFacts.normalizeScore_spec.
    rewrite <- Zle_Qle.
    assert (Hfloor : (Qfloor (raw1 + (1 # 2)) <= Qfloor (raw2 + (1 # 2)))%Z)
      by (apply Qfloor_resp_le; lra).
    lia.
Qed.

Lemma normalizeScore_idempotent_and_monotone_witness :
  normalizeScore (inject_Z 68) == inject_Z 68
  /\ normalizeScore (-5) <= normalizeScore 49.5.
Proof.
  destruct normalizeScore_idempotent_and_monotone as (Hwhole & _ & Hmono).
  split; [apply Hwhole; lia | apply Hmono; lra].
Defined.

End UsefulnessMore.

Module UsefulnessJSFacts.
Import JS Usefulness UsefulnessSpec.
Local Open Scope string_scope.
Local Open Scope list_scope.
Local Open Scope Q_scope.

(** *** The two readings of the table agree off [Object.prototype] *)

Lemma get_own (weights : gmap string Q) (tag : string) :
  UsefulnessJS.get weights tag <> UsefulnessJS.inherited ->
  UsefulnessJS.get weights tag
  = match weights !! tag with
    | Some weight => UsefulnessJS.own weight
    | None => UsefulnessJS.undefined
    end.
Proof.
  unfold UsefulnessJS.get. destruct (weights !! tag); [reflexivity |].
  case_bool_decide; [intros Hne; now destruct Hne | reflexivity].
Qed.

Lemma foldl_agrees (Number_toString : Q -> string) (weights : gmap string Q)
    (tags : list string) :
  Forall (fun tag => UsefulnessJS.get weights tag <> UsefulnessJS.inherited) tags ->
  forall (rawScore : Q) (reasons : list string),
    foldl (UsefulnessJS.getTagScore_step Number_toString weights)
          (UsefulnessJS.a_number rawScore, reasons) tags
    = (UsefulnessJS.a_number
         (fst (foldl (getTagScore_step Number_toString weights) (rawScore, reasons) tags)),
       snd (foldl (getTagScore_step Number_toString weights) (rawScore, reasons) tags)).
Proof.
  induction 1 as [| tag tags Htag _ IH]; intros rawScore reasons; cbn [foldl];
    [reflexivity |].
  unfold UsefulnessJS.getTagScore_step at 2, getTagScore_step at 2 4.
  rewrite (get_own _ _ Htag).
  destruct (weights !! tag) as [weight |]; apply IH.
Qed.

Lemma getTagScore_agrees (Number_toString : Q -> string)
    (tags : list string) (weights : gmap string Q) :
  Forall (fun tag => UsefulnessJS.get weights tag <> UsefulnessJS.inherited) tags ->
  UsefulnessJS.getTagScore Number_toString tags weights
  = UsefulnessJS.of_finite (getTagScore Number_toString tags weights).
Proof.
  intros Htags. unfold UsefulnessJS.getTagScore, getTagScore.
  rewrite (foldl_agrees _ _ _ Htags).
  now destruct (foldl (getTagScore_step Number_toString weights) (0, []) tags).
Qed.

Lemma calculateUsefulness_agrees (Number_toString : Q -> string)
    (card : CardInput) (config : option PartialScoringConfig) :
  manualScore card <> None
  \/ Forall (fun tag => UsefulnessJS.get (tagWeights (mergeConfig config)) tag
                        <> UsefulnessJS.inherited) (tags card) ->
  UsefulnessJS.calculateUsefulness Number_toString card config
  = UsefulnessJS.of_finite (calculateUsefulness Number_toString card config).
Proof.
  intros H. unfold UsefulnessJS.calculateUsefulness, calculateUsefulness.
  destruct (manualScore card) as [manual |]; [reflexivity |].
  destruct H as [H | Htags]; [now destruct H |].
  rewrite (getTagScore_agrees _ _ _ Htags). reflexivity.
Qed.

(** *** A tag that names a member of [Object.prototype] *)

Lemma foldl_string (Number_toString : Q -> string) (weights : gmap string Q)
    (tags : list string) :
  forall reasons,
    fst (foldl (UsefulnessJS.getTagScore_step Number_toString weights)
               (UsefulnessJS.a_string, reasons) tags)
    = UsefulnessJS.a_string.
Proof.
  induction tags as [| tag tags IH]; intros reasons; cbn [foldl]; [reflexivity |].
  unfold UsefulnessJS.getTagScore_step at 2.
  destruct (UsefulnessJS.get weights tag); apply IH.
Qed.

Lemma foldl_inherited (Number_toString : Q -> string) (weights : gmap string Q)
    (tags : list string) :
  Exists (fun tag => UsefulnessJS.get weights tag = UsefulnessJS.inherited) tags ->
  forall acc,
    fst (foldl (UsefulnessJS.getTagScore_step Number_toString weights) acc tags)
    = UsefulnessJS.a_string.
Proof.
  induction 1 as [tag tags Htag | tag tags _ IH]; intros [rawScore reasons];
    cbn [foldl].
  - unfold UsefulnessJS.getTagScore_step at 2. rewrite Htag. apply foldl_string.
  - apply IH.
Qed.

Lemma getTagScore_inherited (Number_toString : Q -> string)
    (tags : list string) (weights : gmap string Q) :
  Exists (fun tag => UsefulnessJS.get weights tag = UsefulnessJS.inherited) tags ->
  UsefulnessJS.score (UsefulnessJS.getTagScore Number_toString tags weights)
  = UsefulnessJS.NaN
  /\ last (UsefulnessJS.reasons (UsefulnessJS.getTagScore Number_toString tags weights))
     = Some ("tag score capped at ±" +:+ Number_toString MAX_TAG_IMPACT).
Proof.
  intros Htags. unfold UsefulnessJS.getTagScore.
  pose proof (foldl_inherited Number_toString weights tags Htags
                (UsefulnessJS.a_number 0, [])) as Hraw.
  destruct (foldl _ _ tags) as [rawScore reasons]. cbn [fst] in Hraw. subst rawScore.
  cbn [UsefulnessJS.score UsefulnessJS.reasons]. split; [reflexivity | apply last_snoc].
Qed.

(** *** The scorer on all tags *)

(** C5, where the code breaks it.  A card without manual score that has
    among its tags the name of a member of [Object.prototype] for which the
    merged configuration holds no weight (as the tag [constructor] under
    the default configuration) gets the score NaN, no whole number between
    0 and 100.  For every other card the claim holds: the score is a whole
    number between 0 and 100; with the default configuration seven or more
    [rare] tags without pattern or rank give exactly 20, and seven or more
    positive tags with the pattern bonus and a high-frequency rank give
    100. *)
Theorem usefulness_score_NaN_on_inherited_name :
  forall Number_toString : Q -> string,
    (forall (card : CardInput) (config : option PartialScoringConfig),
       manualScore card = None ->
       Exists (fun tag => UsefulnessJS.get (tagWeights (mergeConfig config)) tag
                          = UsefulnessJS.inherited) (tags card) ->
       UsefulnessJS.score (UsefulnessJS.calculateUsefulness Number_toString card config)
       = UsefulnessJS.NaN)
    /\ (forall (card : CardInput) (config : option PartialScoringConfig),
          manualScore card <> None
          \/ Forall (fun tag => UsefulnessJS.get (tagWeights (mergeConfig config)) tag
                                <> UsefulnessJS.inherited) (tags card) ->
          UsefulnessJS.whole_between 0 100
            (UsefulnessJS.score
               (UsefulnessJS.calculateUsefulness Number_toString card config)))
    /\ (forall (card : CardInput) (n : nat),
          tags card = replicate n "rare" -> (7 <= n)%nat ->
          default false (isPattern card) = false ->
          manualScore card = None -> frequencyRank card = None ->
          UsefulnessJS.has_value
            (UsefulnessJS.score
               (UsefulnessJS.calculateUsefulness Number_toString card None)) 20)
    /\ (forall (card : CardInput) (rank : Q),
          Forall positive_tag (tags card) -> (7 <= length (tags card))%nat ->
          isPattern card = Some true ->
          manualScore card = None ->
          frequencyRank card = Some rank -> rank <= 1000 ->
          UsefulnessJS.has_value
            (UsefulnessJS.score
               (UsefulnessJS.calculateUsefulness Number_toString card None)) 100).
Proof.
  intros nts.
  destruct (UsefulnessFacts.usefulness_score_range nts) as (Hrange & Hlow & Hhigh).
  split; [| split; [| split]].
  - intros card config Hmanual Htags. unfold UsefulnessJS.calculateUsefulness.
    rewrite Hmanual. cbn zeta.
    destruct (getTagScore_inherited nts _ _ Htags) as [-> _]. reflexivity.
  - intros card config H. rewrite (calculateUsefulness_agrees nts card config H).
    destruct (Hrange card config) as (z & Hz & Hbounds).
    eexists _, z. split; [reflexivity | split; [exact Hz | exact Hbounds]].
  - intros card n Htags Hn Hpattern Hmanual Hrank.
    rewrite calculateUsefulness_agrees.
    + eexists. split; [reflexivity |]. now apply (Hlow card n).
    + right. rewrite Htags. apply Forall_forall. intros tag Hin.
      apply elem_of_replicate in Hin as [-> _].
      rewrite UsefulnessFacts.default_weights_of_no_config.
      unfold UsefulnessJS.get. rewrite UsefulnessFacts.default_weight_rare. discriminate.
  - intros card rank Htags Hlen Hpattern Hmanual Hrank Hhighrank.
    rewrite calculateUsefulness_agrees.
    + eexists. split; [reflexivity |]. now apply (Hhigh card rank).
    + right. eapply Forall_impl; [exact Htags |].
      intros tag (weight & Hweight & _).
      rewrite UsefulnessFacts.default_weights_of_no_config.
      unfold UsefulnessJS.get. rewrite Hweight. discriminate.
Qed.

Lemma usefulness_score_NaN_on_inherited_name_witness :
  UsefulnessJS.calculateUsefulness decimal (card_with_tags ["constructor"]) None
  = UsefulnessJS.mkScoreResult UsefulnessJS.NaN
      ["base score: 50"; "tag score capped at ±30"]
  /\ UsefulnessJS.score
       (UsefulnessJS.calculateUsefulness decimal
          (card_with_tags ["beginner"; "constructor"; "travel"]) None)
     = UsefulnessJS.NaN
  /\ UsefulnessJS.whole_between 0 100
       (UsefulnessJS.score
          (UsefulnessJS.calculateUsefulness decimal
             (card_with_tags ["beginner"; "travel"]) None)).
Proof.
  destruct (usefulness_score_NaN_on_inherited_name decimal) as (HNaN & Hrange & _).
  split; [reflexivity |]. split.
  - apply HNaN; [reflexivity |].
    apply Exists_cons_tl, Exists_cons_hd. reflexivity.
  - apply Hrange. right.
    repeat (apply Forall_cons; split; [vm_compute; discriminate |]). constructor.
Defined.

(** X25.  Where no tag names a member of [Object.prototype] that the table
    holds no weight for, the tags contribute the sum of their weights, a
    tag without weight counting for nothing, held within -30 and 30, and
    when the sum lies outside, the last reason says that the tag score was
    capped.  Where a tag names such a member, the tag score is NaN and the
    last reason says that it was capped. *)
Theorem getTagScore_clamps_the_sum :
  forall (Number_toString : Q -> string) (tags : list string) (weights : gmap string Q),
    let result := UsefulnessJS.getTagScore Number_toString tags weights in
    let sum := weight_sum weights tags in
    let capped := "tag score capped at ±" +:+ Number_toString MAX_TAG_IMPACT in
    (Forall (fun tag => UsefulnessJS.get weights tag <> UsefulnessJS.inherited) tags ->
     exists s : Q,
       UsefulnessJS.score result = UsefulnessJS.finite s
       /\ -30 <= s <= 30
       /\ (-30 <= sum <= 30 -> s == sum)
       /\ (30 <= sum -> s == 30)
       /\ (sum <= -30 -> s == -30)
       /\ (sum < -30 \/ 30 < sum -> last (UsefulnessJS.reasons result) = Some capped))
    /\ (Exists (fun tag => UsefulnessJS.get weights tag = UsefulnessJS.inherited) tags ->
        UsefulnessJS.score result = UsefulnessJS.NaN
        /\ last (UsefulnessJS.reasons result) = Some capped).
Proof.
  intros nts tags weights result sum capped. split.
  - intros Htags. unfold result. rewrite (getTagScore_agrees nts tags weights Htags).
    cbn [UsefulnessJS.of_finite UsefulnessJS.score UsefulnessJS.reasons].
    eexists. split; [reflexivity |].
    exact (UsefulnessMore.getTagScore_own_keys nts tags weights).
  - apply getTagScore_inherited.
Qed.

Lemma getTagScore_clamps_the_sum_witness :
  UsefulnessJS.has_value
    (UsefulnessJS.score
       (UsefulnessJS.getTagScore decimal ["beginner"; "unknown-tag"; "travel"]
          (tagWeights DEFAULT_CONFIG))) 18
  /\ UsefulnessJS.score
       (UsefulnessJS.getTagScore decimal ["beginner"; "toString"]
          (tagWeights DEFAULT_CONFIG)) = UsefulnessJS.NaN.
Proof.
  split.
  - destruct (getTagScore_clamps_the_sum decimal ["beginner"; "unknown-tag"; "travel"]
                (tagWeights DEFAULT_CONFIG)) as [H _].
    destruct H as (s & Hs & _ & Hin & _).
    + repeat (apply Forall_cons; split; [vm_compute; discriminate |]). constructor.
    + exists s. split; [exact Hs |]. rewrite Hin; [reflexivity |].
      vm_compute. split; discriminate.
  - apply (getTagScore_clamps_the_sum decimal ["beginner"; "toString"]
             (tagWeights DEFAULT_CONFIG)).
    apply Exists_cons_tl, Exists_cons_hd. reflexivity.
Defined.

Lemma foldl_defined_tags (Number_toString : Q -> string) (weights : gmap string Q)
    (tags : list string) :
  forall acc,
    foldl (UsefulnessJS.getTagScore_step Number_toString weights) acc
      (List.filter
         (fun tag => negb (UsefulnessJS.is_undefined (UsefulnessJS.get weights tag)))
         tags)
    = foldl (UsefulnessJS.getTagScore_step Number_toString weights) acc tags.
Proof.
  induction tags as [| tag tags IH]; intros acc; cbn [List.filter foldl];
    [reflexivity |].
  destruct (UsefulnessJS.get weights tag) eqn:Hget;
    cbn [UsefulnessJS.is_undefined negb foldl]; try apply IH.
  rewrite IH. f_equal. unfold UsefulnessJS.getTagScore_step.
  destruct acc. now rewrite Hget.
Qed.

(** X27.  Tags for which the lookup in the merged table of weights gives
    [undefined] (no weight of their own, and not the name of a member of
    [Object.prototype]) are ignored: dropping them from a card changes
    neither its score nor its reasons. *)
Theorem unknown_tags_are_ignored :
  forall (Number_toString : Q -> string) (card : CardInput)
         (config : option PartialScoringConfig),
    UsefulnessJS.calculateUsefulness Number_toString
      (with_tags card
         (List.filter
            (fun tag =>
               negb (UsefulnessJS.is_undefined
                       (UsefulnessJS.get (tagWeights (mergeConfig config)) tag)))
            (tags card)))
      config
    = UsefulnessJS.calculateUsefulness Number_toString card config.
Proof.
  intros nts card config. unfold UsefulnessJS.calculateUsefulness, with_tags.
  cbn [manualScore tags isPattern frequencyRank].
  destruct (manualScore card); [reflexivity |].
  unfold UsefulnessJS.getTagScore. now rewrite foldl_defined_tags.
Qed.

(** X29.  Without a manual score, with a pattern bonus that is not
    negative and with no tag that names a member of [Object.prototype]
    without a weight of its own, the score is a whole number from 20 to
    100: the tags can take at most 30 off the base of 50. *)
Theorem score_at_least_twenty :
  forall (Number_toString : Q -> string) (card : CardInput)
         (config : option PartialScoringConfig),
    manualScore card = None ->
    0 <= patternBonus (mergeConfig config) ->
    Forall (fun tag => UsefulnessJS.get (tagWeights (mergeConfig config)) tag
                       <> UsefulnessJS.inherited) (tags card) ->
    UsefulnessJS.whole_between 20 100
      (UsefulnessJS.score (UsefulnessJS.calculateUsefulness Number_toString card config)).
Proof.
  intros nts card config Hmanual Hbonus Htags.
  rewrite (calculateUsefulness_agrees nts card config (or_intror Htags)).
  destruct (UsefulnessMore.score_own_keys_at_least_twenty nts card config Hmanual Hbonus)
    as (z & Hz & Hbounds).
  eexists _, z. split; [reflexivity | split; [exact Hz | exact Hbounds]].
Qed.

Lemma score_at_least_twenty_witness :
  UsefulnessJS.whole_between 20 100
    (UsefulnessJS.score
       (UsefulnessJS.calculateUsefulness decimal
          (card_with_tags ["rare"; "rare"; "rare"; "rare"; "rare"; "rare"; "rare";
                           "rare"]) None)).
Proof.
  apply (score_at_least_twenty decimal
           (card_with_tags ["rare"; "rare"; "rare"; "rare"; "rare"; "rare"; "rare";
                            "rare"]) None).
  - reflexivity.
  - vm_compute. discriminate.
  - repeat (apply Forall_cons; split; [vm_compute; discriminate |]). constructor.
Defined.

End UsefulnessJSFacts.
